(** * FRAIL: the GhostNet model definition and the line dataset

    A shallow embedding of [ghostnet.py] and [FRAIL/data/dataset.py].

    Numbers.  Python [int]s are [Z].  The Python [float]s of the width
    computations ([_make_divisible] and the products [c * width_mult]) are
    IEEE 754 binary64 numbers, with the operations of the Standard
    Library's [SpecFloat]: every sum and product is rounded to the nearest
    binary64 number, ties to even, and there are infinities and NaN.  The
    entries of tensors and the quotient inside [math.ceil] are exact
    rationals ([Q]).

    Exceptions.  A call that can raise returns a [result]. *)

From Stdlib Require Import ZArith QArith Qround Qpower Lia Lqa Ascii String.
From Stdlib Require Import SpecFloat.
From stdpp Require Import base option list strings gmap.

Open Scope Z_scope.

(** ** Exceptions *)

Inductive exn : Set :=
| ZeroDivisionError
| AssertionError
| IndexError
| UnboundLocalError
| ValueError
| RuntimeError
| OverflowError.

Inductive result (A : Type) : Type :=
| Ok (a : A)
| Raise (e : exn).
Arguments Ok {A} a.
Arguments Raise {A} e.

#[global] Instance result_ret : MRet result := fun _ a => Ok a.
#[global] Instance result_bind : MBind result := fun _ _ f m =>
  match m with
  | Ok a => f a
  | Raise e => Raise e
  end.

(** ** Python floats *)

Module Float.

(** The binary64 format. *)
Definition prec : Z := 53.
Definition emax : Z := 1024.

(** [x + y] and [x * y] on floats. *)
Definition add : spec_float -> spec_float -> spec_float := SFadd prec emax.
Definition mul : spec_float -> spec_float -> spec_float := SFmul prec emax.

(** The float nearest to [m * 2^e], ties to even; an infinity when that
    is out of range. *)
Definition round (m e : Z) : spec_float := binary_normalize prec emax m e false.

(** The literal [0.9]: [0x1.ccccccccccccdp-1]. *)
Definition lit_0_9 : spec_float := S754_finite false 8106479329266893 (-53).

(** [f] is a binary64 number. *)
Definition valid (f : spec_float) : Prop := valid_binary prec emax f = true.

Definition is_finite (f : spec_float) : bool :=
  match f with
  | S754_zero _ | S754_finite _ _ _ => true
  | _ => false
  end.

(** The dyadic number [m * 2^e], and the value of a finite float. *)
Definition dy (m e : Z) : Q := (inject_Z m * 2 ^ e)%Q.

Definition to_Q (f : spec_float) : Q :=
  match f with
  | S754_finite s m e => dy (cond_Zopp s (Z.pos m)) e
  | _ => 0%Q
  end.

(** [f <= q] and [f >= q], where [f] may be an infinity. *)
Definition le_Q (f : spec_float) (q : Q) : Prop :=
  match f with
  | S754_nan => False
  | S754_infinity s => s = true
  | _ => (to_Q f <= q)%Q
  end.

Definition ge_Q (f : spec_float) (q : Q) : Prop :=
  match f with
  | S754_nan => False
  | S754_infinity s => s = false
  | _ => (q <= to_Q f)%Q
  end.

(** [q] is the value of a finite binary64 number. *)
Definition fits (q : Q) : Prop :=
  exists k e, Z.abs k < 2 ^ 53 /\ -1074 <= e <= 971 /\ (q == dy k e)%Q.

(** [R] is a rounding of [q]: it is on the same side as [q] of every
    binary64 number. *)
Definition rounded (q : Q) (R : spec_float) : Prop :=
  (forall y, fits y -> (q <= y)%Q -> le_Q R y) /\
  (forall y, fits y -> (y <= q)%Q -> ge_Q R y).

(** [f] is the exponent of the format's grid at [x > 0], and [M] is
    [x / 2^f] rounded down or up. *)
Definition rounds_to (x : Q) (M f : Z) : Prop :=
  -1074 <= f /\ (0 < x)%Q /\ (x < dy (2 ^ 53) f)%Q /\
  (-1074 < f -> (dy (2 ^ 52) f <= x)%Q) /\
  0 <= M /\ (dy (M - 1) f < x)%Q /\ (x < dy (M + 1) f)%Q.

(** The float that [SpecFloat] builds from a rounded mantissa [M] on the
    grid of exponent [f]: a mantissa of 54 digits is renormalised, an
    exponent above 971 gives an infinity. *)
Definition fin (s : bool) (M f : Z) : spec_float :=
  match M with
  | Z.pos p => if f <=? 971 then S754_finite s p f else S754_infinity s
  | Z0 => S754_zero s
  | Z.neg _ => S754_nan
  end.

Definition finalize (s : bool) (M f : Z) : spec_float :=
  if M <? 2 ^ 53 then fin s M f else fin s (2 ^ 52) (f + 1).

End Float.

(** ** Python numbers and the arithmetic used by the sources *)

(** A number: an [int] or a [float]. *)
Inductive number : Set :=
| PyInt (z : Z)
| PyFloat (f : spec_float).

Module Py.

(** The value of a number that is not an infinity or NaN. *)
Definition value (v : number) : Q :=
  match v with
  | PyInt z => inject_Z z
  | PyFloat f => Float.to_Q f
  end.

(** An int, or a binary64 number that is not an infinity or NaN. *)
Definition finite (v : number) : Prop :=
  match v with
  | PyInt _ => True
  | PyFloat f => Float.valid f /\ Float.is_finite f = true
  end.

(** The float an operand of mixed arithmetic is converted to: an [int]
    is rounded to the nearest float, [OverflowError] when it is too
    large. *)
Definition float (v : number) : result spec_float :=
  match v with
  | PyInt z =>
      match Float.round z 0 with
      | S754_infinity _ => Raise OverflowError
      | f => Ok f
      end
  | PyFloat f => Ok f
  end.

(** [a / 2] on an int: the quotient, rounded to the nearest float;
    [OverflowError] when it is too large. *)
Definition truediv_2 (a : Z) : result spec_float :=
  match Float.round a (-1) with
  | S754_infinity _ => Raise OverflowError
  | f => Ok f
  end.

(** [int(x)] on a float: truncation toward zero; [OverflowError] on an
    infinity, [ValueError] on NaN. *)
Definition int (x : spec_float) : result Z :=
  match x with
  | S754_zero _ => Ok 0
  | S754_infinity _ => Raise OverflowError
  | S754_nan => Raise ValueError
  | S754_finite s m e => Ok (cond_Zopp s (Z.shiftl (Z.pos m) e))
  end.

(** [a // b] on ints: floor division, [ZeroDivisionError] when [b] is 0. *)
Definition floordiv (a b : Z) : result Z :=
  if decide (b = 0) then Raise ZeroDivisionError else Ok (a `div` b).

(** [z < x] for an int [z] and a float [x]: the two are compared
    exactly. *)
Definition int_lt_float (z : Z) (x : spec_float) : bool :=
  match x with
  | S754_zero _ => z <? 0
  | S754_infinity s => negb s
  | S754_nan => false
  | S754_finite s m e =>
      if 0 <=? e then z <? cond_Zopp s (Z.pos m) * 2 ^ e
      else z * 2 ^ (- e) <? cond_Zopp s (Z.pos m)
  end.

(** [a * x] for an int [a] and a float [x]. *)
Definition int_mul_float (a : Z) (x : spec_float) : result spec_float :=
  a ← float (PyInt a);
  mret (Float.mul a x).

(** [x < y] on exact numbers. *)
Definition lt (x y : Q) : bool := negb (Qle_bool y x).

(** [math.ceil(a / b)] for ints [a], [b]. *)
Definition ceil_div (a b : Z) : result Z :=
  if decide (b = 0) then Raise ZeroDivisionError
  else Ok (Qceiling (inject_Z a / inject_Z b)).

End Py.

(** ** [_make_divisible] (ghostnet.py, lines 7-13) *)

Definition _make_divisible (v : number) (divisor : Z) (min_value : option Z)
  : result Z :=
  let min_value := match min_value with None => divisor | Some m => m end in
  (* int(v + divisor / 2) // divisor * divisor *)
  half ← Py.truediv_2 divisor;
  x ← Py.float v;
  i ← Py.int (Float.add x half);
  q ← Py.floordiv i divisor;
  let new_v := Z.max min_value (q * divisor) in
  (* new_v < 0.9 * v *)
  x ← Py.float v;
  let new_v :=
    if Py.int_lt_float new_v (Float.mul Float.lit_0_9 x)
    then new_v + divisor else new_v in
  mret new_v.

(** The rounding rule as the specification words it, on the sum [s] that
    is floored and the product [p] that the candidate is compared with:
    the candidate is [max(min_value, floor(s / divisor) * divisor)], and
    one more [divisor] is added when the candidate is below [p]. *)
Definition make_divisible_rule (s p : Q) (divisor : Z) (min_value : option Z)
  : Z :=
  let m := match min_value with None => divisor | Some m => m end in
  let candidate := Z.max m (Qfloor (s / inject_Z divisor) * divisor) in
  if Py.lt (inject_Z candidate) p then candidate + divisor else candidate.

(** The rule on the sum [v + divisor/2] and the product [0.9 * v] of
    rational numbers. *)
Definition make_divisible_formula (v : Q) (divisor : Z) (min_value : option Z)
  : Z :=
  make_divisible_rule (v + inject_Z divisor / 2) (0.9 * v) divisor min_value.

(** Widths used below: [0.2777777777777778], and
    [16 * 0.2777777777777778], which is [4.444444444444445]. *)
Definition width_mult_5_18 : spec_float :=
  S754_finite false 5003999585967218 (-54).

Definition width_40_9 : spec_float :=
  S754_finite false 5003999585967218 (-50).

(** ** Tensors

    A tensor is its shape and its entries.  Two ranks occur in the sources:
    feature maps (N, C, H, W) and the (N, C) matrices inside [SELayer].
    Entries
    outside the shape are never read. *)

Record Tensor2 := mkT2 {
  rows : nat;
  cols : nat;
  at2 : nat -> nat -> Q
}.

Record Tensor4 := mkT4 {
  batch : nat;
  channels : nat;
  height : nat;
  width : nat;
  at4 : nat -> nat -> nat -> nat -> Q
}.

Inductive tensor :=
| T2 (t : Tensor2)
| T4 (t : Tensor4).

Module torch.

Definition numel (x : tensor) : nat :=
  match x with
  | T2 t => (rows t * cols t)%nat
  | T4 t => (batch t * channels t * height t * width t)%nat
  end.

(** The entry at position [f] of the row-major storage. *)
Definition flat (x : tensor) (f : nat) : Q :=
  match x with
  | T2 t => at2 t (f / cols t)%nat (f mod cols t)%nat
  | T4 t =>
      at4 t (f / (channels t * height t * width t))%nat
            ((f / (height t * width t)) mod channels t)%nat
            ((f / width t) mod height t)%nat
            (f mod width t)%nat
  end.

(** [b, c, _, _ = x.size()]: unpacking needs exactly four dimensions. *)
Definition size4 (x : tensor) : result (nat * nat * nat * nat) :=
  match x with
  | T4 t => Ok (batch t, channels t, height t, width t)
  | T2 _ => Raise ValueError
  end.

(** [x.view(n, m)] *)
Definition view2 (x : tensor) (n m : nat) : result tensor :=
  if decide (numel x = (n * m)%nat)
  then Ok (T2 (mkT2 n m (fun i j => flat x (i * m + j)%nat)))
  else Raise RuntimeError.

(** [x.view(b, c, h, w)] *)
Definition view4 (x : tensor) (b c h w : nat) : result tensor :=
  if decide (numel x = (b * c * h * w)%nat)
  then Ok (T4 (mkT4 b c h w
                 (fun i j k l => flat x (((i * c + j) * h + k) * w + l)%nat)))
  else Raise RuntimeError.

(** Entrywise application of a scalar function. *)
Definition map (f : Q -> Q) (x : tensor) : tensor :=
  match x with
  | T2 t => T2 (mkT2 (rows t) (cols t) (fun i j => f (at2 t i j)))
  | T4 t =>
      T4 (mkT4 (batch t) (channels t) (height t) (width t)
            (fun i j k l => f (at4 t i j k l)))
  end.

Definition relu (q : Q) : Q := if Py.lt q 0 then 0%Q else q.

(** [torch.clamp(y, lo, hi)] on one entry: [min(max(y, lo), hi)]. *)
Definition clamp1 (lo hi q : Q) : Q :=
  let q := if Py.lt q lo then lo else q in
  if Py.lt hi q then hi else q.

Definition clamp (x : tensor) (lo hi : Q) : tensor := map (clamp1 lo hi) x.

(** Broadcasting of one dimension: equal sizes, or one of them is 1. *)
Definition bdim (a b : nat) : result nat :=
  if decide (a = b) then Ok a
  else if decide (a = 1%nat) then Ok b
  else if decide (b = 1%nat) then Ok a
  else Raise RuntimeError.

(** The index read in a dimension of size [a] for the output index [i]. *)
Definition bidx (a i : nat) : nat := if decide (a = 1%nat) then 0%nat else i.

Definition lift4 (t : Tensor2) : Tensor4 :=
  mkT4 1 1 (rows t) (cols t) (fun _ _ k l => at2 t k l).

Definition binop4 (f : Q -> Q -> Q) (x y : Tensor4) : result tensor :=
  b ← bdim (batch x) (batch y);
  c ← bdim (channels x) (channels y);
  h ← bdim (height x) (height y);
  w ← bdim (width x) (width y);
  mret (T4 (mkT4 b c h w (fun i j k l =>
    f (at4 x (bidx (batch x) i) (bidx (channels x) j)
             (bidx (height x) k) (bidx (width x) l))
      (at4 y (bidx (batch y) i) (bidx (channels y) j)
             (bidx (height y) k) (bidx (width y) l))))).

Definition binop2 (f : Q -> Q -> Q) (x y : Tensor2) : result tensor :=
  n ← bdim (rows x) (rows y);
  m ← bdim (cols x) (cols y);
  mret (T2 (mkT2 n m (fun i j =>
    f (at2 x (bidx (rows x) i) (bidx (cols x) j))
      (at2 y (bidx (rows y) i) (bidx (cols y) j))))).

(** An entrywise binary operator with broadcasting. *)
Definition binop (f : Q -> Q -> Q) (x y : tensor) : result tensor :=
  match x, y with
  | T4 x, T4 y => binop4 f x y
  | T2 x, T2 y => binop2 f x y
  | T4 x, T2 y => binop4 f x (lift4 y)
  | T2 x, T4 y => binop4 f (lift4 x) y
  end.

(** [x * y] and [x + y] *)
Definition mul : tensor -> tensor -> result tensor := binop Qmult.
Definition add : tensor -> tensor -> result tensor := binop Qplus.

(** [torch.cat([x1, x2], dim=1)] *)
Definition cat1 (x1 x2 : tensor) : result tensor :=
  match x1, x2 with
  | T4 a, T4 b =>
      if decide (batch a = batch b /\ height a = height b /\ width a = width b)
      then Ok (T4 (mkT4 (batch a) (channels a + channels b) (height a) (width a)
                    (fun i j k l =>
                       if decide (j < channels a)%nat then at4 a i j k l
                       else at4 b i (j - channels a)%nat k l)))
      else Raise RuntimeError
  | T2 a, T2 b =>
      if decide (rows a = rows b)
      then Ok (T2 (mkT2 (rows a) (cols a + cols b)
                    (fun i j =>
                       if decide (j < cols a)%nat then at2 a i j
                       else at2 b i (j - cols a)%nat)))
      else Raise RuntimeError
  | _, _ => Raise RuntimeError
  end.

(** The length of [range(n)[:stop]]. *)
Definition slice_stop (n : nat) (stop : Z) : nat :=
  if decide (stop < 0) then Z.to_nat (Z.of_nat n + stop)
  else Nat.min n (Z.to_nat stop).

(** [out[:, :stop, :, :]]: four indices need a four-dimensional tensor. *)
Definition slice1 (out : tensor) (stop : Z) : result tensor :=
  match out with
  | T4 t =>
      Ok (T4 (mkT4 (batch t) (slice_stop (channels t) stop) (height t)
                (width t) (at4 t)))
  | T2 _ => Raise IndexError
  end.

(** The sum of [f 0], ..., [f (n-1)]. *)
Fixpoint sum (n : nat) (f : nat -> Q) : Q :=
  match n with
  | O => 0%Q
  | S n => (sum n f + f n)%Q
  end.

(** The forward pass of [nn.AdaptiveAvgPool2d(1)]: the mean over the
    spatial positions of every channel; an empty spatial extent is
    refused. *)
Definition adaptive_avg_pool2d_1 (x : tensor) : result tensor :=
  match x with
  | T4 t =>
      if decide (height t = 0%nat \/ width t = 0%nat) then Raise RuntimeError
      else Ok (T4 (mkT4 (batch t) (channels t) 1 1 (fun i j _ _ =>
             (sum (height t) (fun k => sum (width t) (fun l => at4 t i j k l))
              / inject_Z (Z.of_nat (height t * width t)))%Q)))
  | T2 _ => Raise RuntimeError
  end.

(** Two feature maps of one shape. *)
Definition same_shape (x y : Tensor4) : Prop :=
  batch x = batch y /\ channels x = channels y /\
  height x = height y /\ width x = width y.

(** [(i, j, k, l)] is a position of [x]. *)
Definition in_range (x : Tensor4) (i j k l : nat) : Prop :=
  (i < batch x /\ j < channels x /\ k < height x /\ l < width x)%nat.

End torch.

(** ** Modules

    The module tree the constructors build.  A library layer is recorded by
    its constructor arguments; its learned parameters stay inside the
    library, which is why the forward pass of such a layer is a member of
    the interface [Torch] below, addressed by the layer's position in the
    tree (the prefix of its parameter names in the state dictionary).
    The constructors of the library check their arguments and can raise;
    what they accept is a member of the interface too. *)

Inductive name :=
| Attr (s : string)
| Idx (i : nat).

Abbreviation path := (list name).

#[warnings="-register-all"]
Inductive Module : Type :=
(* library layers *)
| Conv2d (in_channels out_channels kernel_size stride padding groups : Z)
| BatchNorm2d (num_features : Z)
| BatchNorm1d (num_features : Z)
| Linear (in_features out_features : Z) (bias : bool)
| ReLU
| Dropout (p : Q)
| AdaptiveAvgPool2d_1
| Sequential (modules : list Module)
(* the classes of ghostnet.py, with their attributes *)
| SELayer (avg_pool fc : Module)
| GhostModule (oup : Z) (primary_conv cheap_operation : Module)
| GhostBottleneck (conv shortcut : Module).

(** The library: the argument checks of the constructors of its layers
    ([Ok tt] when the arguments are accepted), the initialisation
    [nn.init.kaiming_normal_] of the weight of a convolution, and the
    forward passes of the layers that carry parameters. *)
Class Torch := {
  Conv2d__init__ : Z -> Z -> Z -> Z -> Z -> Z -> result unit;
  BatchNorm2d__init__ : Z -> result unit;
  BatchNorm1d__init__ : Z -> result unit;
  Linear__init__ : Z -> Z -> bool -> result unit;
  kaiming_normal_ : Z -> Z -> Z -> Z -> Z -> Z -> result unit;
  Conv2d_forward :
    path -> Z -> Z -> Z -> Z -> Z -> Z -> tensor -> result tensor;
  BatchNorm2d_forward : path -> Z -> tensor -> result tensor;
  BatchNorm1d_forward : path -> Z -> tensor -> result tensor;
  Linear_forward : path -> Z -> Z -> bool -> tensor -> result tensor
}.

(** What the library guarantees about the shapes these layers return. *)
Class TorchShapes `{Torch} := {
  Conv2d_shape p i o k s pd g x y :
    Conv2d_forward p i o k s pd g x = Ok y ->
    exists x4 y4, x = T4 x4 /\ y = T4 y4 /\
      batch y4 = batch x4 /\ channels y4 = Z.to_nat o;
  BatchNorm2d_shape p n x y :
    BatchNorm2d_forward p n x = Ok y ->
    exists x4 y4, x = T4 x4 /\ y = T4 y4 /\
      batch y4 = batch x4 /\ channels y4 = channels x4 /\
      height y4 = height x4 /\ width y4 = width x4;
  Linear_shape p i o b x2 y :
    Linear_forward p i o b (T2 x2) = Ok y ->
    exists y2, y = T2 y2 /\ rows y2 = rows x2 /\ cols y2 = Z.to_nat o
}.

(** What the library accepts for certain: sizes that are positive, a
    number of groups that divides the channels. *)
Class TorchAccepts `{Torch} := {
  Conv2d_accepts i o k s pd g :
    0 < i -> 0 < o -> 0 < k -> 0 < s -> 0 <= pd -> 0 < g ->
    (g | i) -> (g | o) ->
    Conv2d__init__ i o k s pd g = Ok tt;
  BatchNorm2d_accepts n : 0 < n -> BatchNorm2d__init__ n = Ok tt;
  BatchNorm1d_accepts n : 0 < n -> BatchNorm1d__init__ n = Ok tt;
  Linear_accepts i o b : 0 < i -> 0 < o -> Linear__init__ i o b = Ok tt;
  kaiming_normal__accepts i o k s pd g :
    0 < i -> 0 < o -> 0 < k -> 0 < g -> (g | i) ->
    kaiming_normal_ i o k s pd g = Ok tt
}.

(** *** Constructors (the [__init__] methods) *)

(** The constructors of the library layers: the arguments are checked,
    then recorded. *)
Definition nn_Conv2d `{Torch}
    (in_channels out_channels kernel_size stride padding groups : Z)
  : result Module :=
  Conv2d__init__ in_channels out_channels kernel_size stride padding groups;;
  mret (Conv2d in_channels out_channels kernel_size stride padding groups).

Definition nn_BatchNorm2d `{Torch} (num_features : Z) : result Module :=
  BatchNorm2d__init__ num_features;;
  mret (BatchNorm2d num_features).

Definition nn_BatchNorm1d `{Torch} (num_features : Z) : result Module :=
  BatchNorm1d__init__ num_features;;
  mret (BatchNorm1d num_features).

Definition nn_Linear `{Torch} (in_features out_features : Z) (bias : bool)
  : result Module :=
  Linear__init__ in_features out_features bias;;
  mret (Linear in_features out_features bias).

(** [depthwise_conv] (ghostnet.py, lines 45-50) *)
Definition depthwise_conv `{Torch} (inp oup kernel_size stride : Z)
    (relu : bool) : result Module :=
  conv ← nn_Conv2d inp oup kernel_size stride (kernel_size `div` 2) inp;
  bn ← nn_BatchNorm2d oup;
  mret (Sequential [conv; bn; if relu then ReLU else Sequential []]).

(** [SELayer.__init__] (lines 29-36); [channel // reduction] is
    evaluated for each of the two layers, with the same result. *)
Definition SELayer__init__ `{Torch} (channel reduction : Z) : result Module :=
  r ← Py.floordiv channel reduction;
  fc1 ← nn_Linear channel r true;
  fc2 ← nn_Linear r channel true;
  mret (SELayer AdaptiveAvgPool2d_1 (Sequential [fc1; ReLU; fc2])).

(** [GhostModule.__init__] (lines 53-69) *)
Definition GhostModule__init__ `{Torch}
    (inp oup kernel_size ratio dw_size stride : Z) (relu : bool)
  : result Module :=
  init_channels ← Py.ceil_div oup ratio;
  let new_channels := init_channels * (ratio - 1) in
  conv ← nn_Conv2d inp init_channels kernel_size stride
           (kernel_size `div` 2) 1;
  bn ← nn_BatchNorm2d init_channels;
  let primary_conv :=
    Sequential [conv; bn; if relu then ReLU else Sequential []] in
  conv ← nn_Conv2d init_channels new_channels dw_size 1 (dw_size `div` 2)
           init_channels;
  bn ← nn_BatchNorm2d new_channels;
  let cheap_operation :=
    Sequential [conv; bn; if relu then ReLU else Sequential []] in
  mret (GhostModule oup primary_conv cheap_operation).

(** [GhostBottleneck.__init__] (lines 78-96); the keyword defaults of
    [GhostModule] (ratio 2, dw_size 3, stride 1) and of [SELayer]
    (reduction 4) are written out. *)
Definition GhostBottleneck__init__ `{Torch}
    (inp hidden_dim oup kernel_size stride : Z) (use_se : bool)
  : result Module :=
  if decide (stride = 1 \/ stride = 2) then
    expand ← GhostModule__init__ inp hidden_dim 1 2 3 1 true;
    dw ← (if decide (stride = 2)
          then depthwise_conv hidden_dim hidden_dim kernel_size stride false
          else mret (Sequential []));
    se ← (if use_se then SELayer__init__ hidden_dim 4
          else mret (Sequential []));
    project ← GhostModule__init__ hidden_dim oup 1 2 3 1 false;
    let conv := Sequential [expand; dw; se; project] in
    shortcut ← (if decide (stride = 1 /\ inp = oup) then mret (Sequential [])
                else
                  dw ← depthwise_conv inp inp 3 stride false;
                  pw ← nn_Conv2d inp oup 1 1 0 1;
                  bn ← nn_BatchNorm2d oup;
                  mret (Sequential [dw; pw; bn]));
    mret (GhostBottleneck conv shortcut)
  else Raise AssertionError.

(** *** The forward pass

    One function dispatches on the class of the module, as a call
    [module(x)] does; it is the forward pass in evaluation mode
    ([model.eval()], as the script runs it), where dropout does nothing.
    [nn.ReLU(inplace=True)] overwrites its argument; in every module of the
    file that argument is the fresh output of the layer before it, so the
    rectifier is modelled by the tensor it returns. *)
Fixpoint forward `{Torch} (p : path) (m : Module) (x : tensor) {struct m}
  : result tensor :=
  match m with
  | Conv2d i o k s pd g => Conv2d_forward p i o k s pd g x
  | BatchNorm2d n => BatchNorm2d_forward p n x
  | BatchNorm1d n => BatchNorm1d_forward p n x
  | Linear i o b => Linear_forward p i o b x
  | ReLU => Ok (torch.map torch.relu x)
  | Dropout _ => Ok x
  | AdaptiveAvgPool2d_1 => torch.adaptive_avg_pool2d_1 x
  | Sequential modules =>
      (* for module in self: input = module(input) *)
      (fix run (i : nat) (ms : list Module) (input : tensor) {struct ms}
         : result tensor :=
         match ms with
         | [] => Ok input
         | module :: ms =>
             input ← forward (p ++ [Idx i]) module input;
             run (S i) ms input
         end) 0%nat modules x
  | SELayer avg_pool fc =>
      (* SELayer.forward, lines 38-43 *)
      '(b, c, _, _) ← torch.size4 x;
      y ← forward (p ++ [Attr "avg_pool"]) avg_pool x;
      y ← torch.view2 y b c;
      y ← forward (p ++ [Attr "fc"]) fc y;
      y ← torch.view4 y b c 1 1;
      let y := torch.clamp y 0 1 in
      torch.mul x y
  | GhostModule oup primary_conv cheap_operation =>
      (* GhostModule.forward, lines 71-75 *)
      x1 ← forward (p ++ [Attr "primary_conv"]) primary_conv x;
      x2 ← forward (p ++ [Attr "cheap_operation"]) cheap_operation x1;
      out ← torch.cat1 x1 x2;
      torch.slice1 out oup
  | GhostBottleneck conv shortcut =>
      (* GhostBottleneck.forward, lines 98-99 *)
      main ← forward (p ++ [Attr "conv"]) conv x;
      short ← forward (p ++ [Attr "shortcut"]) shortcut x;
      torch.add main short
  end.

(** *** [GhostNet.__init__] (lines 102-137) *)

(** A row [k, t, c, SE, s] of the configuration table. *)
Record cfg_row := mk_cfg {
  cfg_k : Z;
  cfg_exp_size : Z;
  cfg_c : Z;
  cfg_use_se : bool;
  cfg_s : Z
}.

Record GhostNet := mkGhostNet {
  features : Module;
  squeeze : Module;
  classifier : Module
}.

(** [_make_divisible(c * width_mult, 4)] *)
Definition scaled_width (c : Z) (width_mult : spec_float) : result Z :=
  v ← Py.int_mul_float c width_mult;
  _make_divisible (PyFloat v) 4 None.

(** The body of the loop over [cfgs]: [layers] grows, [input_channel] and
    the loop variable [exp_size] are carried to the code after the loop. *)
Fixpoint GhostNet_blocks `{Torch} (cfgs : list cfg_row)
    (width_mult : spec_float)
    (layers : list Module) (input_channel : Z) (exp_size : option Z)
  : result (list Module * Z * option Z) :=
  match cfgs with
  | [] => Ok (layers, input_channel, exp_size)
  | row :: cfgs =>
      output_channel ← scaled_width (cfg_c row) width_mult;
      hidden_channel ← scaled_width (cfg_exp_size row) width_mult;
      block ← GhostBottleneck__init__ input_channel hidden_channel
                output_channel (cfg_k row) (cfg_s row) (cfg_use_se row);
      GhostNet_blocks cfgs width_mult (layers ++ [block]) output_channel
        (Some (cfg_exp_size row))
  end.

(** The body of the loop of [_initialize_weights], for [m] and the
    modules below it, in the order of [self.modules()]: the weight of a
    convolution is initialised by the library; filling the parameters of a
    normalisation layer cannot fail. *)
Fixpoint initialize_module `{Torch} (m : Module) {struct m} : result unit :=
  match m with
  | Conv2d i o k s pd g => kaiming_normal_ i o k s pd g
  | Sequential modules =>
      (fix each (ms : list Module) {struct ms} : result unit :=
         match ms with
         | [] => Ok tt
         | module :: ms => initialize_module module;; each ms
         end) modules
  | SELayer avg_pool fc =>
      initialize_module avg_pool;; initialize_module fc
  | GhostModule _ primary_conv cheap_operation =>
      initialize_module primary_conv;; initialize_module cheap_operation
  | GhostBottleneck conv shortcut =>
      initialize_module conv;; initialize_module shortcut
  | _ => Ok tt
  end.

(** [GhostNet._initialize_weights] (lines 146-152) *)
Definition _initialize_weights `{Torch} (self : GhostNet) : result unit :=
  initialize_module (features self);;
  initialize_module (squeeze self);;
  initialize_module (classifier self).

Definition GhostNet__init__ `{Torch} (cfgs : list cfg_row) (num_classes : Z)
    (width_mult : spec_float) : result GhostNet :=
  output_channel ← scaled_width 16 width_mult;
  conv ← nn_Conv2d 3 output_channel 3 2 1 1;
  bn ← nn_BatchNorm2d output_channel;
  let layers := [Sequential [conv; bn; ReLU]] in
  '(layers, input_channel, exp_size) ←
    GhostNet_blocks cfgs width_mult layers output_channel None;
  (* [exp_size] is bound by the loop only *)
  exp_size ← match exp_size with
             | Some e => Ok e
             | None => Raise UnboundLocalError
             end;
  output_channel ← scaled_width exp_size width_mult;
  conv ← nn_Conv2d input_channel output_channel 1 1 0 1;
  bn ← nn_BatchNorm2d output_channel;
  let squeeze := Sequential [conv; bn; ReLU; AdaptiveAvgPool2d_1] in
  let input_channel := output_channel in
  let output_channel := 1280 in
  fc1 ← nn_Linear input_channel output_channel false;
  bn ← nn_BatchNorm1d output_channel;
  fc2 ← nn_Linear output_channel num_classes true;
  let classifier := Sequential [fc1; bn; ReLU; Dropout 0.2; fc2] in
  let self := mkGhostNet (Sequential layers) squeeze classifier in
  _initialize_weights self;;
  mret self.

(** The table of [ghost_net] (lines 155-173). *)
Definition ghost_net_cfgs : list cfg_row := [
  mk_cfg 3 16 16 false 1;
  mk_cfg 3 48 24 false 2;
  mk_cfg 3 72 24 false 1;
  mk_cfg 5 72 40 true 2;
  mk_cfg 5 120 40 true 1;
  mk_cfg 3 240 80 false 2;
  mk_cfg 3 200 80 false 1;
  mk_cfg 3 184 80 false 1;
  mk_cfg 3 184 80 false 1;
  mk_cfg 3 480 112 true 1;
  mk_cfg 3 672 112 true 1;
  mk_cfg 5 672 160 true 2;
  mk_cfg 5 960 160 false 1;
  mk_cfg 5 960 160 true 1;
  mk_cfg 5 960 160 false 1;
  mk_cfg 5 960 160 true 1
].

Definition ghost_net `{Torch} (num_classes : Z) (width_mult : spec_float)
  : result GhostNet :=
  GhostNet__init__ ghost_net_cfgs num_classes width_mult.

(** The float [1.0], the default of [width_mult]. *)
Definition width_mult_1 : spec_float := S754_finite false 4503599627370496 (-52).


(** *** A small instance of the library, to run the constructors and the
    forward pass

    The constructors accept sizes that are not negative, with a positive
    number of groups that divides the channels.  Every convolution returns
    a map of ones with the requested number of channels (the spatial size
    is kept), normalisation returns its input, and a linear layer returns
    [3/2] everywhere. *)

Definition toy_Conv2d__init__ (i o k s pd g : Z) : result unit :=
  if decide (g <= 0) then Raise ValueError
  else if decide (i `mod` g <> 0 \/ o `mod` g <> 0) then Raise ValueError
  else if decide (i < 0 \/ o < 0 \/ k < 0) then Raise RuntimeError
  else Ok tt.

Definition toy_sizes (sizes : list Z) : result unit :=
  if decide (Forall (fun n => 0 <= n) sizes) then Ok tt
  else Raise RuntimeError.

Definition toy_Conv2d (p : path) (i o k s pd g : Z) (x : tensor)
  : result tensor :=
  match x with
  | T4 t =>
      Ok (T4 (mkT4 (batch t) (Z.to_nat o) (height t) (width t)
                (fun _ _ _ _ => 1%Q)))
  | T2 _ => Raise RuntimeError
  end.

Definition toy_BatchNorm2d (p : path) (n : Z) (x : tensor) : result tensor :=
  match x with
  | T4 _ => Ok x
  | T2 _ => Raise RuntimeError
  end.

Definition toy_BatchNorm1d (p : path) (n : Z) (x : tensor) : result tensor :=
  match x with
  | T2 _ => Ok x
  | T4 _ => Raise RuntimeError
  end.

Definition toy_Linear (p : path) (i o : Z) (b : bool) (x : tensor)
  : result tensor :=
  match x with
  | T2 t => Ok (T2 (mkT2 (rows t) (Z.to_nat o) (fun _ _ => (3 # 2)%Q)))
  | T4 _ => Raise RuntimeError
  end.

Definition toy_torch : Torch := {|
  Conv2d__init__ := toy_Conv2d__init__;
  BatchNorm2d__init__ n := toy_sizes [n];
  BatchNorm1d__init__ n := toy_sizes [n];
  Linear__init__ i o _ := toy_sizes [i; o];
  kaiming_normal_ _ _ _ _ _ _ := Ok tt;
  Conv2d_forward := toy_Conv2d;
  BatchNorm2d_forward := toy_BatchNorm2d;
  BatchNorm1d_forward := toy_BatchNorm1d;
  Linear_forward := toy_Linear
|}.

(** A batch of two 3-channel maps of size 2 x 2; entry [(i, j, k, l)] is
    [i + j - k]. *)
Definition toy_input : tensor :=
  T4 (mkT4 2 3 2 2 (fun i j k l =>
        inject_Z (Z.of_nat i + Z.of_nat j - Z.of_nat k))).

(** The value of a call that returned, [x] otherwise. *)
Definition returned (x : tensor) (r : result tensor) : tensor :=
  match r with
  | Ok y => y
  | Raise _ => x
  end.



Definition toy_se_layer : Module :=
  SELayer AdaptiveAvgPool2d_1
    (Sequential [Linear 3 0 true; ReLU; Linear 0 3 true]).

Definition toy_se_output : tensor :=
  returned toy_input (@forward toy_torch [] toy_se_layer toy_input).

(** ** [load_pretrained_weights] (ghostnet.py, lines 15-25)

    A state dictionary maps parameter names to tensors; of a tensor the
    loader's behaviour depends on the shape only, the entries are carried
    along. *)

Record Param := mkParam {
  shape : list nat;
  values : list Q
}.

Abbreviation state_dict := (gmap string Param).

Module nn.

(** [model.load_state_dict(d)] with the default [strict=True]: the keys of
    [d] must be the keys of the model, and every tensor must have the shape
    of the parameter it is copied into; otherwise [RuntimeError].  The
    model is given by its current state dictionary, the result is the new
    one. *)
Definition load_state_dict (model d : state_dict) : result state_dict :=
  if decide (dom d = dom model /\
             map_Forall (fun k param =>
               shape <$> d !! k = Some (shape param)) model)
  then Ok d
  else Raise RuntimeError.

End nn.

(** [pretrained_dict] is what [torch.load] read from the file; [model] is the
    live model, given by its state dictionary.  The result is the state of
    the model after the call. *)
Definition load_pretrained_weights (model pretrained_dict : state_dict)
  : result state_dict :=
  let model_dict := model in
  (* {k: v for k, v in pretrained_dict.items() if k in model_dict} *)
  let pretrained_dict :=
    filter (fun kv => kv.1 ∈ dom model_dict) pretrained_dict in
  (* model_dict.update(pretrained_dict) *)
  let model_dict := pretrained_dict ∪ model_dict in
  nn.load_state_dict model model_dict.

(** A model with the parameters ["w"] and ["b"], and a loaded mapping that
    has ["w"] and a key ["extra"] the model lacks. *)
Definition state_two_params : gmap string Param :=
  <["w"%string := mkParam [2%nat] [1%Q; 2%Q]]>
    (<["b"%string := mkParam [1%nat] [5%Q]]> ∅).

Definition loaded_two_params : gmap string Param :=
  <["w"%string := mkParam [2%nat] [7%Q; 8%Q]]>
    (<["extra"%string := mkParam [1%nat] [9%Q]]> ∅).

(** ** [CustomDataset] (FRAIL/data/dataset.py, lines 5-15)

    Texts are strings over the code points 0-255. *)

Module Text.

Definition LF : ascii := "010"%char.
Definition CR : ascii := "013"%char.

(** What a file opened with [open(path, "r")] delivers: the line endings
    CR LF and CR are read as LF. *)
Fixpoint universal_newlines (s : string) : string :=
  match s with
  | EmptyString => EmptyString
  | String c r =>
      if decide (c = CR) then
        match r with
        | String c' r' =>
            if decide (c' = LF) then String LF (universal_newlines r')
            else String LF (universal_newlines r)
        | EmptyString => String LF EmptyString
        end
      else String c (universal_newlines r)
  end.

(** [file.readlines()]: the text cut after every LF, terminators kept. *)
Fixpoint readlines (s : string) : list string :=
  match s with
  | EmptyString => []
  | String c r =>
      if decide (c = LF) then String c EmptyString :: readlines r
      else match readlines r with
           | [] => [String c EmptyString]
           | l :: ls => String c l :: ls
           end
  end.

(** [str.isspace] on one character. *)
Definition isspace (c : ascii) : bool :=
  let n := nat_of_ascii c in
  ((9 <=? n) && (n <=? 13) || (28 <=? n) && (n <=? 32)
   || (n =? 133) || (n =? 160))%nat.

(** [s.lstrip()] *)
Fixpoint lstrip (s : string) : string :=
  match s with
  | EmptyString => EmptyString
  | String c r => if isspace c then lstrip r else s
  end.

(** [s.rstrip()] *)
Fixpoint rstrip (s : string) : string :=
  match s with
  | EmptyString => EmptyString
  | String c r =>
      match rstrip r with
      | EmptyString => if isspace c then EmptyString else String c EmptyString
      | r' => String c r'
      end
  end.

(** [s.strip()]: whitespace is removed at both ends. *)
Definition strip (s : string) : string := rstrip (lstrip s).

(** The number of lines of a text: one per LF, and one more for a last
    line that has no LF. *)
Fixpoint line_count (s : string) : nat :=
  match s with
  | EmptyString => 0
  | String c EmptyString => 1
  | String c r => if decide (c = LF) then S (line_count r) else line_count r
  end.

(** Every character of [s] is whitespace. *)
Fixpoint all_space (s : string) : bool :=
  match s with
  | EmptyString => true
  | String c r => isspace c && all_space r
  end.

(** [s] begins, respectively ends, with a whitespace character. *)
Definition starts_with_space (s : string) : bool :=
  match s with
  | EmptyString => false
  | String c _ => isspace c
  end.

Fixpoint ends_with_space (s : string) : bool :=
  match s with
  | EmptyString => false
  | String c EmptyString => isspace c
  | String _ r => ends_with_space r
  end.

(** A line as [readlines] cuts it: not empty, and without LF except as its
    last character. *)
Fixpoint is_line (s : string) : bool :=
  match s with
  | EmptyString => false
  | String c EmptyString => true
  | String c r => (if decide (c = LF) then false else true) && is_line r
  end.

End Text.

Module Py_list.

(** [l[idx]]: a negative index counts from the end. *)
Definition getitem {A} (l : list A) (idx : Z) : result A :=
  let i := if decide (idx < 0) then idx + Z.of_nat (length l) else idx in
  if decide (i < 0) then Raise IndexError
  else match l !! Z.to_nat i with
       | Some a => Ok a
       | None => Raise IndexError
       end.

End Py_list.

Record CustomDataset := mkCustomDataset {
  data : list string
}.

(** [CustomDataset.__init__]; [file] is the content of the file at
    [file_path], decoded. *)
Definition CustomDataset__init__ (file : string) : CustomDataset :=
  let lines := Text.readlines (Text.universal_newlines file) in
  mkCustomDataset (Text.strip <$> lines).

Definition CustomDataset__len__ (self : CustomDataset) : nat :=
  length (data self).

Definition CustomDataset__getitem__ (self : CustomDataset) (idx : Z)
  : result string :=
  Py_list.getitem (data self) idx.

(** Two small files: one line with two leading blanks, and two lines of
    which the last has no line terminator. *)
Definition file_blank_blank_a : string :=
  String " " (String " " (String "a" (String Text.LF ""))).

Definition file_two_lines : string :=
  String "a" (String " " (String Text.CR (String Text.LF (String " " "b")))).

(** * Part I, continued: the rest of the code *)

From stdpp Require Import pretty.

Open Scope Z_scope.

(** ** Further inputs for the loader *)

(** The state of [state_two_params] after [loaded_two_params] was loaded, a
    second file that holds ["b"] only, and the state after both loads. *)
Definition state_after_first_load : gmap string Param :=
  <["w"%string := mkParam [2%nat] [7%Q; 8%Q]]>
    (<["b"%string := mkParam [1%nat] [5%Q]]> ∅).

Definition loaded_bias_only : gmap string Param :=
  <["b"%string := mkParam [1%nat] [6%Q]]> ∅.

Definition state_after_second_load : gmap string Param :=
  <["w"%string := mkParam [2%nat] [7%Q; 8%Q]]>
    (<["b"%string := mkParam [1%nat] [6%Q]]> ∅).

(** A file whose only key the model does not have, and one whose ["w"] has
    another shape. *)
Definition loaded_foreign_key : gmap string Param :=
  <["extra"%string := mkParam [1%nat] [9%Q]]> ∅.

Definition loaded_wrong_shape : gmap string Param :=
  <["w"%string := mkParam [3%nat] [7%Q; 8%Q; 9%Q]]> ∅.

(** ** Further notions for the line dataset *)

Module Lines.

(** The character [c] occurs in [s]. *)
Fixpoint occurs (c : ascii) (s : string) : bool :=
  match s with
  | EmptyString => false
  | String c' r => if decide (c' = c) then true else occurs c r
  end.

(** A sample that a file can carry on one line and give back unchanged: no
    line break inside, no whitespace at either end. *)
Definition clean (s : string) : bool :=
  negb (occurs Text.LF s) && negb (occurs Text.CR s)
  && negb (Text.starts_with_space s) && negb (Text.ends_with_space s).

(** The text of the file that holds one sample per line, each line ended
    by LF. *)
Fixpoint unlines (ls : list string) : string :=
  match ls with
  | [] => EmptyString
  | l :: ls => l +:+ String Text.LF (unlines ls)
  end.

End Lines.

(** ** The batch loop of dataset.py (lines 26-35)

    [dataloader] is the sequence of batches the [DataLoader] yields in one
    pass, and [str_batch] the text that [print] shows for a batch (the
    built-in [str] of the collated batch).  The result is the list of the
    lines printed.

    for batch_idx, batch in enumerate(dataloader):
        print(f"Batch {batch_idx + 1}: {batch}")
        if batch_idx == 4: break *)
Fixpoint print_batches (str_batch : list string -> string) (batch_idx : nat)
    (dataloader : list (list string)) : list string :=
  match dataloader with
  | [] => []
  | batch :: dataloader =>
      ("Batch " +:+ pretty (batch_idx + 1)%nat +:+ ": " +:+ str_batch batch)
      :: (if decide (batch_idx = 4%nat) then []
          else print_batches str_batch (S batch_idx) dataloader)
  end.

Definition print_first_batches (str_batch : list string -> string)
    (dataloader : list (list string)) : list string :=
  print_batches str_batch 0 dataloader.

(** Three samples, and the dataset they load back to. *)
Definition three_samples : list string := ["a b"; ""; "c"]%string.

(** ** [GhostNet.forward] (ghostnet.py, lines 139-144) *)

(** The loop of [nn.Sequential.forward], started at the child of index
    [i]; [forward] runs it from 0. *)
Fixpoint Sequential_from `{Torch} (p : path) (i : nat) (ms : list Module)
    (input : tensor) : result tensor :=
  match ms with
  | [] => Ok input
  | module :: ms =>
      input ← forward (p ++ [Idx i]) module input;
      Sequential_from p (S i) ms input
  end.

(** [x.size(0)] *)
Definition size0 (x : tensor) : nat :=
  match x with
  | T2 t => rows t
  | T4 t => batch t
  end.

(** [x.view(n, -1)]: the second dimension is what is left of the entries;
    it cannot be inferred when [n] is 0, nor when [n] does not divide the
    number of entries. *)
Definition view_rows (x : tensor) (n : nat) : result tensor :=
  if decide (n = 0%nat) then Raise RuntimeError
  else if decide ((torch.numel x mod n)%nat = 0%nat)
  then Ok (T2 (mkT2 n (torch.numel x / n)
                 (fun i j => torch.flat x (i * (torch.numel x / n) + j)%nat)))
  else Raise RuntimeError.

Definition GhostNet_forward `{Torch} (self : GhostNet) (x : tensor)
  : result tensor :=
  x ← forward [Attr "features"] (features self) x;
  x ← forward [Attr "squeeze"] (squeeze self) x;
  x ← view_rows x (size0 x);
  x ← forward [Attr "classifier"] (classifier self) x;
  mret x.

(** What the library guarantees about the shape [nn.BatchNorm1d] returns. *)
Class TorchShapes1d `{Torch} := {
  BatchNorm1d_shape p n x y :
    BatchNorm1d_forward p n x = Ok y ->
    exists x2 y2, x = T2 x2 /\ y = T2 y2 /\
      rows y2 = rows x2 /\ cols y2 = cols x2
}.

(** A module built by the constructor of [GhostBottleneck]. *)
Definition built_block `{Torch} (m : Module) : Prop :=
  exists inp hidden_dim oup kernel_size stride use_se,
    GhostBottleneck__init__ inp hidden_dim oup kernel_size stride use_se
      = Ok m.

(** A module that maps feature maps to feature maps of the same batch
    size, whenever it returns. *)
Definition keeps_batch `{Torch} (m : Module) : Prop :=
  forall p x out, forward p m x = Ok out ->
    exists x4 o, x = T4 x4 /\ out = T4 o /\ batch o = batch x4.

(** The stride of a row is one the block accepts. *)
Definition valid_stride (row : cfg_row) : Prop :=
  cfg_s row = 1 \/ cfg_s row = 2.

(** A table of two rows, the network built from it for ten classes, and
    the output of its forward pass on [toy_input]. *)
Definition toy_cfgs : list cfg_row :=
  [mk_cfg 3 16 16 true 1; mk_cfg 5 48 24 false 2].

Definition toy_net : GhostNet :=
  match @GhostNet__init__ toy_torch toy_cfgs 10 width_mult_1 with
  | Ok net => net
  | Raise _ => mkGhostNet (Sequential []) (Sequential []) (Sequential [])
  end.

Definition toy_net_output : tensor :=
  returned toy_input (@GhostNet_forward toy_torch toy_net toy_input).

(** A block with stride 2 from 3 to 8 channels, and its output. *)
Definition toy_block : Module :=
  match @GhostBottleneck__init__ toy_torch 3 12 8 3 2 true with
  | Ok block => block
  | Raise _ => Sequential []
  end.

Definition toy_block_output : tensor :=
  returned toy_input (@forward toy_torch [] toy_block toy_input).



(** The feature map inside [toy_input], and the one the squeeze-and-excite
    layer returns for it. *)
Definition toy_input4 : Tensor4 :=
  mkT4 2 3 2 2 (fun i j k l =>
    inject_Z (Z.of_nat i + Z.of_nat j - Z.of_nat k)).

Definition toy_se_output4 : Tensor4 :=
  match toy_se_output with
  | T4 t => t
  | T2 _ => toy_input4
  end.

(** Blocks built in a chain from the width [w] to the width [w']: each
    block takes the width the block before it returns, and every width
    returned is positive. *)
Inductive chained `{Torch} : Z -> list Module -> Z -> Prop :=
| chained_nil w : chained w [] w
| chained_cons inp hidden_dim oup kernel_size stride use_se blk blks w :
    1 <= oup ->
    GhostBottleneck__init__ inp hidden_dim oup kernel_size stride use_se
      = Ok blk ->
    chained oup blks w ->
    chained inp (blk :: blks) w.

(** A width multiplier and a row for which the width computations do not
    overflow: a binary64 number of magnitude up to [2^900], table entries
    of magnitude up to [2^64]; and a row whose kernel size is positive. *)
Definition moderate (width_mult : spec_float) : Prop :=
  Float.valid width_mult /\ Float.is_finite width_mult = true /\
  (- inject_Z (2 ^ 900) <= Float.to_Q width_mult)%Q /\
  (Float.to_Q width_mult <= inject_Z (2 ^ 900))%Q.

Definition bounded_row (row : cfg_row) : Prop :=
  Z.abs (cfg_c row) <= 2 ^ 64 /\ Z.abs (cfg_exp_size row) <= 2 ^ 64.

Definition buildable (row : cfg_row) : Prop :=
  valid_stride row /\ 0 < cfg_k row /\ bounded_row row.

(** The value [q] clamped to the interval from [lo] to [hi], as a
    relation: [lo] below the interval, [hi] above it, [q] itself inside. *)
Definition clamped (lo hi q s : Q) : Prop :=
  ((q < lo)%Q -> s = lo) /\
  ((hi < q)%Q -> s = hi) /\
  ((lo <= q)%Q -> (q <= hi)%Q -> s = q).

(** What the feature extractor of [toy_net] returns for [toy_input]. *)
Definition toy_features_output : tensor :=
  returned toy_input (@forward toy_torch [] (features toy_net) toy_input).

(** ** Proof automation *)

(** Linear arithmetic over [Q] where halves occur. *)
Ltac half_lra :=
  unfold Qdiv in *; change (/ 2)%Q with (1 # 2)%Q in *; lra.

(** The rows of a concrete table, one after the other. *)
Ltac table_rows :=
  repeat (apply List.Forall_cons;
          [unfold buildable, valid_stride, bounded_row; cbn; lia|]);
  apply List.Forall_nil.

(** * Part II: properties *)

(** ** Rounding to binary64

    What is used of [SpecFloat]'s operations: they round the exact result
    to a float that is on the same side of every binary64 number. *)

Section Shift.

Lemma digits2_pos_bounds (p : positive) :
  2 ^ (Z.pos (digits2_pos p) - 1) <= Z.pos p < 2 ^ Z.pos (digits2_pos p).
Proof.
  induction p as [p IH|p IH|]; cbn [digits2_pos].
  - rewrite Pos2Z.inj_succ.
    replace (Z.succ (Z.pos (digits2_pos p)) - 1) with (Z.succ (Z.pos (digits2_pos p) - 1)) by lia.
    rewrite !Z.pow_succ_r by lia. lia.
  - rewrite Pos2Z.inj_succ.
    replace (Z.succ (Z.pos (digits2_pos p)) - 1) with (Z.succ (Z.pos (digits2_pos p) - 1)) by lia.
    rewrite !Z.pow_succ_r by lia. lia.
  - cbn. lia.
Qed.

Lemma iter_pos_nat {A} (f : A -> A) (p : positive) (x : A) :
  SpecFloat.iter_pos f p x = Nat.iter (Pos.to_nat p) f x.
Proof.
  revert x. induction p as [p IH|p IH|]; intros x; cbn [SpecFloat.iter_pos].
  - rewrite !IH, Pos2Nat.inj_xI, <- Nat.iter_add, <- Nat.iter_succ_r.
    f_equal. lia.
  - rewrite !IH, Pos2Nat.inj_xO, <- Nat.iter_add. f_equal. lia.
  - reflexivity.
Qed.

Lemma shr_1_nonneg m r s :
  0 <= m ->
  shr_1 {| shr_m := m; shr_r := r; shr_s := s |} =
    {| shr_m := m `div` 2; shr_r := Z.odd m; shr_s := r || s |}.
Proof.
  intros Hm. destruct m as [|[p|p|]|p]; try lia; cbn [shr_1].
  - reflexivity.
  - f_equal. rewrite Pos2Z.inj_xI.
    rewrite Z.mul_comm, Z.add_comm. rewrite Z.div_add by lia. reflexivity.
  - f_equal. rewrite Pos2Z.inj_xO, Z.mul_comm, Z.div_mul by lia. reflexivity.
  - reflexivity.
Qed.

(** [k] right shifts, with the bits shifted out recorded. *)
Lemma iter_shr_1 (m : Z) (k : nat) :
  0 <= m ->
  let rec := Nat.iter k shr_1 {| shr_m := m; shr_r := false; shr_s := false |} in
  shr_m rec = m `div` 2 ^ Z.of_nat k /\
  (shr_r rec || shr_s rec = false <-> m `mod` 2 ^ Z.of_nat k = 0).
Proof.
  intros Hm. induction k as [|k IH]; cbv zeta.
  - cbn. rewrite Z.div_1_r, Z.mod_1_r. done.
  - cbv zeta in IH. rewrite Nat.iter_succ.
    destruct (Nat.iter k shr_1 _) as [mk r s]. cbn [shr_m shr_r shr_s] in IH.
    destruct IH as [-> IH].
    rewrite shr_1_nonneg by (apply Z.div_pos; lia).
    cbn [shr_m shr_r shr_s].
    rewrite Nat2Z.inj_succ, Z.pow_succ_r by lia.
    assert (Hp : 0 < 2 ^ Z.of_nat k) by (apply Z.pow_pos_nonneg; lia).
    split.
    + rewrite (Z.mul_comm 2), Z.div_div by lia. done.
    + pose proof (Z.div_mod m (2 ^ Z.of_nat k) ltac:(lia)) as Hdm.
      pose proof (Z.mod_pos_bound m (2 ^ Z.of_nat k) Hp) as Hb.
      set (q := m `div` 2 ^ Z.of_nat k) in *.
      set (t := m `mod` 2 ^ Z.of_nat k) in *.
      pose proof (Z.div_mod m (2 * 2 ^ Z.of_nat k) ltac:(lia)) as Hdm2.
      pose proof (Z.mod_pos_bound m (2 * 2 ^ Z.of_nat k) ltac:(lia)) as Hb2.
      rewrite orb_false_iff, IH.
      rewrite <- Z.negb_even, negb_false_iff, Z.even_spec.
      split.
      * intros [[c Hc] Ht].
        symmetry. apply Z.mod_unique with (q := c); [lia|]. nia.
      * intros H0. rewrite H0 in Hdm2.
        assert (Ht : t = 0).
        { assert (m = 2 ^ Z.of_nat k * (2 * (m `div` (2 * 2 ^ Z.of_nat k)))) by lia.
          assert (m `mod` 2 ^ Z.of_nat k = 0).
          { rewrite H. rewrite Z.mul_comm. apply Z.mod_mul. lia. }
          done. }
        split; [|done].
        exists (m `div` (2 * 2 ^ Z.of_nat k)). nia.
Qed.

(** The mantissa after rounding lies between the quotient rounded down and up. *)
Lemma round_shift_bracket (m : Z) (k : nat) :
  0 <= m ->
  let rec := Nat.iter k shr_1 {| shr_m := m; shr_r := false; shr_s := false |} in
  let M := round_nearest_even (shr_m rec) (loc_of_shr_record rec) in
  (M - 1) * 2 ^ Z.of_nat k < m < (M + 1) * 2 ^ Z.of_nat k /\ 0 <= M.
Proof.
  intros Hm. cbv zeta.
  destruct (iter_shr_1 m k Hm) as [Hq Hex]. cbv zeta in Hq, Hex.
  destruct (Nat.iter k shr_1 _) as [mk r s]. cbn [shr_m shr_r shr_s] in *.
  subst mk.
  assert (Hp : 0 < 2 ^ Z.of_nat k) by (apply Z.pow_pos_nonneg; lia).
  pose proof (Z.div_mod m (2 ^ Z.of_nat k) ltac:(lia)) as Hdm.
  pose proof (Z.mod_pos_bound m (2 ^ Z.of_nat k) Hp) as Hb.
  assert (0 <= m `div` 2 ^ Z.of_nat k) by (apply Z.div_pos; lia).
  set (q := m `div` 2 ^ Z.of_nat k) in *.
  set (t := m `mod` 2 ^ Z.of_nat k) in *.
  assert (Hcases : (r || s = false /\ t = 0) \/ (r || s = true /\ 0 < t)).
  { destruct (r || s) eqn:E.
    - right. split; [done|]. destruct (decide (t = 0)) as [Ht|]; [|lia].
      apply Hex in Ht. done.
    - left. split; [done|]. by apply Hex. }
  destruct Hcases as [[Hrs Ht]|[Hrs Ht]].
  - apply orb_false_iff in Hrs as [-> ->]. cbn. nia.
  - destruct r, s; try done; cbn [loc_of_shr_record round_nearest_even];
      try destruct (Z.even q); nia.
Qed.

End Shift.
Section Rounding.

Lemma fexp_eq e : SpecFloat.fexp Float.prec Float.emax e = Z.max (e - 53) (-1074).
Proof. reflexivity. Qed.

Lemma pow2_lt_inv a b : 0 <= b -> 2 ^ a < 2 ^ b -> a < b.
Proof. intros Hb H. apply Z.pow_lt_mono_r_iff in H; lia. Qed.

Lemma pow2_le_lt_digits (x : Z) a b : 0 <= b -> 2 ^ a <= x -> x < 2 ^ b -> a < b.
Proof. intros Hb H1 H2. apply (pow2_lt_inv a b Hb). lia. Qed.

(** The digits of a positive number below [2^b]. *)
Lemma digits2_pos_le (p : positive) b :
  0 <= b -> Z.pos p < 2 ^ b -> Z.pos (digits2_pos p) <= b.
Proof.
  intros Hb Hp. pose proof (digits2_pos_bounds p) as [Hlo _].
  assert (Z.pos (digits2_pos p) - 1 < b); [|lia].
  eapply pow2_le_lt_digits; eauto.
Qed.

Lemma digits2_pos_ge (p : positive) b :
  2 ^ b <= Z.pos p -> b < Z.pos (digits2_pos p).
Proof.
  intros Hp. pose proof (digits2_pos_bounds p) as [_ Hhi].
  eapply pow2_le_lt_digits; eauto. lia.
Qed.

Lemma shr_exact_nonpos m e n :
  n <= 0 ->
  SpecFloat.shr {| shr_m := m; shr_r := false; shr_s := false |} e n =
    ({| shr_m := m; shr_r := false; shr_s := false |}, e).
Proof. intros Hn. destruct n; try lia; reflexivity. Qed.

Lemma shr_exact_pos m e n :
  0 < n ->
  SpecFloat.shr {| shr_m := m; shr_r := false; shr_s := false |} e n =
    (Nat.iter (Z.to_nat n) shr_1
       {| shr_m := m; shr_r := false; shr_s := false |}, e + n).
Proof.
  intros Hn. destruct n as [|p|p]; try lia. cbn [SpecFloat.shr].
  by rewrite iter_pos_nat.
Qed.

(** The second pass of [binary_round_aux]: renormalisation. *)
Lemma renormalize s M f :
  0 <= M <= 2 ^ 53 -> -1074 <= f ->
  (let '(mrs, e) := shr_fexp Float.prec Float.emax M f loc_Exact in
   match shr_m mrs with
   | Z0 => S754_zero s
   | Z.pos m =>
       if e <=? Float.emax - Float.prec then S754_finite s m e
       else S754_infinity s
   | Z.neg _ => S754_nan
   end) = Float.finalize s M f.
Proof.
  intros HM Hf. unfold shr_fexp, Float.finalize. rewrite fexp_eq.
  cbn [shr_record_of_loc].
  destruct (Z.ltb_spec M (2 ^ 53)) as [Hlt|Hge].
  - assert (Hd : Zdigits2 M <= 53).
    { destruct M as [|p|p]; cbn [Zdigits2]; try lia.
      by apply digits2_pos_le. }
    rewrite shr_exact_nonpos by lia. cbn [shr_m].
    destruct M; reflexivity.
  - assert (M = 2 ^ 53) as -> by lia.
    change (Zdigits2 (2 ^ 53)) with 54.
    replace (Z.max (54 + f - 53) (-1074) - f) with 1 by lia.
    cbn. reflexivity.
Qed.

(** What [binary_round_aux] returns for a mantissa that is not on a
    grid coarser than the format's. *)
Lemma binary_round_aux_spec s (m : positive) e :
  let f := SpecFloat.fexp Float.prec Float.emax (Z.pos (digits2_pos m) + e) in
  e <= f ->
  exists M,
    binary_round_aux Float.prec Float.emax s (Z.pos m) e loc_Exact
      = Float.finalize s M f /\
    0 <= M <= 2 ^ 53 /\
    (M - 1) * 2 ^ (f - e) < Z.pos m < (M + 1) * 2 ^ (f - e) /\
    (-1074 < f -> 2 ^ 52 <= M).
Proof.
  intros f Hef. unfold binary_round_aux.
  pose proof (digits2_pos_bounds m) as [Hdlo Hdhi].
  set (d := Z.pos (digits2_pos m)) in *.
  assert (Hf : f = Z.max (d + e - 53) (-1074)) by (subst f; apply fexp_eq).
  unfold shr_fexp at 1. cbn [Zdigits2 shr_record_of_loc]. fold d. fold f.
  destruct (decide (f - e = 0)) as [H0|Hpos].
  - (* no shift *)
    rewrite shr_exact_nonpos by lia. cbn [shr_m loc_of_shr_record round_nearest_even].
    assert (Hd53 : d <= 53) by lia.
    assert (Hm53 : Z.pos m < 2 ^ 53).
    { eapply Z.lt_le_trans; [exact Hdhi|]. apply Z.pow_le_mono_r; lia. }
    exists (Z.pos m). split.
    { replace f with e by lia. apply renormalize; lia. }
    split; [lia|]. rewrite H0. split; [lia|].
    intros Hn. assert (d = 53) as Hd by lia. rewrite Hd in Hdlo. exact Hdlo.
  - (* a shift by [f - e] digits *)
    rewrite shr_exact_pos by lia.
    pose proof (round_shift_bracket (Z.pos m) (Z.to_nat (f - e)) ltac:(lia))
      as Hbr.
    cbv zeta in Hbr. rewrite Z2Nat.id in Hbr by lia.
    set (M := round_nearest_even _ _) in *.
    destruct Hbr as [Hbr HM0].
    assert (Hp : 0 < 2 ^ (f - e)) by (apply Z.pow_pos_nonneg; lia).
    assert (HM53 : M <= 2 ^ 53).
    { (* the quotient has at most 53 digits *)
      assert (Hq : Z.pos m < 2 ^ 53 * 2 ^ (f - e)).
      { rewrite <- Z.pow_add_r by lia.
        eapply Z.lt_le_trans; [exact Hdhi|]. apply Z.pow_le_mono_r; lia. }
      nia. }
    exists M. replace (e + (f - e)) with f by lia.
    split; [apply renormalize; lia|]. split; [lia|]. split; [exact Hbr|].
    intros Hn.
    assert (Hfe : f - e = d - 53) by lia.
    assert (Hq : 2 ^ 52 * 2 ^ (f - e) <= Z.pos m).
    { rewrite <- Z.pow_add_r by lia.
      replace (52 + (f - e)) with (d - 1) by lia. exact Hdlo. }
    nia.
Qed.

End Rounding.
Section Dyadic.

Lemma pow2_pos e : (0 < 2 ^ e)%Q.
Proof. by apply Qpower_0_lt. Qed.

Lemma pow2_add a b : (2 ^ (a + b) == 2 ^ a * 2 ^ b)%Q.
Proof. by apply Qpower_plus. Qed.

Lemma pow2_Z n : 0 <= n -> (2 ^ n == inject_Z (2 ^ n))%Q.
Proof. intros Hn. by rewrite Zpower_Qpower. Qed.

Lemma pow2_le a b : a <= b -> (2 ^ a <= 2 ^ b)%Q.
Proof. intros Hab. by apply Qpower_le_compat_l. Qed.

Lemma dy_le_iff a b e : (Float.dy a e <= Float.dy b e)%Q <-> a <= b.
Proof.
  unfold Float.dy. pose proof (pow2_pos e) as Hp. rewrite Zle_Qle.
  split; intros H.
  - apply Qmult_le_r in H; done.
  - apply Qmult_le_r; done.
Qed.

Lemma dy_lt_iff a b e : (Float.dy a e < Float.dy b e)%Q <-> a < b.
Proof.
  unfold Float.dy. pose proof (pow2_pos e) as Hp. rewrite Zlt_Qlt.
  split; intros H.
  - apply Qmult_lt_r in H; done.
  - apply Qmult_lt_r; done.
Qed.

Lemma dy_shift a e n : 0 <= n -> (Float.dy (a * 2 ^ n) e == Float.dy a (e + n))%Q.
Proof.
  intros Hn. unfold Float.dy.
  rewrite inject_Z_mult, pow2_add, <- pow2_Z by done. ring.
Qed.

Lemma dy_pow2 a e : 0 <= a -> (Float.dy (2 ^ a) e == 2 ^ (a + e))%Q.
Proof. intros Ha. unfold Float.dy. by rewrite pow2_add, <- pow2_Z. Qed.

Lemma dy_0 e : (Float.dy 0 e == 0)%Q.
Proof. unfold Float.dy. ring. Qed.

Lemma dy_opp a e : (Float.dy (- a) e == - Float.dy a e)%Q.
Proof. unfold Float.dy. rewrite inject_Z_opp. ring. Qed.

Lemma dy_pos a e : 0 < a -> (0 < Float.dy a e)%Q.
Proof. intros Ha. rewrite <- (dy_0 e). by apply dy_lt_iff. Qed.

Lemma dy_sign a e : (0 < Float.dy a e)%Q <-> 0 < a.
Proof. rewrite <- (dy_0 e). apply dy_lt_iff. Qed.

(** Refining the grid of a dyadic number. *)
Lemma dy_refine k e f : f <= e -> (Float.dy k e == Float.dy (k * 2 ^ (e - f)) f)%Q.
Proof.
  intros Hfe. rewrite dy_shift by lia. by replace (f + (e - f)) with e by lia.
Qed.

Lemma dy_pow2_le a e b f : 0 <= a -> 0 <= b -> a + e <= b + f ->
  (Float.dy (2 ^ a) e <= Float.dy (2 ^ b) f)%Q.
Proof. intros Ha Hb Hle. rewrite !dy_pow2 by done. by apply pow2_le. Qed.

End Dyadic.

Section Finalize.

Lemma to_Q_fin s M f :
  0 <= M -> Float.is_finite (Float.fin s M f) = true ->
  (Float.to_Q (Float.fin s M f) == Float.dy (cond_Zopp s M) f)%Q.
Proof.
  intros HM. unfold Float.fin. destruct M as [|p|p]; try lia.
  - intros _. change (Float.to_Q (S754_zero s)) with 0%Q.
    destruct s; cbn [cond_Zopp]; by rewrite dy_0.
  - destruct (f <=? 971); [|discriminate]. intros _. reflexivity.
Qed.

(** Rounding a positive number: the result is not above a binary64 number
    that the number is not above. *)
Lemma finalize_le x M f k e :
  Float.rounds_to x M f -> 0 < k < 2 ^ 53 -> -1074 <= e <= 971 ->
  (x <= Float.dy k e)%Q ->
  Float.is_finite (Float.finalize false M f) = true /\
  (Float.to_Q (Float.finalize false M f) <= Float.dy k e)%Q.
Proof.
  intros (Hf & Hx0 & Hx53 & Hnorm & HM0 & Hlo & Hhi) Hk He Hxy.
  assert (Hfe : f <= e).
  { destruct (decide (f <= e)) as [|Hn]; [done|]. exfalso.
    specialize (Hnorm ltac:(lia)).
    assert (H1 : (Float.dy k e < Float.dy (2 ^ 53) e)%Q) by (apply dy_lt_iff; lia).
    assert (H2 : (Float.dy (2 ^ 53) e <= Float.dy (2 ^ 52) f)%Q)
      by (apply dy_pow2_le; lia).
    lra. }
  rewrite (dy_refine k e f Hfe) in Hxy |- *.
  set (j := k * 2 ^ (e - f)) in *.
  assert (Hp : 0 < 2 ^ (e - f)) by (apply Z.pow_pos_nonneg; lia).
  assert (HMj : M <= j).
  { assert (H : (Float.dy (M - 1) f < Float.dy j f)%Q) by lra.
    apply dy_lt_iff in H. lia. }
  assert (HM53 : M <= 2 ^ 53).
  { assert (H : (Float.dy (M - 1) f < Float.dy (2 ^ 53) f)%Q) by lra.
    apply dy_lt_iff in H. lia. }
  unfold Float.finalize. destruct (Z.ltb_spec M (2 ^ 53)) as [Hlt|Hge].
  - unfold Float.fin. destruct M as [|p|p]; try lia.
    + split; [reflexivity|]. change (Float.to_Q (Float.fin false 0 f)) with 0%Q.
      apply Qlt_le_weak, dy_pos. nia.
    + rewrite (proj2 (Z.leb_le f 971)) by lia. cbn [Float.is_finite Float.to_Q cond_Zopp].
      split; [done|]. by apply dy_le_iff.
  - assert (M = 2 ^ 53) as -> by lia.
    assert (Hef : 1 <= e - f).
    { destruct (decide (e - f = 0)) as [H0|]; [|lia].
      subst j. rewrite H0 in HMj. lia. }
    change (Float.fin false (2 ^ 52) (f + 1))
      with (if f + 1 <=? 971 then S754_finite false (Z.to_pos (2 ^ 52)) (f + 1)
            else S754_infinity false).
    rewrite (proj2 (Z.leb_le (f + 1) 971)) by lia.
    cbn [Float.is_finite Float.to_Q cond_Zopp]. split; [done|].
    change (Z.pos (Z.to_pos (2 ^ 52))) with (2 ^ 52).
    rewrite <- (dy_shift (2 ^ 52) f 1) by lia.
    apply dy_le_iff. change (2 ^ 52 * 2 ^ 1) with (2 ^ 53). lia.
Qed.

(** ... and the result is not below a binary64 number that the number is
    not below. *)
Lemma finalize_ge x M f k e :
  Float.rounds_to x M f -> 0 < k < 2 ^ 53 -> -1074 <= e ->
  (Float.dy k e <= x)%Q ->
  Float.ge_Q (Float.finalize false M f) (Float.dy k e).
Proof.
  intros (Hf & Hx0 & Hx53 & Hnorm & HM0 & Hlo & Hhi) Hk He Hxy.
  assert (HM53 : M <= 2 ^ 53).
  { assert (H : (Float.dy (M - 1) f < Float.dy (2 ^ 53) f)%Q) by lra.
    apply dy_lt_iff in H. lia. }
  (* the value of the result, if it is finite, is [M * 2^f] *)
  assert (Hval : forall y, (y <= Float.dy M f)%Q -> 0 < M ->
                   Float.ge_Q (Float.finalize false M f) y).
  { intros y Hy HMpos. unfold Float.finalize.
    destruct (Z.ltb_spec M (2 ^ 53)) as [Hlt|Hge].
    - unfold Float.fin. destruct M as [|p|p]; try lia.
      destruct (f <=? 971); cbn; done.
    - assert (M = 2 ^ 53) as -> by lia.
      change (Float.fin false (2 ^ 52) (f + 1))
        with (if f + 1 <=? 971
              then S754_finite false (Z.to_pos (2 ^ 52)) (f + 1)
              else S754_infinity false).
      destruct (f + 1 <=? 971); cbn [Float.ge_Q Float.to_Q cond_Zopp]; [|done].
      change (Z.pos (Z.to_pos (2 ^ 52))) with (2 ^ 52).
      rewrite <- (dy_shift (2 ^ 52) f 1) by lia.
      change (2 ^ 52 * 2 ^ 1) with (2 ^ 53). done. }
  destruct (decide (f <= e)) as [Hfe|Hfe].
  - pose proof (dy_refine k e f Hfe) as Hj. rewrite Hj in Hxy.
    set (j := k * 2 ^ (e - f)) in *.
    assert (Hp : 0 < 2 ^ (e - f)) by (apply Z.pow_pos_nonneg; lia).
    assert (HjM : j <= M).
    { assert (H : (Float.dy j f < Float.dy (M + 1) f)%Q) by lra.
      apply dy_lt_iff in H. lia. }
    apply Hval; [rewrite Hj; by apply dy_le_iff | nia].
  - specialize (Hnorm ltac:(lia)).
    assert (HM52 : 2 ^ 52 <= M).
    { assert (H : (Float.dy (2 ^ 52) f < Float.dy (M + 1) f)%Q) by lra.
      apply dy_lt_iff in H. lia. }
    apply Hval; [|lia].
    assert (H1 : (Float.dy k e <= Float.dy (2 ^ 53) e)%Q) by (apply dy_le_iff; lia).
    assert (H2 : (Float.dy (2 ^ 53) e <= Float.dy (2 ^ 52) f)%Q)
      by (apply dy_pow2_le; lia).
    assert (H3 : (Float.dy (2 ^ 52) f <= Float.dy M f)%Q) by (by apply dy_le_iff).
    lra.
Qed.

End Finalize.
Section Rounded.

#[global] Instance le_Q_proper : Proper (eq ==> Qeq ==> iff) Float.le_Q.
Proof.
  intros f ? <- q q' Hq. destruct f; cbn [Float.le_Q]; try done; by rewrite Hq.
Qed.

#[global] Instance ge_Q_proper : Proper (eq ==> Qeq ==> iff) Float.ge_Q.
Proof.
  intros f ? <- q q' Hq. destruct f; cbn [Float.ge_Q]; try done; by rewrite Hq.
Qed.

#[global] Instance fits_proper : Proper (Qeq ==> iff) Float.fits.
Proof.
  intros q q' Hq. unfold Float.fits.
  split; intros (k & e & Hk & He & H); exists k, e;
    (split; [done|]); (split; [done|]); by rewrite <- H.
Qed.

#[global] Instance rounded_proper : Proper (Qeq ==> eq ==> iff) Float.rounded.
Proof.
  intros q q' Hq f ? <-. unfold Float.rounded.
  split; intros [Hle Hge]; split; intros y Hy Hqy.
  - apply Hle; [done|]. by rewrite Hq.
  - apply Hge; [done|]. by rewrite Hq.
  - apply Hle; [done|]. by rewrite <- Hq.
  - apply Hge; [done|]. by rewrite <- Hq.
Qed.

Lemma fits_opp q : Float.fits q -> Float.fits (- q).
Proof.
  intros (k & e & Hk & He & H). exists (- k), e.
  split; [lia|]. split; [done|]. by rewrite H, dy_opp.
Qed.

Lemma fits_dy k e : Z.abs k < 2 ^ 53 -> -1074 <= e <= 971 -> Float.fits (Float.dy k e).
Proof. intros Hk He. by exists k, e. Qed.

Lemma fits_Z z : Z.abs z < 2 ^ 53 -> Float.fits (inject_Z z).
Proof.
  intros Hz. exists z, 0. split; [done|]. split; [lia|].
  unfold Float.dy. change (2 ^ 0)%Q with 1%Q. ring.
Qed.

Lemma to_Q_opp f : (Float.to_Q (SFopp f) == - Float.to_Q f)%Q.
Proof.
  destruct f as [s|s| |s m e]; cbn [SFopp Float.to_Q]; try ring.
  destruct s; cbn [negb cond_Zopp]; rewrite <- dy_opp; reflexivity.
Qed.

Lemma le_Q_opp f q : Float.ge_Q f (- q) -> Float.le_Q (SFopp f) q.
Proof.
  destruct f as [s|s| |s m e]; cbn [SFopp Float.le_Q Float.ge_Q]; try done.
  - change (Float.to_Q (S754_zero _)) with 0%Q. change (Float.to_Q (S754_zero _)) with 0%Q. lra.
  - intros ->. done.
  - pose proof (to_Q_opp (S754_finite s m e)) as H. cbn [SFopp] in H.
    rewrite H. lra.
Qed.

Lemma ge_Q_opp f q : Float.le_Q f (- q) -> Float.ge_Q (SFopp f) q.
Proof.
  destruct f as [s|s| |s m e]; cbn [SFopp Float.le_Q Float.ge_Q]; try done.
  - change (Float.to_Q (S754_zero _)) with 0%Q. change (Float.to_Q (S754_zero _)) with 0%Q. lra.
  - intros ->. done.
  - pose proof (to_Q_opp (S754_finite s m e)) as H. cbn [SFopp] in H.
    rewrite H. lra.
Qed.

Lemma finalize_opp M f : Float.finalize true M f = SFopp (Float.finalize false M f).
Proof.
  unfold Float.finalize, Float.fin. destruct (M <? 2 ^ 53).
  - destruct M; try done. by destruct (f <=? 971).
  - change (2 ^ 52) with (Z.pos (Z.to_pos (2 ^ 52))). cbv iota.
    by destruct (f + 1 <=? 971).
Qed.

(** The result of rounding a positive number is not negative. *)
Lemma finalize_nonneg M f : 0 <= M -> Float.ge_Q (Float.finalize false M f) 0.
Proof.
  intros HM. unfold Float.finalize, Float.fin. destruct (M <? 2 ^ 53).
  - destruct M as [|p|p]; try lia; cbn [Float.ge_Q Float.to_Q]; [lra|].
    destruct (f <=? 971); cbn [Float.ge_Q Float.to_Q cond_Zopp]; [|done].
    apply Qlt_le_weak, dy_pos. lia.
  - change (2 ^ 52) with (Z.pos (Z.to_pos (2 ^ 52))). cbv iota.
    destruct (f + 1 <=? 971); cbn [Float.ge_Q Float.to_Q cond_Zopp]; [|done].
    apply Qlt_le_weak, dy_pos. lia.
Qed.

Lemma ge_Q_mono f q q' : (q' <= q)%Q -> Float.ge_Q f q -> Float.ge_Q f q'.
Proof. intros Hq. destruct f; cbn [Float.ge_Q]; try done; lra. Qed.

Lemma le_Q_mono f q q' : (q <= q')%Q -> Float.le_Q f q -> Float.le_Q f q'.
Proof. intros Hq. destruct f; cbn [Float.le_Q]; try done; lra. Qed.

Lemma rounded_finalize_pos x M f :
  Float.rounds_to x M f -> Float.rounded x (Float.finalize false M f).
Proof.
  intros Hr. pose proof Hr as (Hf & Hx0 & _ & _ & HM0 & _).
  split; intros y (k & e & Hk & He & Hy) Hxy; rewrite Hy in Hxy |- *.
  - assert (0 < k).
    { apply (dy_sign k e). lra. }
    destruct (finalize_le x M f k e Hr ltac:(lia) He Hxy) as [Hfin Hle].
    destruct (Float.finalize false M f); try done.
  - destruct (decide (0 < k)) as [Hkpos|Hkneg].
    + apply (finalize_ge x M f k e Hr); [lia|lia|done].
    + apply (ge_Q_mono _ 0); [|by apply finalize_nonneg].
      rewrite <- (dy_0 e). apply dy_le_iff. lia.
Qed.

Lemma rounded_opp q R : Float.rounded q R -> Float.rounded (- q) (SFopp R).
Proof.
  intros [Hle Hge]. split; intros y Hy Hqy.
  - apply le_Q_opp, Hge; [by apply fits_opp | lra].
  - apply ge_Q_opp, Hle; [by apply fits_opp | lra].
Qed.

Lemma rounded_finalize (s : bool) x M f :
  Float.rounds_to x M f ->
  Float.rounded (if s then - x else x)%Q (Float.finalize s M f).
Proof.
  intros Hr. destruct s.
  - rewrite finalize_opp. by apply rounded_opp, rounded_finalize_pos.
  - by apply rounded_finalize_pos.
Qed.

(** A finite number is a rounding of its value. *)
Lemma rounded_exact R : Float.is_finite R = true -> Float.rounded (Float.to_Q R) R.
Proof. intros HR. split; intros y _ Hy; destruct R; done. Qed.

(** What a rounding of a number between two binary64 numbers is. *)
Lemma rounded_between q R a b :
  Float.rounded q R -> Float.fits a -> Float.fits b -> (a <= q)%Q -> (q <= b)%Q ->
  Float.is_finite R = true /\ (a <= Float.to_Q R)%Q /\ (Float.to_Q R <= b)%Q.
Proof.
  intros [Hle Hge] Ha Hb Haq Hqb.
  specialize (Hle b Hb Hqb). specialize (Hge a Ha Haq).
  destruct R as [s|s| |s m e]; cbn [Float.le_Q Float.ge_Q] in *; try done.
  congruence.
Qed.

(** A binary64 number is rounded to itself. *)
Lemma rounded_fits q R :
  Float.rounded q R -> Float.fits q -> Float.is_finite R = true /\ (Float.to_Q R == q)%Q.
Proof.
  intros HR Hq.
  destruct (rounded_between q R q q HR Hq Hq) as (Hfin & H1 & H2);
    [apply Qle_refl..|].
  split; [done|]. by apply Qle_antisym.
Qed.

End Rounded.
Section Operations.

(** The facts [binary_round_aux_spec] gives, on rationals. *)
Lemma rounds_to_intro (m : positive) e M :
  let f := SpecFloat.fexp Float.prec Float.emax (Z.pos (digits2_pos m) + e) in
  e <= f -> 0 <= M ->
  (M - 1) * 2 ^ (f - e) < Z.pos m < (M + 1) * 2 ^ (f - e) ->
  Float.rounds_to (Float.dy (Z.pos m) e) M f.
Proof.
  intros f Hef HM [Hlo Hhi].
  pose proof (digits2_pos_bounds m) as [Hdlo Hdhi].
  set (d := Z.pos (digits2_pos m)) in *.
  assert (Hf : f = Z.max (d + e - 53) (-1074)) by (subst f; apply fexp_eq).
  assert (Hd : 0 < d) by (subst d; lia).
  split; [lia|]. split; [by apply dy_pos|]. split.
  { eapply Qlt_le_trans; [apply dy_lt_iff, Hdhi|].
    apply dy_pow2_le; lia. }
  split.
  { intros Hn. eapply Qle_trans; [|apply dy_le_iff, Hdlo].
    apply dy_pow2_le; lia. }
  split; [done|].
  rewrite (dy_refine (M - 1) f e), (dy_refine (M + 1) f e) by done.
  split; by apply dy_lt_iff.
Qed.

Lemma binary_round_aux_rounded s (m : positive) e :
  let f := SpecFloat.fexp Float.prec Float.emax (Z.pos (digits2_pos m) + e) in
  e <= f ->
  exists M,
    binary_round_aux Float.prec Float.emax s (Z.pos m) e loc_Exact
      = Float.finalize s M f /\
    Float.rounds_to (Float.dy (Z.pos m) e) M f /\ (-1074 < f -> 2 ^ 52 <= M) /\
    M <= 2 ^ 53.
Proof.
  intros f Hef.
  destruct (binary_round_aux_spec s m e Hef) as (M & HR & HM & Hbr & Hn).
  exists M. split; [done|]. split; [|split; [done|lia]].
  apply rounds_to_intro; [done|lia|done].
Qed.

Lemma Pos_iter_xO (m d : positive) :
  Z.pos (Pos.iter xO m d) = Z.pos m * 2 ^ Z.pos d /\
  Z.pos (digits2_pos (Pos.iter xO m d)) = Z.pos (digits2_pos m) + Z.pos d.
Proof.
  induction d as [|d IH] using Pos.peano_ind.
  - cbn [Pos.iter digits2_pos]. rewrite Pos2Z.inj_succ. lia.
  - rewrite Pos.iter_succ. cbn [digits2_pos].
    rewrite !Pos2Z.inj_succ, Pos2Z.inj_xO, Z.pow_succ_r by lia. lia.
Qed.

Lemma shl_align_spec (m : positive) e f :
  exists mz,
    shl_align m e f = (mz, Z.min e f) /\
    Z.pos mz = Z.pos m * 2 ^ (e - Z.min e f) /\
    Z.pos (digits2_pos mz) = Z.pos (digits2_pos m) + (e - Z.min e f).
Proof.
  unfold shl_align. destruct (f - e) as [|p|p] eqn:E.
  - exists m. replace (Z.min e f) with e by lia.
    rewrite Z.sub_diag. split; [done|]. lia.
  - exists m. replace (Z.min e f) with e by lia.
    rewrite Z.sub_diag. split; [done|]. lia.
  - exists (Pos.iter xO m p). replace (Z.min e f) with f by lia.
    replace (e - f) with (Z.pos p) by lia.
    split; [done|]. apply Pos_iter_xO.
Qed.

Lemma binary_round_rounded s (m : positive) e :
  exists M f,
    binary_round Float.prec Float.emax s m e = Float.finalize s M f /\
    Float.rounds_to (Float.dy (Z.pos m) e) M f /\ (-1074 < f -> 2 ^ 52 <= M) /\
    M <= 2 ^ 53.
Proof.
  unfold binary_round.
  set (f := SpecFloat.fexp Float.prec Float.emax (Z.pos (digits2_pos m) + e)).
  destruct (shl_align_spec m e f) as (mz & -> & Hmz & Hdz).
  assert (Hf : SpecFloat.fexp Float.prec Float.emax
                 (Z.pos (digits2_pos mz) + Z.min e f) = f).
  { rewrite Hdz. subst f. f_equal. lia. }
  destruct (binary_round_aux_rounded s mz (Z.min e f)) as (M & HR & Hr & Hn).
  { rewrite Hf. lia. }
  rewrite Hf in HR, Hr, Hn. exists M, f. split; [done|]. split; [|done].
  assert (Heq : (Float.dy (Z.pos mz) (Z.min e f) == Float.dy (Z.pos m) e)%Q).
  { rewrite Hmz, dy_shift by lia. by replace (Z.min e f + (e - Z.min e f)) with e by lia. }
  unfold Float.rounds_to in *. by rewrite <- Heq.
Qed.

(** [Float.round m e] is a rounding of [m * 2^e]. *)
Lemma round_rounded m e : Float.rounded (Float.dy m e) (Float.round m e).
Proof.
  unfold Float.round, binary_normalize. destruct m as [|p|p].
  - rewrite dy_0. by apply (rounded_exact (S754_zero false)).
  - destruct (binary_round_rounded false p e) as (M & f & -> & Hr & _).
    by apply (rounded_finalize false).
  - destruct (binary_round_rounded true p e) as (M & f & -> & Hr & _).
    change (Z.neg p) with (- Z.pos p). rewrite dy_opp.
    by apply (rounded_finalize true).
Qed.

(** The results of rounding are binary64 numbers. *)
Lemma finalize_valid s M f :
  0 <= M <= 2 ^ 53 -> -1074 <= f -> (-1074 < f -> 2 ^ 52 <= M) ->
  Float.valid (Float.finalize s M f).
Proof.
  intros HM Hf Hn. unfold Float.valid, Float.finalize, Float.fin.
  destruct (Z.ltb_spec M (2 ^ 53)) as [Hlt|Hge].
  - destruct M as [|p|p]; try lia; [done|].
    destruct (Z.leb_spec f 971) as [Hle|]; [|done].
    cbn [valid_binary]. unfold bounded, canonical_mantissa.
    rewrite fexp_eq. apply andb_true_iff. split; [|apply Z.leb_le; unfold Float.emax, Float.prec; lia].
    apply Z.eqb_eq.
    pose proof (digits2_pos_le p 53 ltac:(lia) Hlt) as Hd.
    destruct (decide (f = -1074)) as [->|Hnf]; [lia|].
    pose proof (digits2_pos_ge p 52 (Hn ltac:(lia))). lia.
  - change (2 ^ 52) with (Z.pos (Z.to_pos (2 ^ 52))). cbv iota.
    destruct (Z.leb_spec (f + 1) 971) as [Hle|]; [|done].
    cbn [valid_binary]. unfold bounded, canonical_mantissa.
    rewrite fexp_eq. apply andb_true_iff. split; [|apply Z.leb_le; unfold Float.emax, Float.prec; lia].
    apply Z.eqb_eq. change (Z.pos (digits2_pos (Z.to_pos (2 ^ 52)))) with 53.
    lia.
Qed.

Lemma round_valid m e : Float.valid (Float.round m e).
Proof.
  unfold Float.round, binary_normalize. destruct m as [|p|p]; [done|..].
  - destruct (binary_round_rounded false p e) as (M & f & -> & Hr & Hn & H53).
    destruct Hr as (Hf & _ & _ & _ & HM & _). apply finalize_valid; [lia|done|done].
  - destruct (binary_round_rounded true p e) as (M & f & -> & Hr & Hn & H53).
    destruct Hr as (Hf & _ & _ & _ & HM & _). apply finalize_valid; [lia|done|done].
Qed.

(** What being a binary64 number says of a mantissa and an exponent. *)
Lemma valid_finite_inv s (m : positive) e :
  Float.valid (S754_finite s m e) ->
  Z.pos (digits2_pos m) <= 53 /\ -1074 <= e <= 971 /\
  (e = -1074 \/ Z.pos (digits2_pos m) = 53).
Proof.
  unfold Float.valid. cbn [valid_binary]. unfold bounded, canonical_mantissa.
  rewrite fexp_eq. intros H. apply andb_true_iff in H as [Hc Hb].
  apply Z.eqb_eq in Hc. apply Z.leb_le in Hb. unfold Float.emax, Float.prec in Hb. lia.
Qed.

Lemma valid_fits f : Float.valid f -> Float.fits (Float.to_Q f).
Proof.
  destruct f as [s|s| |s m e]; intros Hv.
  1-3: exists 0, 0; split; [done|]; split; [lia|]; by rewrite dy_0.
  apply valid_finite_inv in Hv as (Hd & He & _).
  cbn [Float.to_Q]. apply fits_dy; [|done].
  pose proof (digits2_pos_bounds m) as [_ Hhi].
  assert (Z.pos m < 2 ^ 53).
  { eapply Z.lt_le_trans; [exact Hhi|]. apply Z.pow_le_mono_r; lia. }
  destruct s; cbn [cond_Zopp]; lia.
Qed.

(** Addition of finite numbers is the exact sum, rounded. *)
Lemma add_rounded x y :
  Float.is_finite x = true -> Float.is_finite y = true ->
  Float.rounded (Float.to_Q x + Float.to_Q y) (SFadd Float.prec Float.emax x y).
Proof.
  destruct x as [sx|sx| |sx mx ex]; destruct y as [sy|sy| |sy my ey];
    intros Hfx Hfy; try discriminate.
  - cbn [SFadd Float.to_Q].
    assert (H : Float.rounded 0 (if sx then if sy then S754_zero sx else S754_zero false
                           else if sy then S754_zero false else S754_zero sx)).
    { destruct sx, sy; by apply (rounded_exact (S754_zero _)). }
    destruct sx, sy; cbn in H |- *; by rewrite Qplus_0_l.
  - cbn [SFadd]. change (Float.to_Q (S754_zero sx)) with 0%Q. rewrite Qplus_0_l.
    by apply rounded_exact.
  - cbn [SFadd]. change (Float.to_Q (S754_zero sy)) with 0%Q. rewrite Qplus_0_r.
    by apply rounded_exact.
  - cbn [SFadd]. cbv zeta.
    destruct (shl_align_spec mx ex (Z.min ex ey)) as (mx' & Hx & Hmx & _).
    destruct (shl_align_spec my ey (Z.min ex ey)) as (my' & Hy & Hmy & _).
    rewrite Hx, Hy. cbn [fst].
    replace (Z.min ex (Z.min ex ey)) with (Z.min ex ey) in * by lia.
    replace (Z.min ey (Z.min ex ey)) with (Z.min ex ey) in * by lia.
    set (ez := Z.min ex ey) in *.
    assert (Heq : (Float.to_Q (S754_finite sx mx ex) + Float.to_Q (S754_finite sy my ey)
                   == Float.dy (cond_Zopp sx (Z.pos mx') + cond_Zopp sy (Z.pos my')) ez)%Q).
    { cbn [Float.to_Q].
      rewrite (dy_refine (cond_Zopp sx (Z.pos mx)) ex ez) by lia.
      rewrite (dy_refine (cond_Zopp sy (Z.pos my)) ey ez) by lia.
      unfold Float.dy. rewrite <- Qmult_plus_distr_l, <- inject_Z_plus.
      rewrite Hmx, Hmy. destruct sx, sy; cbn [cond_Zopp];
        rewrite ?Z.mul_opp_l; reflexivity. }
    rewrite Heq. apply round_rounded.
Qed.

(** The exponent of a product of binary64 mantissas is not above the
    grid of the product. *)
Lemma mul_exponent (mx my : positive) ex ey :
  Z.pos (digits2_pos mx) <= 53 -> -1074 <= ex ->
  (ex = -1074 \/ Z.pos (digits2_pos mx) = 53) ->
  Z.pos (digits2_pos my) <= 53 -> -1074 <= ey ->
  (ey = -1074 \/ Z.pos (digits2_pos my) = 53) ->
  ex + ey <=
    SpecFloat.fexp Float.prec Float.emax
      (Z.pos (digits2_pos (mx * my)) + (ex + ey)).
Proof.
  intros Hdx Hex Hnx Hdy Hey Hny. rewrite fexp_eq.
  pose proof (digits2_pos_bounds mx) as [Hxlo _].
  pose proof (digits2_pos_bounds my) as [Hylo _].
  assert (Hd : Z.pos (digits2_pos mx) + Z.pos (digits2_pos my) - 2
               < Z.pos (digits2_pos (mx * my))).
  { apply digits2_pos_ge. rewrite Pos2Z.inj_mul.
    replace (Z.pos (digits2_pos mx) + Z.pos (digits2_pos my) - 2)
      with ((Z.pos (digits2_pos mx) - 1) + (Z.pos (digits2_pos my) - 1)) by lia.
    rewrite Z.pow_add_r by lia. nia. }
  lia.
Qed.

(** Multiplication of finite binary64 numbers is the exact product,
    rounded. *)
Lemma mul_rounded x y :
  Float.valid x -> Float.valid y -> Float.is_finite x = true -> Float.is_finite y = true ->
  Float.rounded (Float.to_Q x * Float.to_Q y) (SFmul Float.prec Float.emax x y) /\
  Float.valid (SFmul Float.prec Float.emax x y).
Proof.
  destruct x as [sx|sx| |sx mx ex]; destruct y as [sy|sy| |sy my ey];
    intros Hvx Hvy Hfx Hfy; try discriminate.
  1-3: split; [|reflexivity]; cbn [SFmul Float.to_Q];
    rewrite ?Qmult_0_l, ?Qmult_0_r; by apply (rounded_exact (S754_zero _)).
  cbn [SFmul].
  apply valid_finite_inv in Hvx as (Hdx & Hex & Hnx).
  apply valid_finite_inv in Hvy as (Hdy & Hey & Hny).
  destruct (binary_round_aux_rounded (xorb sx sy) (mx * my) (ex + ey))
    as (M & -> & Hr & Hn & H53).
  { apply mul_exponent; lia. }
  split.
  - assert (Heq : (Float.to_Q (S754_finite sx mx ex) * Float.to_Q (S754_finite sy my ey)
                   == if xorb sx sy then - Float.dy (Z.pos (mx * my)) (ex + ey)
                      else Float.dy (Z.pos (mx * my)) (ex + ey))%Q).
    { cbn [Float.to_Q]. unfold Float.dy.
      destruct sx, sy; cbn [cond_Zopp xorb];
        rewrite pow2_add, Pos2Z.inj_mul, inject_Z_mult, ?inject_Z_opp; ring. }
    rewrite Heq. by apply rounded_finalize.
  - destruct Hr as (Hf & _ & _ & _ & HM & _).
    apply finalize_valid; [lia|done|done].
Qed.

End Operations.
(** ** Python arithmetic *)

Section PythonArithmetic.

Lemma py_lt_true x y : Py.lt x y = true <-> (x < y)%Q.
Proof.
  unfold Py.lt. rewrite negb_true_iff, <- not_true_iff_false, Qle_bool_iff.
  split; [apply Qnot_le_lt | apply Qlt_not_le].
Qed.

Lemma py_lt_false x y : Py.lt x y = false <-> (y <= x)%Q.
Proof. unfold Py.lt. rewrite negb_false_iff. apply Qle_bool_iff. Qed.

Lemma floordiv_pos a d : 0 < d -> Py.floordiv a d = Ok (a `div` d).
Proof. intros Hd. unfold Py.floordiv. case_decide; [lia|done]. Qed.

(** Flooring before an integer division changes nothing. *)
Lemma floor_div_floor (x : Q) (d : Z) :
  0 < d -> Qfloor x `div` d = Qfloor (x / inject_Z d).
Proof.
  intros Hd. destruct x as [n p]. destruct d as [|d|d]; try lia.
  unfold Qdiv, Qinv, Qmult, Qfloor; simpl.
  rewrite Z.mul_1_r, Pos2Z.inj_mul.
  rewrite Z.div_div; lia.
Qed.

Lemma Qfloor_unique z q :
  (inject_Z z <= q)%Q -> (q < inject_Z (z + 1))%Q -> Qfloor q = z.
Proof.
  intros Hlo Hhi.
  pose proof (Qfloor_le q) as H1. pose proof (Qlt_floor q) as H2.
  assert (Ha : (inject_Z z < inject_Z (Qfloor q + 1))%Q) by lra.
  assert (Hb : (inject_Z (Qfloor q) < inject_Z (z + 1))%Q) by lra.
  rewrite <- Zlt_Qlt in Ha, Hb. lia.
Qed.

Lemma dy_exp_0 z : (Float.dy z 0 == inject_Z z)%Q.
Proof. unfold Float.dy. change (2 ^ 0)%Q with 1%Q. ring. Qed.

(** A dyadic number with a mantissa that is a multiple of a power of 2. *)
Lemma dy_Z z n : 0 <= n -> (Float.dy z n == inject_Z (z * 2 ^ n))%Q.
Proof.
  intros Hn. rewrite <- (dy_exp_0 (z * 2 ^ n)), dy_shift by done. reflexivity.
Qed.

(** An integer on a grid finer than the integers. *)
Lemma inject_Z_dy z e : e <= 0 -> (inject_Z z == Float.dy (z * 2 ^ (- e)) e)%Q.
Proof.
  intros He. rewrite <- (dy_exp_0 z), (dy_refine z 0 e) by lia.
  by rewrite Z.sub_0_l.
Qed.

(** Shifting a positive mantissa by its exponent floors the value. *)
Lemma shiftl_floor (m : positive) e :
  Qfloor (Float.dy (Z.pos m) e) = Z.shiftl (Z.pos m) e.
Proof.
  apply Qfloor_unique.
  - destruct (Z.le_gt_cases 0 e) as [He|He].
    + rewrite Z.shiftl_mul_pow2, dy_Z by done. apply Qle_refl.
    + rewrite Z.shiftl_div_pow2 by lia.
      assert (Hp : 0 < 2 ^ (- e)) by (apply Z.pow_pos_nonneg; lia).
      pose proof (Z.mul_div_le (Z.pos m) (2 ^ (- e)) Hp) as Hle.
      rewrite (inject_Z_dy _ e) by lia. apply dy_le_iff. lia.
  - destruct (Z.le_gt_cases 0 e) as [He|He].
    + rewrite Z.shiftl_mul_pow2, dy_Z by done. rewrite <- Zlt_Qlt. lia.
    + rewrite Z.shiftl_div_pow2 by lia.
      assert (Hp : 0 < 2 ^ (- e)) by (apply Z.pow_pos_nonneg; lia).
      pose proof (Z.mod_pos_bound (Z.pos m) (2 ^ (- e)) Hp) as Hb.
      pose proof (Z.div_mod (Z.pos m) (2 ^ (- e)) ltac:(lia)) as Hdm.
      rewrite (inject_Z_dy _ e) by lia. apply dy_lt_iff. lia.
Qed.

(** [int] of a float that is not negative floors its value. *)
Lemma py_int_nonneg x :
  Float.is_finite x = true -> (0 <= Float.to_Q x)%Q ->
  Py.int x = Ok (Qfloor (Float.to_Q x)).
Proof.
  destruct x as [s|s| |s m e]; intros Hf Hx; try discriminate.
  - reflexivity.
  - destruct s.
    + cbn [Float.to_Q cond_Zopp] in Hx. change (Z.neg m) with (- Z.pos m) in Hx.
      rewrite dy_opp in Hx. pose proof (dy_pos (Z.pos m) e ltac:(lia)). lra.
    + cbn [Py.int Float.to_Q cond_Zopp]. by rewrite shiftl_floor.
Qed.

(** [int] of a float that is not positive is not positive. *)
Lemma py_int_nonpos x :
  Float.is_finite x = true -> (Float.to_Q x <= 0)%Q ->
  exists i, Py.int x = Ok i /\ i <= 0.
Proof.
  destruct x as [s|s| |s m e]; intros Hf Hx; try discriminate.
  - by exists 0.
  - destruct s.
    + cbn [Py.int cond_Zopp]. eexists. split; [done|].
      pose proof (Z.shiftl_nonneg (Z.pos m) e). lia.
    + cbn [Float.to_Q cond_Zopp] in Hx.
      pose proof (dy_pos (Z.pos m) e ltac:(lia)). lra.
Qed.

(** The comparison of an int with a finite float compares the values. *)
Lemma int_lt_float_spec z x :
  Float.is_finite x = true ->
  Py.int_lt_float z x = Py.lt (inject_Z z) (Float.to_Q x).
Proof.
  destruct x as [s|s| |s m e]; intros Hf; try discriminate.
  - cbn [Py.int_lt_float Float.to_Q].
    destruct (Z.ltb_spec z 0) as [H|H]; symmetry.
    + apply py_lt_true. change 0%Q with (inject_Z 0). by rewrite <- Zlt_Qlt.
    + apply py_lt_false. change 0%Q with (inject_Z 0). by rewrite <- Zle_Qle.
  - cbn [Py.int_lt_float Float.to_Q]. set (k := cond_Zopp s (Z.pos m)).
    destruct (Z.leb_spec 0 e) as [He|He].
    + destruct (Z.ltb_spec z (k * 2 ^ e)) as [H|H]; symmetry.
      * apply py_lt_true. rewrite dy_Z by done. by rewrite <- Zlt_Qlt.
      * apply py_lt_false. rewrite dy_Z by done. by rewrite <- Zle_Qle.
    + pose proof (inject_Z_dy z e ltac:(lia)) as Hz.
      destruct (Z.ltb_spec (z * 2 ^ (- e)) k) as [H|H]; symmetry.
      * apply py_lt_true. rewrite Hz. by apply dy_lt_iff.
      * apply py_lt_false. rewrite Hz. by apply dy_le_iff.
Qed.

(** A rounding is not NaN. *)
Lemma rounded_not_nan q : ~ Float.rounded q S754_nan.
Proof.
  intros [Hle Hge].
  assert (H0 : Float.fits 0).
  { exists 0, 0. split; [done|]. split; [lia|]. by rewrite dy_0. }
  destruct (Qlt_le_dec q 0) as [H|H].
  - apply (Hle 0%Q H0). lra.
  - by apply (Hge 0%Q H0).
Qed.

Lemma add_finite_inv x y :
  Float.is_finite (Float.add x y) = true ->
  Float.is_finite x = true /\ Float.is_finite y = true.
Proof.
  destruct x as [sx|sx| |sx mx ex]; destruct y as [sy|sy| |sy my ey];
    cbn; try done; destruct sx, sy; done.
Qed.

(** The conversion of an int gives a binary64 number, a rounding of the
    int. *)
Lemma py_float_int z x :
  Py.float (PyInt z) = Ok x ->
  Float.valid x /\ Float.is_finite x = true /\ Float.rounded (inject_Z z) x.
Proof.
  cbn [Py.float]. pose proof (round_valid z 0) as Hv.
  pose proof (round_rounded z 0) as Hr. rewrite dy_exp_0 in Hr.
  destruct (Float.round z 0) as [s|s| |s m e]; try done; intros [= <-];
    try done.
  by apply rounded_not_nan in Hr.
Qed.

Lemma py_float_returns z x :
  Float.round z 0 = x -> Float.is_finite x = true -> Py.float (PyInt z) = Ok x.
Proof. cbn [Py.float]. intros -> Hx. by destruct x. Qed.

(** [a / 2] is a rounding of the quotient. *)
Lemma truediv_2_rounded a half :
  Py.truediv_2 a = Ok half ->
  Float.is_finite half = true /\ Float.rounded (inject_Z a / 2) half.
Proof.
  unfold Py.truediv_2. pose proof (round_rounded a (-1)) as Hr.
  assert (Heq : (Float.dy a (-1) == inject_Z a / 2)%Q).
  { unfold Float.dy. change (2 ^ (-1))%Q with (/ 2)%Q. reflexivity. }
  rewrite Heq in Hr.
  destruct (Float.round a (-1)) as [s|s| |s m e]; try done; intros [= <-];
    try done.
  by apply rounded_not_nan in Hr.
Qed.

Lemma truediv_2_returns a :
  Float.is_finite (Float.round a (-1)) = true ->
  Py.truediv_2 a = Ok (Float.round a (-1)).
Proof. unfold Py.truediv_2. by destruct (Float.round a (-1)). Qed.

End PythonArithmetic.
(** ** Facts about [_make_divisible] *)

Section MakeDivisible.

Lemma lit_0_9_valid : Float.valid Float.lit_0_9.
Proof. reflexivity. Qed.

Lemma lit_0_9_bounds :
  (0 < Float.to_Q Float.lit_0_9)%Q /\ (Float.to_Q Float.lit_0_9 < 1)%Q.
Proof.
  cbn [Float.to_Q Float.lit_0_9 cond_Zopp]. split; [by apply dy_pos|].
  assert (H : (1 == Float.dy (2 ^ 53) (-53))%Q) by (by rewrite dy_pow2).
  rewrite H. by apply dy_lt_iff.
Qed.

Lemma fits_0 : Float.fits 0.
Proof. exists 0, 0. split; [done|]. split; [lia|]. by rewrite dy_0. Qed.

(** Integers [k * 2^e] that are binary64 numbers. *)
Lemma fits_scaled k e :
  Z.abs k < 2 ^ 53 -> 0 <= e <= 971 -> Float.fits (inject_Z (k * 2 ^ e)).
Proof.
  intros Hk He. rewrite <- dy_Z by lia. apply fits_dy; [done|lia].
Qed.

(** Half-integers that are binary64 numbers. *)
Lemma fits_half z : Z.abs z < 2 ^ 53 -> Float.fits (inject_Z z / 2).
Proof.
  intros Hz. exists z, (-1). split; [done|]. split; [lia|].
  unfold Float.dy. change (2 ^ (-1))%Q with (/ 2)%Q. reflexivity.
Qed.

(** The product [0.9 * x] that the code compares with lies between 0 and
    [x]. *)
Lemma mul_0_9_bounds x :
  Float.valid x -> Float.is_finite x = true ->
  Float.is_finite (Float.mul Float.lit_0_9 x) = true /\
  ((0 <= Float.to_Q x)%Q ->
     (0 <= Float.to_Q (Float.mul Float.lit_0_9 x))%Q /\
     (Float.to_Q (Float.mul Float.lit_0_9 x) <= Float.to_Q x)%Q) /\
  ((Float.to_Q x <= 0)%Q ->
     (Float.to_Q x <= Float.to_Q (Float.mul Float.lit_0_9 x))%Q /\
     (Float.to_Q (Float.mul Float.lit_0_9 x) <= 0)%Q).
Proof.
  intros Hv Hf.
  destruct (mul_rounded Float.lit_0_9 x lit_0_9_valid Hv eq_refl Hf)
    as [Hr _].
  fold (Float.mul Float.lit_0_9 x) in Hr.
  destruct lit_0_9_bounds as [Hc0 Hc1].
  set (c := Float.to_Q Float.lit_0_9) in *.
  pose proof (valid_fits x Hv) as Hfx.
  destruct (Qlt_le_dec (Float.to_Q x) 0) as [Hneg|Hpos].
  - destruct (rounded_between _ _ (Float.to_Q x) 0 Hr Hfx fits_0)
      as (Hfin & Hlo & Hhi); [nra|nra|].
    split; [done|]. split; [intros; lra | done].
  - destruct (rounded_between _ _ 0 (Float.to_Q x) Hr fits_0 Hfx)
      as (Hfin & Hlo & Hhi); [nra|nra|].
    split; [done|]. split; [done|]. intros H0.
    assert (Float.to_Q x == 0)%Q as Hx0 by lra. lra.
Qed.

(** The body of the function after the conversions. *)
Lemma make_divisible_unfold v d m half x :
  0 < d -> Py.truediv_2 d = Ok half -> Py.float v = Ok x ->
  _make_divisible v d m =
    i ← Py.int (Float.add x half);
    Ok (let c := Z.max (default d m) (i `div` d * d) in
        if Py.int_lt_float c (Float.mul Float.lit_0_9 x) then c + d
        else c).
Proof.
  intros Hd Hhalf Hx. unfold _make_divisible. rewrite Hhalf, Hx.
  cbn [mbind result_bind].
  destruct (Py.int _) as [i|]; [|done]. cbn [mbind result_bind].
  rewrite floordiv_pos by done. by destruct m.
Qed.

(** A call that returned, taken apart. *)
Lemma make_divisible_inv v d m r :
  0 < d -> _make_divisible v d m = Ok r ->
  exists half x i,
    Py.truediv_2 d = Ok half /\ Py.float v = Ok x /\
    Py.int (Float.add x half) = Ok i /\
    r = (let c := Z.max (default d m) (i `div` d * d) in
         if Py.int_lt_float c (Float.mul Float.lit_0_9 x) then c + d
         else c).
Proof.
  intros Hd Hr.
  destruct (Py.truediv_2 d) as [half|] eqn:Hhalf;
    [|by unfold _make_divisible in Hr; rewrite Hhalf in Hr].
  destruct (Py.float v) as [x|] eqn:Hx;
    [|by unfold _make_divisible in Hr; rewrite Hhalf, Hx in Hr].
  rewrite (make_divisible_unfold v d m half x Hd Hhalf Hx) in Hr.
  destruct (Py.int _) as [i|] eqn:Hi; [|done].
  injection Hr as <-. by exists half, x, i.
Qed.

(** With [min_value] omitted, a result is [k * divisor] for some
    [k >= 1]. *)
Lemma make_divisible_default_multiple v d r :
  0 < d -> _make_divisible v d None = Ok r -> exists k, 1 <= k /\ r = k * d.
Proof.
  intros Hd Hr.
  apply make_divisible_inv in Hr as (half & x & i & _ & _ & _ & ->);
    [|done].
  cbn [default]. cbv zeta. set (q := i `div` d).
  assert (Hmax : Z.max d (q * d) = Z.max 1 q * d) by nia.
  rewrite Hmax. destruct (Py.int_lt_float _ _).
  - exists (Z.max 1 q + 1). split; [lia|ring].
  - exists (Z.max 1 q). split; [lia|done].
Qed.

(** A call whose conversions and float sum do not overflow returns; what
    is known about the floats on the way. *)
Lemma make_divisible_finite v d m half x :
  0 < d -> Py.finite v ->
  Py.truediv_2 d = Ok half -> Py.float v = Ok x ->
  Float.is_finite (Float.add x half) = true ->
  exists i,
    Float.valid x /\ Float.is_finite x = true /\
    Float.rounded (Py.value v) x /\
    Float.is_finite half = true /\ (0 <= Float.to_Q half)%Q /\
    Float.rounded (Float.to_Q x + Float.to_Q half) (Float.add x half) /\
    Py.int (Float.add x half) = Ok i /\
    _make_divisible v d m =
      Ok (let c := Z.max (default d m) (i `div` d * d) in
          if Py.int_lt_float c (Float.mul Float.lit_0_9 x) then c + d
          else c).
Proof.
  intros Hd Hfin Hhalf Hx Hfs.
  destruct (add_finite_inv x half Hfs) as [Hfx Hfh].
  assert (Hvr : Float.valid x /\ Float.rounded (Py.value v) x).
  { destruct v as [z|f].
    - apply py_float_int in Hx as (Hv & _ & Hr). by split.
    - injection Hx as <-. destruct Hfin as [Hv _]. split; [done|].
      by apply rounded_exact. }
  destruct Hvr as [Hvx Hrx].
  pose proof Hhalf as Hrh. apply truediv_2_rounded in Hrh as [_ Hrh].
  assert (Hh0 : (0 <= Float.to_Q half)%Q).
  { destruct Hrh as [_ Hge].
    assert (H0 : (0 <= inject_Z d / 2)%Q).
    { assert (0 <= inject_Z d)%Q by (rewrite <- (Zle_Qle 0); lia).
      half_lra. }
    specialize (Hge 0%Q fits_0 H0). by destruct half. }
  pose proof (add_rounded x half Hfx Hfh) as Hrs.
  fold (Float.add x half) in Hrs.
  assert (Hi : exists i, Py.int (Float.add x half) = Ok i).
  { destruct (Float.add x half); try done; cbn [Py.int]; eauto. }
  destruct Hi as [i Hi].
  exists i. repeat (split; [done|]).
  rewrite (make_divisible_unfold v d m half x) by done.
  by rewrite Hi.
Qed.

(** Such a call on a positive number returns a value that is not below
    the float product [0.9 * v]. *)
Lemma make_divisible_ninety v d m half x :
  0 < d -> Py.finite v -> (0 < Py.value v)%Q ->
  Py.truediv_2 d = Ok half -> Py.float v = Ok x ->
  Float.is_finite (Float.add x half) = true ->
  exists r,
    _make_divisible v d m = Ok r /\
    (Float.to_Q (Float.mul Float.lit_0_9 x) <= inject_Z r)%Q.
Proof.
  intros Hd Hfin Hv0 Hhalf Hx Hfs.
  destruct (make_divisible_finite v d m half x Hd Hfin Hhalf Hx Hfs)
    as (i & Hvx & Hfx & Hrx & Hfh & Hh0 & Hrs & Hi & ->).
  eexists. split; [done|].
  (* the float of [v] is not negative, the sum is not below it *)
  assert (Hx0 : (0 <= Float.to_Q x)%Q).
  { destruct Hrx as [_ Hge]. specialize (Hge 0%Q fits_0 ltac:(lra)).
    by destruct x. }
  destruct (mul_0_9_bounds x Hvx Hfx) as (Hfp & Hpos & _).
  destruct (Hpos Hx0) as [_ Hpx].
  assert (Hsx : (Float.to_Q x <= Float.to_Q (Float.add x half))%Q).
  { destruct Hrs as [_ Hge].
    specialize (Hge _ (valid_fits x Hvx) ltac:(lra)).
    by destruct (Float.add x half). }
  rewrite py_int_nonneg in Hi by (done || lra). injection Hi as <-.
  pose proof (Qlt_floor (Float.to_Q (Float.add x half))) as Hfl.
  set (f := Qfloor _) in *. cbv zeta. set (c := Z.max _ _).
  rewrite int_lt_float_spec by done.
  destruct (Py.lt _ _) eqn:E.
  - assert (Hz : f + 1 <= c + d).
    { pose proof (Z.mod_pos_bound f d ltac:(lia)).
      pose proof (Z.div_mod f d ltac:(lia)).
      subst c. nia. }
    rewrite Zle_Qle in Hz. lra.
  - by apply py_lt_false in E.
Qed.

(** The integers [2^1023] and [3 * 2^1022] are binary64 numbers. *)
Lemma fits_2_1023 : Float.fits (inject_Z (2 ^ 1023)).
Proof. apply (fits_scaled (2 ^ 52) 971); [reflexivity|lia]. Qed.

Lemma fits_2_1022 : Float.fits (inject_Z (2 ^ 1022)).
Proof. apply (fits_scaled (2 ^ 51) 971); [reflexivity|lia]. Qed.

Lemma fits_3_2_1022 : Float.fits (inject_Z (3 * 2 ^ 1022)).
Proof. apply (fits_scaled (3 * 2 ^ 51) 971); [reflexivity|lia]. Qed.

(** The conversion of a finite number of magnitude up to [2^1023]. *)
Lemma py_float_bounded v :
  Py.finite v ->
  (- inject_Z (2 ^ 1023) <= Py.value v)%Q ->
  (Py.value v <= inject_Z (2 ^ 1023))%Q ->
  exists x,
    Py.float v = Ok x /\ Float.valid x /\ Float.is_finite x = true /\
    Float.rounded (Py.value v) x /\
    (- inject_Z (2 ^ 1023) <= Float.to_Q x)%Q /\
    (Float.to_Q x <= inject_Z (2 ^ 1023))%Q.
Proof.
  intros Hfin Hlo Hhi. destruct v as [z|f]; cbn [Py.value] in *.
  - pose proof (round_rounded z 0) as Hr. rewrite dy_exp_0 in Hr.
    destruct (rounded_between _ _ _ _ Hr (fits_opp _ fits_2_1023)
                fits_2_1023 Hlo Hhi) as (Hf & H1 & H2).
    exists (Float.round z 0).
    split; [by apply py_float_returns|]. split; [apply round_valid|].
    done.
  - destruct Hfin as [Hv Hf]. exists f. cbn [Py.float].
    split; [done|]. split; [done|]. split; [done|].
    split; [by apply rounded_exact|]. done.
Qed.

(** The half of a positive divisor below [2^1023]. *)
Lemma truediv_2_bounded d :
  0 < d < 2 ^ 1023 ->
  exists half,
    Py.truediv_2 d = Ok half /\ Float.is_finite half = true /\
    Float.rounded (inject_Z d / 2) half /\
    (0 <= Float.to_Q half)%Q /\ (Float.to_Q half <= inject_Z (2 ^ 1022))%Q.
Proof.
  intros Hd. pose proof (round_rounded d (-1)) as Hr.
  assert (Heq : (Float.dy d (-1) == inject_Z d / 2)%Q).
  { unfold Float.dy. change (2 ^ (-1))%Q with (/ 2)%Q. reflexivity. }
  rewrite Heq in Hr.
  assert (H0 : (0 <= inject_Z d / 2)%Q).
  { assert (0 <= inject_Z d)%Q by (rewrite <- (Zle_Qle 0); lia). half_lra. }
  assert (H1 : (inject_Z d / 2 <= inject_Z (2 ^ 1022))%Q).
  { assert (Hle : (inject_Z d <= inject_Z (2 * 2 ^ 1022))%Q).
    { rewrite <- Zle_Qle. change (2 * 2 ^ 1022) with (2 ^ 1023). lia. }
    rewrite inject_Z_mult in Hle. change (inject_Z 2) with 2%Q in Hle.
    half_lra. }
  destruct (rounded_between _ _ _ _ Hr fits_0 fits_2_1022 H0 H1)
    as (Hf & Hlo & Hhi).
  exists (Float.round d (-1)). split; [by apply truediv_2_returns|]. done.
Qed.

(** The function returns on numbers of magnitude up to [2^1023], for a
    positive divisor below [2^1023]. *)
Lemma make_divisible_runs v d m :
  Py.finite v ->
  (- inject_Z (2 ^ 1023) <= Py.value v)%Q ->
  (Py.value v <= inject_Z (2 ^ 1023))%Q ->
  0 < d < 2 ^ 1023 ->
  exists half x i,
    Py.truediv_2 d = Ok half /\ Py.float v = Ok x /\
    Float.valid x /\ Float.is_finite x = true /\
    Float.rounded (Py.value v) x /\
    Float.is_finite half = true /\ (0 <= Float.to_Q half)%Q /\
    Float.is_finite (Float.add x half) = true /\
    Float.rounded (Float.to_Q x + Float.to_Q half) (Float.add x half) /\
    Py.int (Float.add x half) = Ok i /\
    _make_divisible v d m =
      Ok (let c := Z.max (default d m) (i `div` d * d) in
          if Py.int_lt_float c (Float.mul Float.lit_0_9 x) then c + d
          else c).
Proof.
  intros Hfin Hlo Hhi Hd.
  destruct (py_float_bounded v Hfin Hlo Hhi)
    as (x & Hx & Hvx & Hfx & Hrx & Hxlo & Hxhi).
  destruct (truediv_2_bounded d Hd) as (half & Hhalf & Hfh & Hrh & Hh0 & Hh1).
  pose proof (add_rounded x half Hfx Hfh) as Hrs.
  fold (Float.add x half) in Hrs.
  assert (H3 : (inject_Z (3 * 2 ^ 1022)
                == inject_Z (2 ^ 1023) + inject_Z (2 ^ 1022))%Q).
  { rewrite <- inject_Z_plus. reflexivity. }
  destruct (rounded_between _ _ _ _ Hrs (fits_opp _ fits_2_1023)
              fits_3_2_1022) as (Hfs & _ & _); [lra|lra|].
  assert (Hi : exists i, Py.int (Float.add x half) = Ok i).
  { destruct (Float.add x half); try done; cbn [Py.int]; eauto. }
  destruct Hi as [i Hi].
  exists half, x, i. repeat (split; [done|]).
  rewrite (make_divisible_unfold v d m half x) by (done || lia).
  by rewrite Hi.
Qed.

(** For an integer width [v] with [2 * v + d] below [2^53] the
    conversion of [v] and the float sum [v + d / 2] are exact. *)
Lemma make_divisible_exact_sum v d :
  0 < d -> 0 <= v -> 2 * v + d < 2 ^ 53 ->
  exists half x,
    Py.truediv_2 d = Ok half /\ Py.float (PyInt v) = Ok x /\
    (Float.to_Q x == inject_Z v)%Q /\
    Float.is_finite (Float.add x half) = true /\
    (Float.to_Q (Float.add x half) == inject_Z (2 * v + d) / 2)%Q.
Proof.
  intros Hd Hv Hb.
  assert (H53 : 2 ^ 53 <= 2 ^ 1023) by (by apply Z.pow_le_mono_r).
  destruct (make_divisible_runs (PyInt v) d None)
    as (half & x & i & Hhalf & Hx & Hvx & Hfx & Hrx & Hfh & _ & Hfs & Hrs
        & _).
  { done. }
  { cbn [Py.value]. rewrite <- inject_Z_opp, <- Zle_Qle. lia. }
  { cbn [Py.value]. rewrite <- Zle_Qle. lia. }
  { lia. }
  cbn [Py.value] in Hrx.
  destruct (rounded_fits _ _ Hrx (fits_Z v ltac:(lia))) as [_ Hxv].
  pose proof Hhalf as Hrh. apply truediv_2_rounded in Hrh as [_ Hrh].
  destruct (rounded_fits _ _ Hrh (fits_half d ltac:(lia))) as [_ Hhd].
  rewrite Hxv, Hhd in Hrs.
  assert (Hsum : (inject_Z v + inject_Z d / 2 == inject_Z (2 * v + d) / 2)%Q).
  { rewrite inject_Z_plus, inject_Z_mult. change (inject_Z 2) with 2%Q.
    field. }
  rewrite Hsum in Hrs.
  destruct (rounded_fits _ _ Hrs (fits_half (2 * v + d) ltac:(lia)))
    as [_ Hs].
  by exists half, x.
Qed.

(** On such a width the candidate is computed in the integers. *)
Lemma make_divisible_int v d m :
  0 < d -> 0 <= v -> 2 * v + d < 2 ^ 53 ->
  exists x,
    Py.float (PyInt v) = Ok x /\
    Float.is_finite (Float.mul Float.lit_0_9 x) = true /\
    Float.rounded (Float.to_Q Float.lit_0_9 * inject_Z v)
      (Float.mul Float.lit_0_9 x) /\
    _make_divisible (PyInt v) d m =
      Ok (let c := Z.max (default d m) ((v + d `div` 2) `div` d * d) in
          if Py.lt (inject_Z c) (Float.to_Q (Float.mul Float.lit_0_9 x))
          then c + d else c).
Proof.
  intros Hd Hv Hb.
  destruct (make_divisible_exact_sum v d Hd Hv Hb)
    as (half & x & Hhalf & Hx & Hxv & Hfs & Hs).
  rewrite (make_divisible_unfold (PyInt v) d m half x Hd Hhalf Hx).
  pose proof Hx as Hx'. apply py_float_int in Hx' as (Hvx & Hfx & _).
  (* the integer part of the sum *)
  assert (Hfloor : Qfloor (inject_Z (2 * v + d) / 2) = v + d `div` 2).
  { change (inject_Z (2 * v + d) / 2)%Q
      with (inject_Z (2 * v + d) / inject_Z 2)%Q.
    rewrite <- Zdiv_Qdiv.
    replace (2 * v + d) with (d + v * 2) by ring.
    rewrite Z.div_add by lia. ring. }
  rewrite py_int_nonneg.
  2: done.
  2: { rewrite Hs. assert (0 <= inject_Z (2 * v + d))%Q
         by (rewrite <- (Zle_Qle 0); lia). half_lra. }
  rewrite (Qfloor_comp _ _ Hs), Hfloor. cbn [mbind result_bind].
  destruct (mul_0_9_bounds x Hvx Hfx) as (Hfp & _).
  destruct (mul_rounded Float.lit_0_9 x lit_0_9_valid Hvx eq_refl Hfx)
    as [Hrp _].
  fold (Float.mul Float.lit_0_9 x) in Hrp. rewrite Hxv in Hrp.
  exists x. split; [done|]. split; [done|]. split; [done|].
  cbv zeta. by rewrite int_lt_float_spec.
Qed.

(** The product of the literal [0.9] and an integer, against an
    integer. *)
Lemma lit_0_9_mul_le v c :
  8106479329266893 * v <= 2 ^ 53 * c ->
  (Float.to_Q Float.lit_0_9 * inject_Z v <= inject_Z c)%Q.
Proof.
  intros Hle.
  assert (H1 : (Float.to_Q Float.lit_0_9 * inject_Z v
                == Float.dy (8106479329266893 * v) (-53))%Q).
  { cbn [Float.to_Q Float.lit_0_9 cond_Zopp]. unfold Float.dy.
    rewrite inject_Z_mult. ring. }
  rewrite H1, (inject_Z_dy c (-53)) by lia. apply dy_le_iff.
  change (- -53) with 53. lia.
Qed.

(** A positive multiple [k * d] of the divisor is returned unchanged when
    it is a float and the float sum of it and [d / 2] stays in the
    interval from [k * d] to [k * d + d]. *)
Lemma make_divisible_fixed_sum k d half x :
  0 < d -> 1 <= k ->
  Py.truediv_2 d = Ok half -> Py.float (PyInt (k * d)) = Ok x ->
  (Float.to_Q x == inject_Z (k * d))%Q ->
  Float.is_finite (Float.add x half) = true ->
  (inject_Z (k * d) <= Float.to_Q (Float.add x half))%Q ->
  (Float.to_Q (Float.add x half) < inject_Z (k * d + d))%Q ->
  _make_divisible (PyInt (k * d)) d None = Ok (k * d).
Proof.
  intros Hd Hk Hhalf Hx Hxr Hfs Hlo Hhi. set (r := k * d) in *.
  assert (Hr : d <= r) by (subst r; nia).
  rewrite (make_divisible_unfold (PyInt r) d None half x Hd Hhalf Hx).
  apply py_float_int in Hx as (Hvx & Hfx & _).
  assert (Hr0 : (0 <= inject_Z r)%Q) by (rewrite <- (Zle_Qle 0); lia).
  rewrite py_int_nonneg by (done || lra).
  cbn [mbind result_bind default]. cbv zeta.
  pose proof (Qfloor_le (Float.to_Q (Float.add x half))) as Hf1.
  pose proof (Qfloor_resp_le _ _ Hlo) as Hf2. rewrite Qfloor_Z in Hf2.
  set (f := Qfloor _) in *.
  assert (Hf3 : f < r + d) by (rewrite Zlt_Qlt; lra).
  assert (Hq : f `div` d = k).
  { symmetry. apply (Z.div_unique f d k (f - r)); subst r; lia. }
  rewrite Hq. fold r. rewrite Z.max_r by done.
  destruct (mul_0_9_bounds x Hvx Hfx) as (Hfp & _).
  rewrite int_lt_float_spec by done.
  (* the product [0.9 * r] is not above [r] *)
  destruct (Py.lt _ _) eqn:E; [|done].
  apply py_lt_true in E. exfalso.
  destruct (mul_rounded Float.lit_0_9 x lit_0_9_valid Hvx eq_refl Hfx)
    as [[Hle _] _].
  fold (Float.mul Float.lit_0_9 x) in Hle.
  assert (Hfit : Float.fits (inject_Z r)).
  { rewrite <- Hxr. by apply valid_fits. }
  destruct lit_0_9_bounds as [Hc0 Hc1].
  specialize (Hle (inject_Z r) Hfit).
  rewrite Hxr in Hle.
  assert (Hprod : (Float.to_Q Float.lit_0_9 * inject_Z r <= inject_Z r)%Q).
  { set (c := Float.to_Q Float.lit_0_9) in *.
    set (R := inject_Z r) in *. clearbody c R. nra. }
  specialize (Hle Hprod).
  destruct (Float.mul Float.lit_0_9 x); try done; cbn [Float.le_Q] in Hle;
    lra.
Qed.

(** In particular when [2 * (k * d) + d] is below [2^53]. *)
Lemma make_divisible_fixed k d :
  0 < d -> 1 <= k -> 2 * (k * d) + d < 2 ^ 53 ->
  _make_divisible (PyInt (k * d)) d None = Ok (k * d).
Proof.
  intros Hd Hk Hb.
  destruct (make_divisible_exact_sum (k * d) d Hd ltac:(nia) Hb)
    as (half & x & Hhalf & Hx & Hxv & Hfs & Hs).
  assert (H0 : (0 < inject_Z d)%Q) by (by rewrite <- (Zlt_Qlt 0)).
  apply (make_divisible_fixed_sum k d half x); try done.
  - rewrite Hs, inject_Z_plus, (inject_Z_mult 2 (k * d)).
    change (inject_Z 2) with 2%Q.
    set (R := inject_Z (k * d)) in *. clearbody R. half_lra.
  - rewrite Hs, !inject_Z_plus, (inject_Z_mult 2 (k * d)).
    change (inject_Z 2) with 2%Q.
    set (R := inject_Z (k * d)) in *. clearbody R. half_lra.
Qed.

End MakeDivisible.
(** ** [_make_divisible] against its description *)

Example make_divisible_16 : _make_divisible (PyInt 16) 4 None = Ok 16.
Proof. reflexivity. Qed.

Example make_divisible_div0 :
  _make_divisible (PyInt 16) 0 None = Raise ZeroDivisionError.
Proof. reflexivity. Qed.

(** The width [16 * 0.2777777777777778] is the float [4.444444444444445],
    and [200 * 0.15] is the float [30.0]. *)
Example width_40_9_product :
  Py.int_mul_float 16 width_mult_5_18 = Ok width_40_9.
Proof. reflexivity. Qed.

Example width_200_0_15 :
  Py.int_mul_float 200 (S754_finite false 5404319552844595 (-55))
    = Ok (S754_finite false 8444249301319680 (-48)) /\
  (Float.to_Q (S754_finite false 8444249301319680 (-48)) == 30)%Q /\
  _make_divisible (PyFloat (S754_finite false 8444249301319680 (-48))) 4 None
    = Ok 32.
Proof. split; [reflexivity|]. split; reflexivity. Qed.

(** C1 (as stated, refuted).  At the width [4.444444444444445] and the
    divisor 4 the function returns 4: the candidate 4 is compared with the
    float product [0.9 * v], which is [4.0].  The stated rule, on the
    exact product (which is above 4), gives 8.  And at the width -30, the
    divisor 1 and the minimum -100 the function returns -28, while the
    stated rule (with [floor] of the quotient) gives -29: [int] truncates
    [-29.5] toward zero. *)
Lemma make_divisible_formula_fails :
  _make_divisible (PyFloat width_40_9) 4 None = Ok 4 /\
  make_divisible_formula (Float.to_Q width_40_9) 4 None = 8 /\
  _make_divisible (PyInt (-30)) 1 (Some (-100)) = Ok (-28) /\
  make_divisible_formula (-30) 1 (Some (-100)) = -29.
Proof. repeat split. Qed.

(** C1 (amended).  For every numeric width [v], positive integer divisor
    [d] and optional [min_value] (the divisor when omitted), where the
    float sum [v + d/2] is finite, and is not negative or [min_value] is
    not negative: [_make_divisible] returns
    [max(min_value, floor(s / d) * d)] for the float sum [s] of [v] and
    [d/2], plus one more [d] when that candidate is strictly below the
    float product [0.9 * v]. *)
Theorem make_divisible_formula_correct (v : number) (d : Z) (m : option Z)
    (half x : spec_float) :
  0 < d -> Py.finite v ->
  Py.truediv_2 d = Ok half -> Py.float v = Ok x ->
  Float.is_finite (Float.add x half) = true ->
  (0 <= default d m \/ (0 <= Float.to_Q (Float.add x half))%Q) ->
  _make_divisible v d m =
    Ok (make_divisible_rule (Float.to_Q (Float.add x half))
          (Float.to_Q (Float.mul Float.lit_0_9 x)) d m).
Proof.
  intros Hd Hfin Hhalf Hx Hfs Hdom.
  rewrite (make_divisible_unfold v d m half x Hd Hhalf Hx).
  destruct (add_finite_inv x half Hfs) as [Hfx _].
  assert (Hvx : Float.valid x).
  { destruct v as [z|f]; [by apply py_float_int in Hx as [Hv _]|].
    injection Hx as <-. by destruct Hfin. }
  destruct (mul_0_9_bounds x Hvx Hfx) as (Hfp & _).
  unfold make_divisible_rule. fold (default d m).
  set (s := Float.add x half) in *.
  assert (Hcand : exists i, Py.int s = Ok i /\
            Z.max (default d m) (i `div` d * d) =
            Z.max (default d m)
              (Qfloor (Float.to_Q s / inject_Z d) * d)).
  { destruct (Qlt_le_dec (Float.to_Q s) 0) as [Hneg|Hpos].
    - destruct Hdom as [Hm|Hs]; [|lra].
      destruct (py_int_nonpos s Hfs ltac:(lra)) as (i & Hi & Hi0).
      exists i. split; [done|].
      assert (H1 : i `div` d * d <= 0).
      { pose proof (Z.mul_div_le i d Hd). lia. }
      assert (H2 : Qfloor (Float.to_Q s / inject_Z d) * d <= 0).
      { rewrite <- floor_div_floor by done.
        assert (Qfloor (Float.to_Q s) <= 0).
        { change 0 with (Qfloor 0). apply Qfloor_resp_le. lra. }
        pose proof (Z.mul_div_le (Qfloor (Float.to_Q s)) d Hd). lia. }
      lia.
    - exists (Qfloor (Float.to_Q s)). split; [by apply py_int_nonneg|].
      by rewrite floor_div_floor. }
  destruct Hcand as (i & -> & Hc). cbn [mbind result_bind]. cbv zeta.
  rewrite Hc. by rewrite int_lt_float_spec.
Qed.

Lemma make_divisible_formula_correct_witness :
  _make_divisible (PyInt 15) 4 (Some 8) = Ok 16.
Proof.
  apply (make_divisible_formula_correct (PyInt 15) 4 (Some 8)
           (S754_finite false 4503599627370496 (-51))
           (S754_finite false 8444249301319680 (-49)));
    [lia | exact I | reflexivity | reflexivity | reflexivity
    | left; cbn; lia].
Defined.

(** C6 (as stated, refuted).  For the width [2^54 + 4] and the divisor 3
    the function returns 18014398509481986, and for that width it returns
    18014398509481983: the sum [v + 1.5] is rounded to a multiple of 4.
    With the divisor -4 the value returned for -100 is -4, and applying
    the function to -4 gives -8. *)
Lemma make_divisible_not_idempotent :
  _make_divisible (PyInt (2 ^ 54 + 4)) 3 None = Ok 18014398509481986 /\
  _make_divisible (PyInt 18014398509481986) 3 None = Ok 18014398509481983 /\
  _make_divisible (PyInt (-100)) (-4) None = Ok (-4) /\
  _make_divisible (PyInt (-4)) (-4) None = Ok (-8).
Proof. repeat split. Qed.

(** C6 (amended).  For every [v] and every positive divisor [d], with
    [min_value] omitted: when [_make_divisible(v, d)] returns a value [r]
    that is converted to a float exactly and for which the float sum
    [r + d/2] is at least [r] and less than [r + d], then
    [_make_divisible(r, d)] returns [r] again.  That is the case whenever
    [2 * r + d] is below [2^53], where the sum is exact. *)
Theorem make_divisible_idempotent :
  (forall (v : number) (d r : Z) (half x : spec_float),
     0 < d -> _make_divisible v d None = Ok r ->
     Py.truediv_2 d = Ok half -> Py.float (PyInt r) = Ok x ->
     (Float.to_Q x == inject_Z r)%Q ->
     Float.is_finite (Float.add x half) = true ->
     (inject_Z r <= Float.to_Q (Float.add x half))%Q ->
     (Float.to_Q (Float.add x half) < inject_Z (r + d))%Q ->
     _make_divisible (PyInt r) d None = Ok r) /\
  (forall (v : number) (d r : Z),
     0 < d -> _make_divisible v d None = Ok r -> 2 * r + d < 2 ^ 53 ->
     _make_divisible (PyInt r) d None = Ok r).
Proof.
  split.
  - intros v d r half x Hd Hr Hhalf Hx Hxr Hfs Hlo Hhi.
    destruct (make_divisible_default_multiple v d r Hd Hr)
      as (k & Hk & ->).
    by apply (make_divisible_fixed_sum k d half x).
  - intros v d r Hd Hr Hb.
    destruct (make_divisible_default_multiple v d r Hd Hr)
      as (k & Hk & ->).
    by apply make_divisible_fixed.
Qed.

Lemma make_divisible_idempotent_witness :
  _make_divisible (PyInt 16) 4 None = Ok 16 /\
  _make_divisible (PyInt (2 ^ 53)) 2 None = Ok (2 ^ 53).
Proof.
  split.
  - apply (proj2 make_divisible_idempotent (PyInt 15) 4 16);
      [lia | reflexivity | reflexivity].
  - apply (proj1 make_divisible_idempotent (PyInt (2 ^ 53 - 1)) 2 (2 ^ 53)
             (S754_finite false 4503599627370496 (-52))
             (S754_finite false 4503599627370496 1));
      [lia | reflexivity | reflexivity | reflexivity | reflexivity
      | reflexivity | discriminate | reflexivity].
Defined.

(** C7 (as stated, refuted).  For the width [4.444444444444445] and the
    divisor 4 the function returns 4, which is less than [0.9 * v]: the
    float product [0.9 * v] that the code compares with is [4.0], the
    product of the numbers is larger.  And for the positive width
    [2^1024] the function returns nothing: it raises [OverflowError]. *)
Lemma make_divisible_below_ninety_percent :
  _make_divisible (PyFloat width_40_9) 4 None = Ok 4 /\
  (inject_Z 4 < 0.9 * Float.to_Q width_40_9)%Q /\
  (Float.to_Q (Float.mul Float.lit_0_9 width_40_9) == 4)%Q /\
  _make_divisible (PyInt (2 ^ 1024)) 4 None = Raise OverflowError.
Proof. repeat split. Qed.

(** C7 (amended).  With divisor 4 and [min_value] omitted,
    [_make_divisible(16, 4)] is 16 and [_make_divisible(15, 4)] is 16.
    For every positive number [v], every positive divisor and every
    [min_value], when the conversions to float and the float sum
    [v + d/2] do not overflow, the function returns a value that is not
    less than the float product [0.9 * v], the number the code compares
    the candidate with.  Nothing overflows when [v] is at most [2^1023]
    and the divisor is below [2^1023]. *)
Theorem make_divisible_within_ten_percent :
  _make_divisible (PyInt 16) 4 None = Ok 16 /\
  _make_divisible (PyInt 15) 4 None = Ok 16 /\
  (forall (v : number) (d : Z) (m : option Z) (half x : spec_float),
     Py.finite v -> (0 < Py.value v)%Q -> 0 < d ->
     Py.truediv_2 d = Ok half -> Py.float v = Ok x ->
     Float.is_finite (Float.add x half) = true ->
     exists r,
       _make_divisible v d m = Ok r /\
       (Float.to_Q (Float.mul Float.lit_0_9 x) <= inject_Z r)%Q) /\
  (forall (v : number) (d : Z) (m : option Z),
     Py.finite v ->
     (0 < Py.value v)%Q -> (Py.value v <= inject_Z (2 ^ 1023))%Q ->
     0 < d < 2 ^ 1023 ->
     exists r x,
       _make_divisible v d m = Ok r /\ Py.float v = Ok x /\
       (Float.to_Q (Float.mul Float.lit_0_9 x) <= inject_Z r)%Q).
Proof.
  split; [reflexivity|]. split; [reflexivity|]. split.
  - intros v d m half x Hfin Hv0 Hd Hhalf Hx Hfs.
    by apply (make_divisible_ninety v d m half x).
  - intros v d m Hfin Hv0 Hv1 Hd.
    destruct (make_divisible_runs v d m Hfin)
      as (half & x & i & Hhalf & Hx & _ & _ & _ & _ & _ & Hfs & _);
      [|done|done|].
    { assert (0 <= inject_Z (2 ^ 1023))%Q by (by rewrite <- (Zle_Qle 0)).
      lra. }
    destruct (make_divisible_ninety v d m half x) as (r & Hr & Hle);
      [lia|done..|].
    by exists r, x.
Qed.

Lemma make_divisible_within_ten_percent_witness :
  (exists r,
     _make_divisible (PyFloat width_40_9) 4 None = Ok r /\
     (Float.to_Q (Float.mul Float.lit_0_9 width_40_9) <= inject_Z r)%Q) /\
  (exists r x,
     _make_divisible (PyInt 7) 4 None = Ok r /\ Py.float (PyInt 7) = Ok x /\
     (Float.to_Q (Float.mul Float.lit_0_9 x) <= inject_Z r)%Q).
Proof.
  split.
  - apply (proj1 (proj2 (proj2 make_divisible_within_ten_percent))
             (PyFloat width_40_9) 4 None
             (S754_finite false 4503599627370496 (-51)) width_40_9);
      [split; reflexivity | reflexivity | lia | reflexivity | reflexivity
      | reflexivity].
  - apply (proj2 (proj2 (proj2 make_divisible_within_ten_percent))
             (PyInt 7) 4 None);
      [exact I | reflexivity | discriminate | split; reflexivity].
Defined.

(** C10 (as stated, refuted).  For the width [2^1024] the function raises
    [OverflowError]: the int is too large to be converted to a float. *)
Lemma make_divisible_overflows :
  _make_divisible (PyInt (2 ^ 1024)) 4 None = Raise OverflowError.
Proof. reflexivity. Qed.

(** C10 (amended).  For every non-negative integer [v] and every positive
    integer divisor [d], with [min_value] omitted: when the conversions to
    float and the float sum [v + d/2] do not overflow,
    [_make_divisible(v, d)] returns a multiple of [d] that is at least
    [d].  Nothing overflows when [v] and [d] are below [2^1023].  And for
    every number [v], a value that the function returns is a multiple of
    [d] that is at least [d]. *)
Theorem make_divisible_positive_multiple :
  (forall (v d : Z) (half x : spec_float),
     0 <= v -> 0 < d ->
     Py.truediv_2 d = Ok half -> Py.float (PyInt v) = Ok x ->
     Float.is_finite (Float.add x half) = true ->
     exists r, _make_divisible (PyInt v) d None = Ok r /\
               (d | r) /\ d <= r) /\
  (forall v d : Z,
     0 <= v < 2 ^ 1023 -> 0 < d < 2 ^ 1023 ->
     exists r, _make_divisible (PyInt v) d None = Ok r /\
               (d | r) /\ d <= r) /\
  (forall (v : number) (d r : Z),
     0 < d -> _make_divisible v d None = Ok r -> (d | r) /\ d <= r).
Proof.
  assert (Hsec : forall (v : number) (d r : Z),
            0 < d -> _make_divisible v d None = Ok r -> (d | r) /\ d <= r).
  { intros v d r Hd Hr.
    destruct (make_divisible_default_multiple v d r Hd Hr) as (k & Hk & ->).
    split; [by exists k | nia]. }
  split; [|split; [|done]].
  - intros v d half x Hv Hd Hhalf Hx Hfs.
    destruct (make_divisible_finite (PyInt v) d None half x)
      as (i & _ & _ & _ & _ & _ & _ & _ & Hr); try done.
    eexists. split; [exact Hr|]. by apply (Hsec (PyInt v)).
  - intros v d Hv Hd.
    destruct (make_divisible_runs (PyInt v) d None)
      as (half & x & i & _ & _ & _ & _ & _ & _ & _ & _ & _ & _ & Hr);
      [done| | |done|].
    + cbn [Py.value]. rewrite <- inject_Z_opp, <- Zle_Qle. lia.
    + cbn [Py.value]. rewrite <- Zle_Qle. lia.
    + eexists. split; [exact Hr|]. apply (Hsec (PyInt v)); [lia|exact Hr].
Qed.

Lemma make_divisible_positive_multiple_witness :
  (exists r, _make_divisible (PyInt 0) 4 None = Ok r /\ (4 | r) /\ 4 <= r) /\
  (exists r, _make_divisible (PyInt 21) 8 None = Ok r /\ (8 | r) /\ 8 <= r).
Proof.
  split.
  - apply (proj1 (proj2 make_divisible_positive_multiple) 0 4);
      split; reflexivity.
  - apply (proj1 make_divisible_positive_multiple 21 8
             (S754_finite false 4503599627370496 (-50))
             (S754_finite false 5910974510923776 (-48)));
      [lia | lia | reflexivity | reflexivity | reflexivity].
Defined.

(** ** The line dataset *)

Section Dataset.

Open Scope string_scope.

Import Text.

Lemma readlines_length s : length (readlines s) = line_count s.
Proof.
  induction s as [|c r IH]; [done|].
  cbn [readlines line_count]. destruct r as [|c' r'].
  - by case_decide.
  - case_decide; [cbn [length]; by rewrite IH|].
    rewrite <- IH. destruct (readlines (String c' r')) eqn:E; [|done].
    exfalso. revert E. cbn [readlines]. case_decide; [done|].
    by destruct (readlines r').
Qed.

(** The lines, put back together, are the text. *)
Lemma append_cons c (s t : string) : String c s +:+ t = String c (s +:+ t).
Proof. reflexivity. Qed.

Lemma append_nil (t : string) : "" +:+ t = t.
Proof. reflexivity. Qed.

Lemma concat_cons (l : string) (ls : list string) :
  String.concat "" (l :: ls) = l +:+ String.concat "" ls.
Proof.
  destruct ls as [|l' ls]; cbn [String.concat]; [|done].
  induction l as [|c l IH]; [done|]. by rewrite append_cons, <- IH.
Qed.

(** The lines, put back together, are the text. *)
Lemma readlines_concat s : String.concat "" (readlines s) = s.
Proof.
  induction s as [|c r IH]; [done|].
  cbn [readlines]. case_decide.
  - by rewrite concat_cons, append_cons, append_nil, IH.
  - destruct (readlines r) as [|l ls] eqn:E.
    + cbn in IH. by subst r.
    + rewrite concat_cons in *. by rewrite append_cons, IH.
Qed.

(** Every element [readlines] returns is a line. *)
Lemma readlines_is_line s : Forall (fun l => is_line l = true) (readlines s).
Proof.
  induction s as [|c r IH]; [constructor|].
  cbn [readlines]. case_decide as Hc.
  - by constructor.
  - destruct (readlines r) as [|l ls]; [by repeat constructor|].
    apply Forall_cons in IH as [Hl Hls]. constructor; [|done].
    destruct l as [|c' l']; [done|].
    cbn [is_line]. cbn [is_line] in Hl. by rewrite decide_False.
Qed.

Example dataset_two_lines :
  CustomDataset__init__ file_two_lines = mkCustomDataset ["a"; "b"].
Proof. reflexivity. Qed.

Lemma lstrip_spec s :
  exists a, s = a +:+ lstrip s /\ all_space a = true /\
            starts_with_space (lstrip s) = false.
Proof.
  induction s as [|c r (a & Heq & Ha & Hs)]; [by exists ""|].
  cbn [lstrip]. destruct (isspace c) eqn:Ec.
  - exists (String c a). rewrite append_cons, <- Heq.
    cbn [all_space]. by rewrite Ec, Ha.
  - exists "". rewrite append_nil. cbn [all_space starts_with_space].
    by rewrite Ec.
Qed.

Lemma rstrip_spec s :
  exists b, s = rstrip s +:+ b /\ all_space b = true /\
            ends_with_space (rstrip s) = false.
Proof.
  induction s as [|c r (b & Heq & Hb & He)]; [by exists ""|].
  cbn [rstrip]. destruct (rstrip r) as [|c' r'] eqn:Er.
  - rewrite append_nil in Heq. subst b.
    destruct (isspace c) eqn:Ec.
    + exists (String c r). rewrite append_nil. cbn [all_space].
      by rewrite Ec, Hb.
    + exists r. rewrite append_cons, append_nil.
      cbn [ends_with_space]. by rewrite Ec.
  - exists b. rewrite append_cons, <- Heq. by cbn [ends_with_space].
Qed.

(** Stripping on the right keeps a first character that is not whitespace. *)
Lemma rstrip_starts s :
  Text.starts_with_space s = false -> Text.starts_with_space (rstrip s) = false.
Proof.
  destruct s as [|c r]; [done|]. cbn [rstrip Text.starts_with_space]. intros Hc.
  destruct (rstrip r); [by rewrite Hc|done].
Qed.

(** What [strip] returns: the line without a whitespace prefix and a
    whitespace suffix, and neither end of the result is whitespace. *)
Lemma strip_spec l :
  exists a b, l = a ++ strip l ++ b /\
    Text.all_space a = true /\ Text.all_space b = true /\
    Text.starts_with_space (strip l) = false /\
    Text.ends_with_space (strip l) = false.
Proof.
  destruct (lstrip_spec l) as (a & Hl & Ha & Hs).
  destruct (rstrip_spec (lstrip l)) as (b & Hr & Hb & He).
  exists a, b. unfold strip. rewrite <- Hr, <- Hl.
  repeat split; try done. by apply rstrip_starts.
Qed.

Lemma getitem_in_range {A} (l : list A) (i : nat) (a : A) :
  l !! i = Some a -> Py_list.getitem l (Z.of_nat i) = Ok a.
Proof.
  intros Hi. unfold Py_list.getitem.
  destruct (decide (Z.of_nat i < 0)) as [?|_]; [lia|].
  destruct (decide (Z.of_nat i < 0)) as [?|_]; [lia|].
  by rewrite Nat2Z.id, Hi.
Qed.

End Dataset.

(** C4 (as stated, refuted).  The file holding the single line
    ["  a" LF] gives a dataset of length 1 whose element 0 is ["a"]: the
    two leading blanks are removed as well.  Removing only the trailing
    whitespace would leave ["  a"]. *)
Lemma dataset_strips_leading_whitespace :
  Text.readlines (Text.universal_newlines file_blank_blank_a)
    !! 0%nat = Some file_blank_blank_a /\
  CustomDataset__getitem__ (CustomDataset__init__ file_blank_blank_a) 0
    = Ok "a"%string /\
  Text.rstrip file_blank_blank_a = "  a"%string /\
  CustomDataset__getitem__ (CustomDataset__init__ file_blank_blank_a) 0
    <> Ok (Text.rstrip file_blank_blank_a).
Proof. repeat split. discriminate. Qed.

(** C4 (amended).  For every text file, the dataset constructed from it has
    length equal to the file's line count, and for every index [i] in
    range, element access at [i] returns line [i] with its leading and
    trailing whitespace removed: the line is [a ++ t ++ b] for the element
    [t] and whitespace strings [a] and [b], and [t] neither begins nor
    ends with whitespace. *)
Theorem dataset_len_getitem (file : string) :
  CustomDataset__len__ (CustomDataset__init__ file)
    = Text.line_count (Text.universal_newlines file) /\
  forall i : nat,
    (i < CustomDataset__len__ (CustomDataset__init__ file))%nat ->
    exists line t a b,
      Text.readlines (Text.universal_newlines file) !! i = Some line /\
      CustomDataset__getitem__ (CustomDataset__init__ file) (Z.of_nat i)
        = Ok t /\
      line = (a +:+ t +:+ b)%string /\
      Text.all_space a = true /\ Text.all_space b = true /\
      Text.starts_with_space t = false /\ Text.ends_with_space t = false.
Proof.
  set (text := Text.universal_newlines file).
  assert (Hlen : CustomDataset__len__ (CustomDataset__init__ file)
                 = Text.line_count text).
  { unfold CustomDataset__len__, CustomDataset__init__. cbn [data].
    by rewrite length_fmap, readlines_length. }
  split; [done|]. intros i Hi.
  rewrite Hlen, <- readlines_length in Hi.
  destruct (lookup_lt_is_Some_2 _ _ Hi) as [line Hline].
  destruct (strip_spec line) as (a & b & Heq & Ha & Hb & Hs & He).
  exists line, (Text.strip line), a, b.
  split; [done|]. split; [|done].
  apply getitem_in_range.
  unfold CustomDataset__init__. cbn [data]. fold text.
  by rewrite list_lookup_fmap, Hline.
Qed.

Lemma dataset_len_getitem_witness :
  exists line t a b,
    Text.readlines (Text.universal_newlines file_two_lines) !! 1%nat
      = Some line /\
    CustomDataset__getitem__ (CustomDataset__init__ file_two_lines) 1
      = Ok t /\
    line = (a +:+ t +:+ b)%string /\
    Text.all_space a = true /\ Text.all_space b = true /\
    Text.starts_with_space t = false /\ Text.ends_with_space t = false.
Proof.
  apply (proj2 (dataset_len_getitem file_two_lines) 1%nat).
  vm_compute. lia.
Defined.


(** ** The pretrained-weight loader *)

Section Weights.

Implicit Types model pretrained_dict : gmap string Param.

(** The dictionary handed to [load_state_dict]. *)
Lemma merged_lookup model pretrained_dict k :
  (filter (fun kv => kv.1 ∈ dom model) pretrained_dict ∪ model) !! k =
    match model !! k with
    | Some v => Some (default v (pretrained_dict !! k))
    | None => None
    end.
Proof.
  destruct (model !! k) as [v|] eqn:Hm.
  - destruct (pretrained_dict !! k) as [w|] eqn:Hp; cbn.
    + apply lookup_union_Some_l, map_lookup_filter_Some.
      split; [done|]. cbn. apply elem_of_dom. by exists v.
    + rewrite lookup_union_r; [done|].
      apply map_lookup_filter_None. left. done.
  - apply lookup_union_None. split; [|done].
    apply map_lookup_filter_None. right. intros w _. cbn.
    by rewrite not_elem_of_dom.
Qed.

Lemma merged_dom model pretrained_dict :
  dom (filter (fun kv => kv.1 ∈ dom model) pretrained_dict ∪ model)
    = dom model.
Proof.
  apply set_eq. intros k. rewrite !elem_of_dom, merged_lookup.
  destruct (model !! k); [|done]. split; eauto.
Qed.

Lemma load_state_dict_ok model d :
  dom d = dom model ->
  (forall k param, model !! k = Some param ->
     shape <$> d !! k = Some (shape param)) ->
  nn.load_state_dict model d = Ok d.
Proof.
  intros Hdom Hshape. unfold nn.load_state_dict.
  case_decide as Hno; [done|]. destruct Hno. split; [done|].
  intros k param Hk. by apply Hshape.
Qed.

End Weights.

(** The key both have is updated, the key only the model has is kept, and
    the key only the file has is dropped. *)
Example load_two_params :
  load_pretrained_weights state_two_params loaded_two_params =
    Ok (<["w"%string := mkParam [2%nat] [7%Q; 8%Q]]>
          (<["b"%string := mkParam [1%nat] [5%Q]]> ∅)).
Proof. vm_compute. reflexivity. Qed.

(** C5 (as stated, refuted).  The model has one parameter ["w"] of shape
    [[2]]; the loaded mapping has ["w"] with shape [[3]].  The key passes the
    filter, and [load_state_dict] refuses the tensor: an error is raised for
    this shape mismatch. *)
Lemma load_pretrained_weights_shape_mismatch_raises :
  load_pretrained_weights
    {[ "w"%string := mkParam [2%nat] [1%Q; 2%Q] ]}
    {[ "w"%string := mkParam [3%nat] [7%Q; 8%Q; 9%Q] ]}
  = Raise RuntimeError.
Proof. vm_compute. reflexivity. Qed.

(** C5 (amended).  For every loaded weight mapping and every live model such
    that every key of both carries tensors of the same shape, the loader
    returns without error; it updates exactly the model parameters whose
    keys appear in both mappings and leaves every parameter whose key is
    absent from the loaded mapping unchanged; keys of the loaded mapping
    that the model does not have are discarded, whatever their number (no
    error is raised for a name mismatch). *)
Theorem load_pretrained_weights_partial
    (model pretrained_dict : gmap string Param) :
  (forall k param w,
     model !! k = Some param -> pretrained_dict !! k = Some w ->
     shape w = shape param) ->
  exists model',
    load_pretrained_weights model pretrained_dict = Ok model' /\
    dom model' = dom model /\
    (forall k w, k ∈ dom model -> pretrained_dict !! k = Some w ->
       model' !! k = Some w) /\
    (forall k, pretrained_dict !! k = None -> model' !! k = model !! k).
Proof.
  intros Hshape. unfold load_pretrained_weights.
  eexists. split; [|split; [apply merged_dom|split]].
  - apply load_state_dict_ok; [apply merged_dom|].
    intros k param Hk. rewrite merged_lookup, Hk. cbn. f_equal.
    destruct (pretrained_dict !! k) as [w|] eqn:Hp; [|done].
    cbn. by eapply Hshape.
  - intros k w [v Hk]%elem_of_dom Hp. by rewrite merged_lookup, Hk, Hp.
  - intros k Hp. rewrite merged_lookup, Hp. by destruct (model !! k).
Qed.

Lemma load_pretrained_weights_partial_witness :
  exists model',
    load_pretrained_weights state_two_params loaded_two_params = Ok model' /\
    dom model' = dom state_two_params /\
    (forall k w, k ∈ dom state_two_params ->
       loaded_two_params !! k = Some w -> model' !! k = Some w) /\
    (forall k, loaded_two_params !! k = None ->
       model' !! k = state_two_params !! k).
Proof.
  apply load_pretrained_weights_partial.
  intros k param w Hm Hp. unfold state_two_params, loaded_two_params in *.
  destruct (decide (k = "w"%string)) as [->|Hw].
  - rewrite lookup_insert_eq in Hm. rewrite lookup_insert_eq in Hp.
    by simplify_eq.
  - rewrite lookup_insert_ne in Hm by done.
    rewrite lookup_insert_ne in Hp by done.
    destruct (decide (k = "b"%string)) as [->|Hb].
    + rewrite lookup_insert_eq in Hm. by rewrite lookup_insert_ne in Hp.
    + by rewrite lookup_insert_ne in Hm.
Defined.
(** ** Construction of the blocks *)

Lemma bind_Ok {A B} (m : result A) (f : A -> result B) (b : B) :
  m ≫= f = Ok b -> exists a, m = Ok a /\ f a = Ok b.
Proof. destruct m as [a|e]; cbn; [eauto|discriminate]. Qed.

(** Split a hypothesis [x ← m; k = Ok b] into [m = Ok a] and [k a = Ok b]. *)
Ltac bind_inv H a Ha :=
  apply bind_Ok in H; destruct H as (a & Ha & H).

Section Construction.

Context `{Torch}.

Lemma nn_Conv2d_inv i o k s pd g m :
  nn_Conv2d i o k s pd g = Ok m -> m = Conv2d i o k s pd g.
Proof. unfold nn_Conv2d. intros Hm. bind_inv Hm u Hu. by injection Hm. Qed.

Lemma nn_BatchNorm2d_inv n m : nn_BatchNorm2d n = Ok m -> m = BatchNorm2d n.
Proof. unfold nn_BatchNorm2d. intros Hm. bind_inv Hm u Hu. by injection Hm. Qed.

Lemma nn_BatchNorm1d_inv n m : nn_BatchNorm1d n = Ok m -> m = BatchNorm1d n.
Proof. unfold nn_BatchNorm1d. intros Hm. bind_inv Hm u Hu. by injection Hm. Qed.

Lemma nn_Linear_inv i o b m : nn_Linear i o b = Ok m -> m = Linear i o b.
Proof. unfold nn_Linear. intros Hm. bind_inv Hm u Hu. by injection Hm. Qed.

Lemma depthwise_conv_inv inp oup kernel_size stride relu m :
  depthwise_conv inp oup kernel_size stride relu = Ok m ->
  m = Sequential [
        Conv2d inp oup kernel_size stride (kernel_size `div` 2) inp;
        BatchNorm2d oup;
        if relu then ReLU else Sequential []].
Proof.
  unfold depthwise_conv. intros Hm. bind_inv Hm conv Hconv.
  bind_inv Hm bn Hbn. injection Hm as <-.
  by rewrite (nn_Conv2d_inv _ _ _ _ _ _ _ Hconv), (nn_BatchNorm2d_inv _ _ Hbn).
Qed.

Lemma SELayer__init__inv channel reduction se :
  SELayer__init__ channel reduction = Ok se ->
  exists r,
    Py.floordiv channel reduction = Ok r /\
    se = SELayer AdaptiveAvgPool2d_1
           (Sequential [Linear channel r true; ReLU; Linear r channel true]).
Proof.
  unfold SELayer__init__. intros Hse. bind_inv Hse r Hr.
  bind_inv Hse fc1 Hfc1. bind_inv Hse fc2 Hfc2. injection Hse as <-.
  exists r. split; [done|].
  by rewrite (nn_Linear_inv _ _ _ _ Hfc1), (nn_Linear_inv _ _ _ _ Hfc2).
Qed.

(** A dual-path module that was built, taken apart. *)
Lemma GhostModule__init__inv inp oup kernel_size ratio dw_size stride relu
    gm :
  GhostModule__init__ inp oup kernel_size ratio dw_size stride relu = Ok gm ->
  ratio <> 0 /\
  gm =
    let init_channels := Qceiling (inject_Z oup / inject_Z ratio) in
    GhostModule oup
      (Sequential [
         Conv2d inp init_channels kernel_size stride
           (kernel_size `div` 2) 1;
         BatchNorm2d init_channels;
         if relu then ReLU else Sequential []])
      (Sequential [
         Conv2d init_channels (init_channels * (ratio - 1)) dw_size 1
           (dw_size `div` 2) init_channels;
         BatchNorm2d (init_channels * (ratio - 1));
         if relu then ReLU else Sequential []]).
Proof.
  unfold GhostModule__init__, Py.ceil_div. intros Hgm.
  destruct (decide (ratio = 0)) as [|Hr]; [discriminate|].
  cbn [mbind result_bind] in Hgm.
  bind_inv Hgm c1 Hc1. bind_inv Hgm b1 Hb1.
  bind_inv Hgm c2 Hc2. bind_inv Hgm b2 Hb2. injection Hgm as <-.
  split; [done|]. cbv zeta.
  by rewrite (nn_Conv2d_inv _ _ _ _ _ _ _ Hc1), (nn_BatchNorm2d_inv _ _ Hb1),
    (nn_Conv2d_inv _ _ _ _ _ _ _ Hc2), (nn_BatchNorm2d_inv _ _ Hb2).
Qed.


(** A built block, taken apart. *)
Lemma built_block_inv inp hidden_dim oup kernel_size stride use_se block :
  GhostBottleneck__init__ inp hidden_dim oup kernel_size stride use_se
    = Ok block ->
  exists expand dw se project,
    (stride = 1 \/ stride = 2) /\
    GhostModule__init__ inp hidden_dim 1 2 3 1 true = Ok expand /\
    (if decide (stride = 2)
     then depthwise_conv hidden_dim hidden_dim kernel_size stride false
     else mret (Sequential [])) = Ok dw /\
    (if use_se then SELayer__init__ hidden_dim 4 else mret (Sequential []))
      = Ok se /\
    GhostModule__init__ hidden_dim oup 1 2 3 1 false = Ok project /\
    block =
      GhostBottleneck
        (Sequential [expand; dw; se; project])
        (if decide (stride = 1 /\ inp = oup) then Sequential []
         else Sequential [
                Sequential [Conv2d inp inp 3 stride 1 inp; BatchNorm2d inp;
                            Sequential []];
                Conv2d inp oup 1 1 0 1; BatchNorm2d oup]).
Proof.
  unfold GhostBottleneck__init__. case_decide as Hs; [|discriminate].
  intros Hinit. bind_inv Hinit expand Hexpand. bind_inv Hinit dw Hdw.
  bind_inv Hinit se Hse. bind_inv Hinit project Hproject.
  bind_inv Hinit shortcut Hshort. injection Hinit as <-.
  exists expand, dw, se, project. repeat (split; [done|]).
  f_equal. destruct (decide (stride = 1 /\ inp = oup)).
  - by injection Hshort.
  - bind_inv Hshort d1 Hd1. bind_inv Hshort pw Hpw. bind_inv Hshort bn Hbn.
    injection Hshort as <-.
    by rewrite (depthwise_conv_inv _ _ _ _ _ _ Hd1),
      (nn_Conv2d_inv _ _ _ _ _ _ _ Hpw), (nn_BatchNorm2d_inv _ _ Hbn).
Qed.

End Construction.

(** *** Construction with a library that accepts positive sizes *)

Section Accepted.

Context `{TorchAccepts}.

Lemma nn_Conv2d_returns i o k s pd g :
  0 < i -> 0 < o -> 0 < k -> 0 < s -> 0 <= pd -> 0 < g ->
  (g | i) -> (g | o) ->
  nn_Conv2d i o k s pd g = Ok (Conv2d i o k s pd g).
Proof. intros. unfold nn_Conv2d. by rewrite Conv2d_accepts. Qed.

Lemma nn_BatchNorm2d_returns n :
  0 < n -> nn_BatchNorm2d n = Ok (BatchNorm2d n).
Proof. intros. unfold nn_BatchNorm2d. by rewrite BatchNorm2d_accepts. Qed.

Lemma nn_BatchNorm1d_returns n :
  0 < n -> nn_BatchNorm1d n = Ok (BatchNorm1d n).
Proof. intros. unfold nn_BatchNorm1d. by rewrite BatchNorm1d_accepts. Qed.

Lemma nn_Linear_returns i o b :
  0 < i -> 0 < o -> nn_Linear i o b = Ok (Linear i o b).
Proof. intros. unfold nn_Linear. by rewrite Linear_accepts. Qed.

Lemma depthwise_conv_returns inp kernel_size stride relu :
  0 < inp -> 0 < kernel_size -> 0 < stride ->
  exists m, depthwise_conv inp inp kernel_size stride relu = Ok m.
Proof.
  intros Hi Hk Hs. unfold depthwise_conv.
  rewrite nn_Conv2d_returns, nn_BatchNorm2d_returns
    by (done || lia || (apply Z.div_pos; lia)).
  cbn. eauto.
Qed.

Lemma SELayer__init__returns channel :
  4 <= channel -> exists se, SELayer__init__ channel 4 = Ok se.
Proof.
  intros Hc. unfold SELayer__init__, Py.floordiv.
  rewrite decide_False by done. cbn [mbind result_bind].
  assert (0 < channel `div` 4) by (apply Z.div_str_pos; lia).
  rewrite !nn_Linear_returns by lia. cbn. eauto.
Qed.

(** Twice the rounded-up half of a positive width covers the width. *)
Lemma ceil_half_covers oup :
  1 <= oup ->
  1 <= Qceiling (inject_Z oup / 2) /\ oup <= 2 * Qceiling (inject_Z oup / 2).
Proof.
  intros Houp.
  pose proof (Qle_ceiling (inject_Z oup / 2)) as Hle.
  set (c := Qceiling _) in *.
  assert (Hc : oup <= 2 * c).
  { rewrite Zle_Qle, inject_Z_mult. change (inject_Z 2) with 2%Q.
    half_lra. }
  lia.
Qed.

Lemma GhostModule__init__returns inp oup relu :
  0 < inp -> 0 < oup ->
  exists gm, GhostModule__init__ inp oup 1 2 3 1 relu = Ok gm.
Proof.
  intros Hi Ho. unfold GhostModule__init__, Py.ceil_div.
  rewrite decide_False by done. cbn [mbind result_bind].
  change (inject_Z 2) with 2%Q.
  destruct (ceil_half_covers oup ltac:(lia)) as [Hc _].
  set (c := Qceiling _) in *.
  rewrite (nn_Conv2d_returns inp c 1 1 (1 `div` 2) 1)
    by (done || lia || apply Z.divide_1_l).
  rewrite (nn_BatchNorm2d_returns c) by lia. cbn [mbind result_bind].
  rewrite (nn_Conv2d_returns c (c * (2 - 1)) 3 1 (3 `div` 2) c)
    by (done || lia || (exists 1; lia)).
  rewrite (nn_BatchNorm2d_returns (c * (2 - 1))) by lia. cbn. eauto.
Qed.

(** With stride 1 or 2, positive widths and a positive kernel size the
    block is built; the squeeze-and-excite layer needs 4 channels. *)
Lemma GhostBottleneck__init__returns inp hidden_dim oup kernel_size stride
    (use_se : bool) :
  stride = 1 \/ stride = 2 ->
  0 < inp -> 0 < hidden_dim -> 0 < oup -> 0 < kernel_size ->
  (use_se = true -> 4 <= hidden_dim) ->
  exists block,
    GhostBottleneck__init__ inp hidden_dim oup kernel_size stride use_se
      = Ok block.
Proof.
  intros Hs Hi Hh Ho Hk Hse. unfold GhostBottleneck__init__.
  rewrite decide_True by done.
  destruct (GhostModule__init__returns inp hidden_dim true Hi Hh)
    as [expand ->].
  cbn [mbind result_bind].
  assert (Hdw : exists dw,
            (if decide (stride = 2)
             then depthwise_conv hidden_dim hidden_dim kernel_size stride
                    false
             else mret (Sequential [])) = Ok dw).
  { case_decide; [|by eexists].
    apply depthwise_conv_returns; lia. }
  destruct Hdw as [dw ->]. cbn [mbind result_bind].
  assert (Hsl : exists se,
            (if use_se then SELayer__init__ hidden_dim 4
             else mret (Sequential [])) = Ok se).
  { destruct use_se; [|by eexists]. by apply SELayer__init__returns, Hse. }
  destruct Hsl as [se ->]. cbn [mbind result_bind].
  destruct (GhostModule__init__returns hidden_dim oup false Hh Ho)
    as [project ->].
  cbn [mbind result_bind].
  case_decide; [cbn; eauto|].
  destruct (depthwise_conv_returns inp 3 stride false) as [d1 ->];
    [lia..|].
  cbn [mbind result_bind].
  rewrite nn_Conv2d_returns, nn_BatchNorm2d_returns
    by (done || lia || apply Z.divide_1_l).
  cbn. eauto.
Qed.

End Accepted.
(** ** The widths of the network *)

Section Widths.

Lemma scaled_width_inv c width_mult w :
  scaled_width c width_mult = Ok w -> (4 | w) /\ 4 <= w.
Proof.
  unfold scaled_width. intros Hw. bind_inv Hw v Hv.
  destruct (make_divisible_default_multiple _ 4 w ltac:(lia) Hw)
    as (k & Hk & ->).
  split; [by exists k | lia].
Qed.

Lemma fits_2_64 : Float.fits (inject_Z (2 ^ 64)).
Proof. apply (fits_scaled (2 ^ 52) 12); [reflexivity|lia]. Qed.

Lemma fits_2_964 : Float.fits (inject_Z (2 ^ 964)).
Proof. apply (fits_scaled (2 ^ 52) 912); [reflexivity|lia]. Qed.

(** The product of a table entry and the width multiplier is a finite
    float. *)
Lemma int_mul_float_returns c width_mult :
  Z.abs c <= 2 ^ 64 -> moderate width_mult ->
  exists v,
    Py.int_mul_float c width_mult = Ok v /\ Py.finite (PyFloat v) /\
    (- inject_Z (2 ^ 964) <= Float.to_Q v)%Q /\
    (Float.to_Q v <= inject_Z (2 ^ 964))%Q.
Proof.
  intros Hc (Hvw & Hfw & Hwlo & Hwhi). unfold Py.int_mul_float.
  assert (H64 : 2 ^ 64 <= 2 ^ 1023) by (by apply Z.pow_le_mono_r).
  destruct (py_float_bounded (PyInt c) I)
    as (x & -> & Hvx & Hfx & Hrx & _).
  { cbn [Py.value]. rewrite <- inject_Z_opp, <- Zle_Qle. lia. }
  { cbn [Py.value]. rewrite <- Zle_Qle. lia. }
  cbn [Py.value] in Hrx.
  destruct (rounded_between _ _ _ _ Hrx (fits_opp _ fits_2_64) fits_2_64)
    as (_ & Hxlo & Hxhi).
  { rewrite <- inject_Z_opp, <- Zle_Qle. lia. }
  { rewrite <- Zle_Qle. lia. }
  cbn [mbind result_bind mret result_ret].
  destruct (mul_rounded x width_mult Hvx Hvw Hfx Hfw) as [Hr Hv].
  fold (Float.mul x width_mult) in Hr, Hv.
  assert (HAB : (inject_Z (2 ^ 964) == inject_Z (2 ^ 64) * inject_Z (2 ^ 900))%Q).
  { rewrite <- inject_Z_mult. reflexivity. }
  assert (HA : (0 <= inject_Z (2 ^ 64))%Q) by (by rewrite <- (Zle_Qle 0)).
  assert (HB : (0 <= inject_Z (2 ^ 900))%Q) by (by rewrite <- (Zle_Qle 0)).
  set (A := inject_Z (2 ^ 64)) in *. set (B := inject_Z (2 ^ 900)) in *.
  set (a := Float.to_Q x) in *. set (b := Float.to_Q width_mult) in *.
  destruct (rounded_between _ _ _ _ Hr (fits_opp _ fits_2_964) fits_2_964)
    as (Hf & Hlo & Hhi).
  { rewrite HAB. clearbody A B a b. nra. }
  { rewrite HAB. clearbody A B a b. nra. }
  eexists. split; [done|]. split; [by split|]. done.
Qed.

(** The rounded widths are computed for moderate width multipliers. *)
Lemma scaled_width_returns c width_mult :
  Z.abs c <= 2 ^ 64 -> moderate width_mult ->
  exists w, scaled_width c width_mult = Ok w /\ (4 | w) /\ 4 <= w.
Proof.
  intros Hc Hw. unfold scaled_width.
  destruct (int_mul_float_returns c width_mult Hc Hw)
    as (v & -> & Hfin & Hlo & Hhi).
  cbn [mbind result_bind].
  assert (H964 : (inject_Z (2 ^ 964) <= inject_Z (2 ^ 1023))%Q).
  { rewrite <- Zle_Qle. by apply Z.pow_le_mono_r. }
  destruct (make_divisible_runs (PyFloat v) 4 None Hfin)
    as (half & x & i & _ & _ & _ & _ & _ & _ & _ & _ & _ & _ & Hr).
  { cbn [Py.value]. lra. }
  { cbn [Py.value]. lra. }
  { split; [lia | reflexivity]. }
  eexists. split; [exact Hr|].
  destruct (make_divisible_default_multiple _ 4 _ ltac:(lia) Hr)
    as (k & Hk & Hk4).
  rewrite Hk4. split; [by exists k | lia].
Qed.

End Widths.

(** ** Initialisation of the weights *)

Section Initialize.

Context `{TorchAccepts}.

Lemma initialize_Sequential ms :
  Forall (fun m => initialize_module m = Ok tt) ms ->
  initialize_module (Sequential ms) = Ok tt.
Proof.
  cbn [initialize_module]. induction 1 as [|m ms Hm _ IH]; [done|].
  rewrite Hm. cbn [mbind result_bind]. exact IH.
Qed.

Lemma initialize_GhostBottleneck conv shortcut :
  initialize_module (GhostBottleneck conv shortcut) =
    (initialize_module conv;; initialize_module shortcut).
Proof. reflexivity. Qed.

Lemma initialize_conv_bn_act i o k s pd g n (relu : bool) :
  0 < i -> 0 < o -> 0 < k -> 0 < g -> (g | i) ->
  initialize_module
    (Sequential [Conv2d i o k s pd g; BatchNorm2d n;
                 if relu then ReLU else Sequential []]) = Ok tt.
Proof.
  intros. apply initialize_Sequential. repeat constructor.
  - cbn [initialize_module]. by apply kaiming_normal__accepts.
  - by destruct relu.
Qed.

Lemma initialize_GhostModule inp oup relu gm :
  0 < inp -> 0 < oup ->
  GhostModule__init__ inp oup 1 2 3 1 relu = Ok gm ->
  initialize_module gm = Ok tt.
Proof.
  intros Hi Ho Hgm. apply GhostModule__init__inv in Hgm as [_ ->].
  cbv zeta. change (inject_Z 2) with 2%Q.
  destruct (ceil_half_covers oup ltac:(lia)) as [Hc _].
  set (c := Qceiling _) in *. cbn [initialize_module].
  rewrite !kaiming_normal__accepts
    by (done || lia || apply Z.divide_1_l || (exists 1; lia)).
  by destruct relu.
Qed.

Lemma initialize_built_block inp hidden_dim oup kernel_size stride use_se
    block :
  0 < inp -> 0 < hidden_dim -> 0 < oup -> 0 < kernel_size ->
  GhostBottleneck__init__ inp hidden_dim oup kernel_size stride use_se
    = Ok block ->
  initialize_module block = Ok tt.
Proof.
  intros Hi Hh Ho Hk Hblock.
  apply built_block_inv in Hblock
    as (expand & dw & se & project & Hs & Hexpand & Hdw & Hse & Hproject
        & ->).
  assert (Hconv : initialize_module (Sequential [expand; dw; se; project])
                  = Ok tt).
  { apply initialize_Sequential. repeat constructor.
    - by apply (initialize_GhostModule inp hidden_dim true).
    - destruct (decide (stride = 2)).
      + apply depthwise_conv_inv in Hdw as ->.
        apply (initialize_conv_bn_act _ _ _ _ _ _ _ false);
          done || lia || (exists 1; lia).
      + by injection Hdw as <-.
    - destruct use_se.
      + by apply SELayer__init__inv in Hse as (r & _ & ->).
      + by injection Hse as <-.
    - by apply (initialize_GhostModule hidden_dim oup false). }
  rewrite initialize_GhostBottleneck, Hconv. cbn [mbind result_bind].
  destruct (decide (stride = 1 /\ inp = oup)); [done|].
  apply initialize_Sequential. repeat constructor.
  - apply (initialize_conv_bn_act _ _ _ _ _ _ _ false);
      done || lia || (exists 1; lia).
  - cbn [initialize_module].
    apply kaiming_normal__accepts; done || lia || apply Z.divide_1_l.
Qed.

(** The loop over the table returns for rows that can be built. *)
Lemma GhostNet_blocks_returns cfgs width_mult layers input_channel exp_size :
  moderate width_mult -> Forall buildable cfgs -> 0 < input_channel ->
  Forall (fun m => initialize_module m = Ok tt) layers ->
  exists layers' input_channel' exp_size',
    GhostNet_blocks cfgs width_mult layers input_channel exp_size
      = Ok (layers', input_channel', exp_size') /\
    0 < input_channel' /\
    Forall (fun m => initialize_module m = Ok tt) layers'.
Proof.
  intros Hw Hcfgs. revert layers input_channel exp_size.
  induction Hcfgs as [|row cfgs (Hs & Hk & Hc & He) _ IH];
    intros layers input_channel exp_size Hic Hlayers.
  { by eexists _, _, _. }
  cbn [GhostNet_blocks].
  destruct (scaled_width_returns (cfg_c row) width_mult Hc Hw)
    as (oc & -> & _ & Hoc).
  destruct (scaled_width_returns (cfg_exp_size row) width_mult He Hw)
    as (hc & -> & _ & Hhc).
  cbn [mbind result_bind].
  destruct (GhostBottleneck__init__returns input_channel hc oc (cfg_k row)
              (cfg_s row) (cfg_use_se row)) as [blk Hblk];
    [done|lia..|].
  rewrite Hblk. cbn [mbind result_bind].
  apply IH; [lia|].
  apply Forall_app. split; [done|]. constructor; [|done].
  eapply initialize_built_block; [..|exact Hblk]; lia.
Qed.


(** The stem of the network. *)
Lemma stem_returns width_mult :
  moderate width_mult ->
  exists w,
    scaled_width 16 width_mult = Ok w /\ 4 <= w /\
    nn_Conv2d 3 w 3 2 1 1 = Ok (Conv2d 3 w 3 2 1 1) /\
    nn_BatchNorm2d w = Ok (BatchNorm2d w) /\
    initialize_module (Sequential [Conv2d 3 w 3 2 1 1; BatchNorm2d w; ReLU])
      = Ok tt.
Proof.
  intros Hw.
  destruct (scaled_width_returns 16 width_mult ltac:(by cbn) Hw)
    as (w & Hsw & _ & H4).
  exists w. split; [done|]. split; [done|].
  split; [apply nn_Conv2d_returns; done || lia || apply Z.divide_1_l|].
  split; [apply nn_BatchNorm2d_returns; lia|].
  apply (initialize_conv_bn_act _ _ _ _ _ _ _ true);
    done || lia || apply Z.divide_1_l.
Qed.

End Initialize.

(** The small library instance accepts positive sizes. *)
Lemma toy_torch_accepts : @TorchAccepts toy_torch.
Proof.
  split.
  - intros i o k s pd g Hi Ho Hk Hs Hpd Hg Hgi Hgo. cbn.
    unfold toy_Conv2d__init__.
    rewrite decide_False by lia.
    apply Z.mod_divide in Hgi; [|lia]. apply Z.mod_divide in Hgo; [|lia].
    rewrite decide_False by lia. by rewrite decide_False by lia.
  - intros n Hn. cbn. unfold toy_sizes.
    rewrite decide_True; [done|]. repeat constructor. lia.
  - intros n Hn. cbn. unfold toy_sizes.
    rewrite decide_True; [done|]. repeat constructor. lia.
  - intros i o b Hi Ho. cbn. unfold toy_sizes.
    rewrite decide_True; [done|]. repeat constructor; lia.
  - done.
Qed.

Lemma width_mult_1_moderate : moderate width_mult_1.
Proof. repeat split; discriminate. Qed.






(** ** The forward passes *)

Section Forward.

Context `{TorchShapes}.

Lemma forward_Sequential_nil p x : forward p (Sequential []) x = Ok x.
Proof. reflexivity. Qed.

Lemma forward_GhostModule p oup primary_conv cheap_operation x :
  forward p (GhostModule oup primary_conv cheap_operation) x =
    x1 ← forward (p ++ [Attr "primary_conv"]) primary_conv x;
    x2 ← forward (p ++ [Attr "cheap_operation"]) cheap_operation x1;
    out ← torch.cat1 x1 x2;
    torch.slice1 out oup.
Proof. reflexivity. Qed.

Lemma forward_GhostBottleneck p conv shortcut x :
  forward p (GhostBottleneck conv shortcut) x =
    main ← forward (p ++ [Attr "conv"]) conv x;
    short ← forward (p ++ [Attr "shortcut"]) shortcut x;
    torch.add main short.
Proof. reflexivity. Qed.

Lemma forward_SELayer p avg_pool fc x :
  forward p (SELayer avg_pool fc) x =
    '(b, c, _, _) ← torch.size4 x;
    y ← forward (p ++ [Attr "avg_pool"]) avg_pool x;
    y ← torch.view2 y b c;
    y ← forward (p ++ [Attr "fc"]) fc y;
    y ← torch.view4 y b c 1 1;
    torch.mul x (torch.clamp y 0 1).
Proof. reflexivity. Qed.

Lemma bdim_same a : torch.bdim a a = Ok a.
Proof. unfold torch.bdim. by case_decide. Qed.

Lemma bdim_one_r a : torch.bdim a 1 = Ok a.
Proof. unfold torch.bdim. repeat case_decide; congruence. Qed.

Lemma bidx_in_range a i : (i < a)%nat -> torch.bidx a i = i.
Proof. unfold torch.bidx. case_decide; lia. Qed.

(** The entries of a sum of two maps of one shape. *)
Lemma add_same_shape (a b : Tensor4) :
  torch.same_shape a b ->
  exists o, torch.add (T4 a) (T4 b) = Ok (T4 o) /\
    torch.same_shape o a /\
    forall i j k l, torch.in_range a i j k l ->
      at4 o i j k l = (at4 a i j k l + at4 b i j k l)%Q.
Proof.
  intros (Hb & Hc & Hh & Hw).
  unfold torch.add, torch.binop, torch.binop4.
  rewrite <- Hb, <- Hc, <- Hh, <- Hw, !bdim_same. cbn.
  eexists. split; [done|]. split; [done|].
  intros i j k l (Hi & Hj & Hk & Hl). cbn.
  by rewrite !bidx_in_range.
Qed.

(** A convolution, a normalisation and an optional rectifier in sequence:
    when the stack returns, its input and output are feature maps and the
    output has the channels the convolution was built for. *)
Lemma conv_bn_act_shape p i o k s pd g n (relu : bool) x y :
  forward p (Sequential [Conv2d i o k s pd g; BatchNorm2d n;
                         if relu then ReLU else Sequential []]) x = Ok y ->
  exists x4 y4, x = T4 x4 /\ y = T4 y4 /\
    batch y4 = batch x4 /\ channels y4 = Z.to_nat o.
Proof.
  cbn [forward]. intros Hy.
  bind_inv Hy y1 H1. bind_inv Hy y2 H2. bind_inv Hy y3 H3.
  injection Hy as <-.
  apply Conv2d_shape in H1 as (x4 & y14 & -> & -> & Hb1 & Hc1).
  apply BatchNorm2d_shape in H2
    as (y14' & y24 & [= <-] & -> & Hb2 & Hc2 & _ & _).
  exists x4. destruct relu; cbn in H3; injection H3 as <-.
  - eexists. split; [done|]. split; [done|]. cbn. split; congruence.
  - eexists. split; [done|]. split; [done|]. split; congruence.
Qed.

Lemma slice_stop_covered n stop :
  0 <= stop -> (Z.to_nat stop <= n)%nat -> torch.slice_stop n stop = Z.to_nat stop.
Proof. intros Hs Hn. unfold torch.slice_stop. case_decide; lia. Qed.

End Forward.

(** C3.  A [GhostBottleneck] built with stride 1 and [inp = oup] has the
    empty [Sequential] as shortcut, which returns its input unchanged, so
    the block returns the output of its main path plus the unmodified
    input.  For every other stride and widths the constructor accepts, the
    shortcut is a strided depthwise convolution with its normalisation,
    followed by a pointwise projection and a normalisation.  In all cases
    the block returns the sum of the main path and of the shortcut path,
    entry by entry when the two have one shape. *)
Theorem GhostBottleneck_shortcut `{Torch}
    (inp hidden_dim oup kernel_size stride : Z) (use_se : bool)
    (block : Module) :
  GhostBottleneck__init__ inp hidden_dim oup kernel_size stride use_se
    = Ok block ->
  exists conv shortcut,
    block = GhostBottleneck conv shortcut /\
    (stride = 1 /\ inp = oup ->
       shortcut = Sequential [] /\
       (forall p x, forward p shortcut x = Ok x) /\
       (forall p x, forward p block x =
          main ← forward (p ++ [Attr "conv"]) conv x; torch.add main x)) /\
    (~ (stride = 1 /\ inp = oup) ->
       shortcut = Sequential [
         Sequential [Conv2d inp inp 3 stride 1 inp; BatchNorm2d inp;
                     Sequential []];
         Conv2d inp oup 1 1 0 1;
         BatchNorm2d oup]) /\
    (forall p x, forward p block x =
       main ← forward (p ++ [Attr "conv"]) conv x;
       short ← forward (p ++ [Attr "shortcut"]) shortcut x;
       torch.add main short) /\
    (forall p x main short,
       forward (p ++ [Attr "conv"]) conv x = Ok (T4 main) ->
       forward (p ++ [Attr "shortcut"]) shortcut x = Ok (T4 short) ->
       torch.same_shape main short ->
       exists out, forward p block x = Ok (T4 out) /\
         torch.same_shape out main /\
         forall i j k l, torch.in_range main i j k l ->
           at4 out i j k l = (at4 main i j k l + at4 short i j k l)%Q).
Proof.
  intros Hinit.
  apply built_block_inv in Hinit
    as (expand & dw & se & project & Hs & _ & _ & _ & _ & ->).
  eexists _, _. split; [done|].
  split; [|split; [|split]].
  - intros Hid. rewrite decide_True by done.
    split; [done|]. split; [done|]. intros p x.
    rewrite forward_GhostBottleneck, forward_Sequential_nil.
    by destruct (forward _ _ x).
  - intros Hnid. by rewrite decide_False.
  - done.
  - intros p x main short Hmain Hshort Hshape.
    rewrite forward_GhostBottleneck, Hmain. cbn [mbind result_bind]. rewrite Hshort.
    cbn [mbind result_bind].
    destruct (add_same_shape main short Hshape) as (o & Ho & Hso & Hent).
    eauto.
Qed.

Lemma GhostBottleneck_shortcut_witness :
  exists conv shortcut,
    @GhostBottleneck__init__ toy_torch 16 16 16 3 1 false
      = Ok (GhostBottleneck conv shortcut) /\
    shortcut = Sequential [] /\
    (forall p x, @forward toy_torch p shortcut x = Ok x).
Proof.
  destruct (@GhostBottleneck_shortcut toy_torch 16 16 16 3 1 false _ eq_refl)
    as (conv & shortcut & Hblock & Hid & _).
  exists conv, shortcut. rewrite <- Hblock.
  destruct (Hid (conj eq_refl eq_refl)) as (Hs & Hfwd & _).
  split; [reflexivity|]. split; [exact Hs | exact Hfwd].
Defined.

(** The small library instance keeps the shape laws. *)
Lemma toy_torch_shapes : @TorchShapes toy_torch.
Proof.
  split.
  - intros p i o k s pd g [x2|x4] y; cbn; [discriminate|].
    intros [= <-]. by eexists _, _.
  - intros p n [x2|x4] y; cbn; [discriminate|].
    intros [= <-]. by eexists _, _.
  - intros p i o b x2 y. cbn. intros [= <-]. by eexists.
Qed.



(** ** The squeeze-and-excite layer *)

Section Excitation.

Context `{TorchShapes}.

Lemma clamp1_unit q : (0 <= torch.clamp1 0 1 q)%Q /\ (torch.clamp1 0 1 q <= 1)%Q.
Proof.
  unfold torch.clamp1.
  destruct (Py.lt q 0) eqn:E0.
  - destruct (Py.lt 1 0) eqn:E1; [by apply py_lt_true in E1|].
    split; [apply Qle_refl | discriminate].
  - apply py_lt_false in E0.
    destruct (Py.lt 1 q) eqn:E1; [split; discriminate|].
    by apply py_lt_false in E1.
Qed.

(** [torch.clamp] on an entry clamps it. *)
Lemma clamp1_clamped lo hi q :
  (lo <= hi)%Q -> clamped lo hi q (torch.clamp1 lo hi q).
Proof.
  intros Hlh. unfold clamped, torch.clamp1.
  destruct (Py.lt q lo) eqn:E0.
  - apply py_lt_true in E0.
    destruct (Py.lt hi lo) eqn:E1; [apply py_lt_true in E1; lra|].
    split; [done|]. split; intros; lra.
  - apply py_lt_false in E0.
    destruct (Py.lt hi q) eqn:E1.
    + apply py_lt_true in E1. split; [intros; lra|]. split; [done|].
      intros; lra.
    + apply py_lt_false in E1. split; [intros; lra|].
      split; [intros; lra | done].
Qed.

(** The two projections of the layer, applied to an (N, C) matrix. *)
Lemma fc_shape p channel r v y :
  forward p (Sequential [Linear channel r true; ReLU; Linear r channel true])
    (T2 v) = Ok y ->
  exists y2, y = T2 y2 /\ rows y2 = rows v /\ cols y2 = Z.to_nat channel.
Proof.
  cbn [forward]. intros Hy.
  bind_inv Hy y1 H1. bind_inv Hy y2 H2. bind_inv Hy y3 H3.
  injection Hy as <-.
  apply Linear_shape in H1 as (t1 & -> & Hr1 & Hc1).
  cbn in H2. injection H2 as <-.
  apply Linear_shape in H3 as (t3 & -> & Hr3 & Hc3).
  exists t3. cbn in Hr3. split; [done|]. split; congruence.
Qed.

End Excitation.

(** C9.  Whenever the forward pass of an [SELayer] returns, its input is a
    feature map and its output is a feature map of the same shape in which
    every entry is the input entry multiplied by the scale of its sample
    and channel.  The scale is the output [g] of the two projections,
    applied to the pooled input, clamped to [0, 1]: it is 0 when [g] is
    negative, 1 when [g] is above 1 and [g] itself otherwise; so it lies
    between 0 and 1.  The forward pass returns, for a map with a non-empty
    spatial extent and the channels the layer was built for, whenever the
    two projections return. *)
Theorem SELayer_excitation `{TorchShapes}
    (channel reduction : Z) (se : Module) :
  SELayer__init__ channel reduction = Ok se ->
  exists avg_pool fc,
    se = SELayer avg_pool fc /\
    (forall p x out,
       forward p se x = Ok out ->
       exists x4 v y o,
         x = T4 x4 /\
         (t ← torch.adaptive_avg_pool2d_1 (T4 x4);
          torch.view2 t (batch x4) (channels x4)) = Ok (T2 v) /\
         forward (p ++ [Attr "fc"]) fc (T2 v) = Ok (T2 y) /\
         out = T4 o /\ torch.same_shape o x4 /\
         forall i j k l, torch.in_range x4 i j k l ->
           exists s,
             clamped 0 1 (at2 y i j) s /\ (0 <= s)%Q /\ (s <= 1)%Q /\
             at4 o i j k l = (at4 x4 i j k l * s)%Q) /\
    (forall p x4,
       height x4 <> 0%nat -> width x4 <> 0%nat ->
       channels x4 = Z.to_nat channel ->
       exists v,
         (t ← torch.adaptive_avg_pool2d_1 (T4 x4);
          torch.view2 t (batch x4) (channels x4)) = Ok (T2 v) /\
         forall y, forward (p ++ [Attr "fc"]) fc (T2 v) = Ok y ->
           exists out, forward p se (T4 x4) = Ok out).
Proof.
  intros Hinit. apply SELayer__init__inv in Hinit as (r & Hr & ->).
  eexists _, _. split; [done|]. split.
  - intros p x out Hout. rewrite forward_SELayer in Hout.
    destruct x as [x2|x4]; [discriminate|].
    cbn [torch.size4 mbind result_bind] in Hout.
    bind_inv Hout pooled Hpool. bind_inv Hout v Hv.
    bind_inv Hout y Hy. bind_inv Hout y4 Hy4.
    cbn [forward torch.adaptive_avg_pool2d_1] in Hpool.
    destruct (decide _) as [|Hhw]; [discriminate|].
    injection Hpool as <-.
    unfold torch.view2 in Hv. destruct (decide _) as [_|]; [|discriminate].
    injection Hv as <-.
    pose proof Hy as Hfc.
    apply fc_shape in Hy as (y2 & -> & Hrows & Hcols).
    cbn [rows] in Hrows.
    unfold torch.view4 in Hy4.
    destruct (decide _) as [Hnum|]; [|discriminate].
    injection Hy4 as <-.
    unfold torch.mul, torch.clamp, torch.map, torch.binop, torch.binop4
      in Hout.
    cbn [batch channels height width at4] in Hout.
    rewrite !bdim_same, !bdim_one_r in Hout.
    cbn [mbind result_bind mret result_ret] in Hout.
    injection Hout as <-.
    eexists x4, _, y2, _.
    split; [done|]. split.
    { cbn [torch.adaptive_avg_pool2d_1]. rewrite decide_False by done.
      cbn [mbind result_bind]. unfold torch.view2.
      cbn [torch.numel batch channels height width].
      by rewrite decide_True by lia. }
    split; [exact Hfc|]. split; [done|]. split; [done|].
    intros i j k l (Hi & Hj & Hk & Hl).
    exists (torch.clamp1 0 1 (at2 y2 i j)).
    split; [by apply clamp1_clamped|].
    split; [apply clamp1_unit|]. split; [apply clamp1_unit|].
    cbn [at4]. rewrite !bidx_in_range by done.
    assert (Hc : cols y2 = channels x4).
    { cbn [torch.numel] in Hnum. rewrite Hrows in Hnum. nia. }
    assert (Hidx : ((((i * channels x4 + j) * 1 + torch.bidx 1 k) * 1
                     + torch.bidx 1 l) = i * channels x4 + j)%nat).
    { unfold torch.bidx. rewrite !decide_True by done. lia. }
    rewrite Hidx, Hc.
    rewrite Nat.div_add_l, Nat.div_small, Nat.add_0_r by lia.
    rewrite Nat.add_comm, Nat.Div0.mod_add, Nat.mod_small by lia.
    reflexivity.
  - intros p x4 Hh Hw Hch.
    assert (Hpool : torch.adaptive_avg_pool2d_1 (T4 x4) =
      Ok (T4 (mkT4 (batch x4) (channels x4) 1 1 (fun i j _ _ =>
        (torch.sum (height x4)
           (fun k => torch.sum (width x4) (fun l => at4 x4 i j k l))
         / inject_Z (Z.of_nat (height x4 * width x4)))%Q)))).
    { cbn [torch.adaptive_avg_pool2d_1]. by rewrite decide_False by tauto. }
    rewrite Hpool. cbn [mbind result_bind].
    unfold torch.view2 at 1. cbn [torch.numel batch channels height width].
    rewrite decide_True by lia.
    eexists. split; [done|]. intros y Hy.
    rewrite forward_SELayer. cbn [torch.size4 mbind result_bind].
    change (forward (p ++ [Attr "avg_pool"]) AdaptiveAvgPool2d_1 (T4 x4))
      with (torch.adaptive_avg_pool2d_1 (T4 x4)).
    rewrite Hpool. cbn [mbind result_bind].
    unfold torch.view2 at 1. cbn [torch.numel batch channels height width].
    rewrite decide_True by lia. cbn [mbind result_bind].
    pose proof Hy as Hfc.
    apply fc_shape in Hfc as (y2 & -> & Hrows & Hcols). cbn [rows] in Hrows.
    rewrite Hy. cbn [mbind result_bind].
    unfold torch.view4. cbn [torch.numel].
    rewrite decide_True by (rewrite Hrows, Hcols, <- Hch; lia).
    cbn [mbind result_bind].
    unfold torch.mul, torch.clamp, torch.map, torch.binop, torch.binop4.
    cbn [batch channels height width at4].
    rewrite !bdim_same, !bdim_one_r.
    cbn [mbind result_bind mret result_ret]. eauto.
Qed.

(** In the small library the projections return [3/2], which is clamped
    to 1: the entry 3 of the input stays 3. *)
Lemma SELayer_excitation_witness :
  exists o,
    toy_se_output = T4 o /\
    at4 o 1%nat 2%nat 0%nat 1%nat = (3 * 1)%Q.
Proof.
  destruct (@SELayer_excitation toy_torch toy_torch_shapes 3 4 toy_se_layer
              eq_refl)
    as (avg_pool & fc & Hse & Hscale & _).
  injection Hse as <- <-.
  destruct (Hscale [] toy_input toy_se_output eq_refl)
    as (x4 & v & y & o & Hx & _ & Hfc & Hout & _ & Hent).
  injection Hx as <-. injection Hfc as <-.
  destruct (Hent 1%nat 2%nat 0%nat 1%nat) as (s & (_ & Hhi & _) & _ & _ & Hmul).
  { unfold torch.in_range. cbn. lia. }
  exists o. split; [exact Hout|].
  rewrite Hmul, (Hhi eq_refl). reflexivity.
Defined.
(** * Part III: further properties of the code *)

(** ** More on [_make_divisible] *)

(** X1.  With [min_value] omitted and a positive divisor [d], among the
    integer widths [v] with [2 * v + d] below [2^53] (so that adding [d/2]
    to [v] is exact), those that [_make_divisible] returns unchanged are
    exactly the multiples of [d] that are at least [d]. *)
Theorem make_divisible_fixed_points (v d : Z) :
  0 < d -> 2 * v + d < 2 ^ 53 ->
  (_make_divisible (PyInt v) d None = Ok v <-> (d | v) /\ d <= v).
Proof.
  intros Hd Hb. split.
  - intros Hv.
    destruct (make_divisible_default_multiple (PyInt v) d v Hd Hv)
      as (k & Hk & Hkd).
    split; [by exists k | nia].
  - intros [[k ->] Hle]. apply make_divisible_fixed; [done | nia | done].
Qed.

Lemma make_divisible_fixed_points_witness :
  _make_divisible (PyInt 24) 4 None = Ok 24 <-> (4 | 24) /\ 4 <= 24.
Proof. apply make_divisible_fixed_points; [lia | reflexivity]. Defined.

(** X3.  With [min_value] omitted, a positive divisor [d] and an integer
    width [v] above [5 * d] with [2 * v + d] below [2^53], the function
    returns the multiple of [d] nearest to [v], ties going upward: the
    result [r] is a multiple of [d] with [v - d/2 < r <= v + d/2], and the
    90% correction does not apply. *)
Theorem make_divisible_nearest (v d : Z) :
  0 < d -> 5 * d < v -> 2 * v + d < 2 ^ 53 ->
  exists r,
    _make_divisible (PyInt v) d None = Ok r /\
    (d | r) /\ 2 * v - d < 2 * r /\ 2 * r <= 2 * v + d.
Proof.
  intros Hd Hv Hb.
  destruct (make_divisible_int v d None Hd ltac:(lia) Hb)
    as (x & _ & Hfp & Hrp & ->).
  cbn [default]. cbv zeta.
  pose proof (Z.div_mod d 2 ltac:(lia)) as Hd2.
  pose proof (Z.mod_pos_bound d 2 ltac:(lia)) as Hm2.
  pose proof (Z.div_mod (v + d `div` 2) d ltac:(lia)) as Hdm.
  pose proof (Z.mod_pos_bound (v + d `div` 2) d Hd) as Hmd.
  set (q := (v + d `div` 2) `div` d) in *.
  assert (Hq : 5 <= q) by nia.
  rewrite Z.max_r by nia.
  assert (Hlo : 2 * v - d < 2 * (q * d)).
  { destruct (decide (d `mod` 2 = 0)); [nia|].
    assert (d `mod` 2 = 1) as Hodd by lia. nia. }
  assert (Hhi : 2 * (q * d) <= 2 * v + d) by nia.
  change (2 ^ 53) with 9007199254740992 in *.
  destruct (Py.lt _ _) eqn:E.
  - apply py_lt_true in E. exfalso.
    destruct Hrp as [Hle _].
    specialize (Hle (inject_Z (q * d)) (fits_Z (q * d) ltac:(change (2 ^ 53) with 9007199254740992; lia))
                  (lit_0_9_mul_le v (q * d) ltac:(change (2 ^ 53) with 9007199254740992; lia))).
    destruct (Float.mul Float.lit_0_9 x); try done; cbn [Float.le_Q] in Hle;
      lra.
  - exists (q * d). split; [done|]. split; [by exists q|]. lia.
Qed.

Lemma make_divisible_nearest_witness :
  exists r,
    _make_divisible (PyInt 23) 4 None = Ok r /\
    (4 | r) /\ 2 * 23 - 4 < 2 * r /\ 2 * r <= 2 * 23 + 4.
Proof. apply make_divisible_nearest; [lia | lia | reflexivity]. Defined.


(** ** More on [load_pretrained_weights] *)

Section WeightsMore.

Implicit Types model pretrained_dict : gmap string Param.

(** The parameters after a load that returned. *)
Lemma load_pretrained_weights_lookup model pretrained_dict model' k :
  load_pretrained_weights model pretrained_dict = Ok model' ->
  model' !! k =
    match model !! k with
    | Some v => Some (default v (pretrained_dict !! k))
    | None => None
    end.
Proof.
  unfold load_pretrained_weights, nn.load_state_dict.
  case_decide; [|discriminate]. intros [= <-]. apply merged_lookup.
Qed.

Lemma load_state_dict_same model : nn.load_state_dict model model = Ok model.
Proof.
  apply load_state_dict_ok; [done|]. intros k param Hk. by rewrite Hk.
Qed.

End WeightsMore.

(** X6.  When the loader fails, the error is [RuntimeError], and some key
    of both mappings carries a tensor whose shape is not the shape of the
    model's parameter: keys alone never make it fail. *)
Theorem load_pretrained_weights_error
    (model pretrained_dict : gmap string Param) (e : exn) :
  load_pretrained_weights model pretrained_dict = Raise e ->
  e = RuntimeError /\
  exists k param w,
    model !! k = Some param /\ pretrained_dict !! k = Some w /\
    shape w <> shape param.
Proof.
  unfold load_pretrained_weights, nn.load_state_dict.
  case_decide as Hc; [discriminate|]. intros [= <-]. split; [done|].
  assert (Hnot : ~ map_Forall (fun k param =>
            shape <$> (filter (fun kv => kv.1 ∈ dom model) pretrained_dict
                       ∪ model) !! k = Some (shape param)) model).
  { intros Hall. apply Hc. split; [apply merged_dom | done]. }
  apply map_not_Forall in Hnot as (k & param & Hk & Hshape); [|apply _].
  rewrite merged_lookup, Hk in Hshape. cbn in Hshape.
  destruct (pretrained_dict !! k) as [w|] eqn:Hw; cbn in Hshape; [|done].
  exists k, param, w. split; [done|]. split; [done|]. congruence.
Qed.

Lemma load_pretrained_weights_error_witness :
  exists k param w,
    state_two_params !! k = Some param /\
    loaded_wrong_shape !! k = Some w /\
    shape w <> shape param.
Proof.
  apply (load_pretrained_weights_error
           state_two_params loaded_wrong_shape RuntimeError).
  vm_compute. reflexivity.
Defined.

(** X7.  Loading is idempotent: after a load that returned, loading the
    same mapping again returns and leaves the model as it is. *)
Theorem load_pretrained_weights_idempotent
    (model pretrained_dict model' : gmap string Param) :
  load_pretrained_weights model pretrained_dict = Ok model' ->
  load_pretrained_weights model' pretrained_dict = Ok model'.
Proof.
  intros Hload. unfold load_pretrained_weights.
  replace (filter (fun kv => kv.1 ∈ dom model') pretrained_dict ∪ model')
    with model'; [apply load_state_dict_same|].
  apply map_eq. intros k. rewrite merged_lookup.
  rewrite (load_pretrained_weights_lookup _ _ _ k Hload).
  destruct (model !! k); [|done]. by destruct (pretrained_dict !! k).
Qed.

Lemma load_pretrained_weights_idempotent_witness :
  load_pretrained_weights state_after_first_load loaded_two_params
    = Ok state_after_first_load.
Proof.
  apply (load_pretrained_weights_idempotent state_two_params).
  vm_compute. reflexivity.
Defined.

(** X8.  A mapping that shares no key with the model is loaded without
    error and changes nothing; the empty mapping is one. *)
Theorem load_pretrained_weights_disjoint
    (model pretrained_dict : gmap string Param) :
  (forall k, k ∈ dom model -> pretrained_dict !! k = None) ->
  load_pretrained_weights model pretrained_dict = Ok model.
Proof.
  intros Hdisj. unfold load_pretrained_weights.
  replace (filter (fun kv => kv.1 ∈ dom model) pretrained_dict ∪ model)
    with model; [apply load_state_dict_same|].
  apply map_eq. intros k. rewrite merged_lookup.
  destruct (model !! k) as [v|] eqn:Hk; [|done].
  rewrite Hdisj; [done|]. apply elem_of_dom. by exists v.
Qed.

Lemma load_pretrained_weights_disjoint_witness :
  load_pretrained_weights state_two_params loaded_foreign_key
    = Ok state_two_params.
Proof.
  apply load_pretrained_weights_disjoint.
  intros k Hk. unfold state_two_params in Hk.
  rewrite !dom_insert_L, dom_empty_L in Hk.
  rewrite !elem_of_union, !elem_of_singleton, elem_of_empty in Hk.
  destruct Hk as [-> | [-> | []]]; reflexivity.
Defined.

(** X9.  Two loads in sequence: a parameter takes the tensor of the second
    mapping when that has its key, else the tensor of the first mapping when
    that has its key, else it keeps its own. *)
Theorem load_pretrained_weights_twice
    (model d1 d2 model1 model2 : gmap string Param) (k : string) :
  load_pretrained_weights model d1 = Ok model1 ->
  load_pretrained_weights model1 d2 = Ok model2 ->
  model2 !! k =
    match model !! k with
    | Some v => Some (default (default v (d1 !! k)) (d2 !! k))
    | None => None
    end.
Proof.
  intros H1 H2.
  rewrite (load_pretrained_weights_lookup _ _ _ k H2).
  rewrite (load_pretrained_weights_lookup _ _ _ k H1).
  by destruct (model !! k).
Qed.

Lemma load_pretrained_weights_twice_witness :
  state_after_second_load !! "b"%string =
    match state_two_params !! "b"%string with
    | Some v =>
        Some (default (default v (loaded_two_params !! "b"%string))
                (loaded_bias_only !! "b"%string))
    | None => None
    end.
Proof.
  apply (load_pretrained_weights_twice state_two_params loaded_two_params
           loaded_bias_only state_after_first_load state_after_second_load);
    vm_compute; reflexivity.
Defined.


(** ** More on [CustomDataset] *)

Section DatasetMore.

Import Text Lines.

Lemma occurs_app c (s t : string) :
  occurs c (s +:+ t) = occurs c s || occurs c t.
Proof.
  induction s as [|c' s IH]; [done|].
  rewrite append_cons. cbn [occurs]. by case_decide.
Qed.

(** After the translation of line endings no CR is left. *)
Lemma universal_newlines_no_CR s : occurs CR (universal_newlines s) = false.
Proof.
  assert (HLF : LF <> CR) by discriminate.
  cut (occurs CR (universal_newlines s) = false /\
       forall c, occurs CR (universal_newlines (String c s)) = false);
    [by intros []|].
  induction s as [|c' r [IH1 IH2]].
  - split; [done|]. intros c. cbn [universal_newlines].
    destruct (decide (c = CR)); cbn [occurs]; by rewrite decide_False.
  - split; [apply IH2|]. intros c.
    cbn [universal_newlines]. destruct (decide (c = CR)) as [->|Hc].
    + destruct (decide (c' = LF)) as [->|Hc'].
      * cbn [occurs]. by rewrite decide_False.
      * cbn [occurs]. rewrite decide_False by done. apply IH2.
    + cbn [occurs]. rewrite decide_False by done. apply IH2.
Qed.

Lemma universal_newlines_id s :
  occurs CR s = false -> universal_newlines s = s.
Proof.
  induction s as [|c r IH]; [done|].
  cbn [occurs universal_newlines]. case_decide; [done|].
  intros Hr. by rewrite IH.
Qed.

(** A character of a line is a character of the text. *)
Lemma readlines_occurs c s :
  occurs c s = false ->
  Forall (fun l => occurs c l = false) (readlines s).
Proof.
  induction s as [|c' r IH]; [constructor|].
  cbn [occurs readlines]. destruct (decide (c' = c)) as [|Hc]; [done|].
  intros Hr. specialize (IH Hr). case_decide.
  - constructor; [|done]. cbn. by rewrite decide_False.
  - destruct (readlines r) as [|l ls].
    + repeat constructor. cbn. by rewrite decide_False.
    + apply Forall_cons in IH as [Hl Hls]. constructor; [|done].
      cbn. by rewrite decide_False.
Qed.

(** A non-empty end of a line is a line. *)
Lemma is_line_suffix (a u : string) :
  u <> EmptyString -> is_line (a +:+ u) = true -> is_line u = true.
Proof.
  intros Hu. induction a as [|c a IH]; [done|].
  rewrite append_cons. cbn [is_line].
  destruct (a +:+ u) as [|c' r] eqn:E.
  - destruct a; [by rewrite append_nil in E | by rewrite append_cons in E].
  - intros [_ Hr]%andb_true_iff. by apply IH.
Qed.

(** A beginning of a line that holds LF ends with it. *)
Lemma is_line_prefix_LF (t b : string) :
  is_line (t +:+ b) = true -> occurs LF t = true ->
  ends_with_space t = true.
Proof.
  induction t as [|c t IH]; [done|].
  rewrite append_cons. cbn [is_line occurs].
  destruct (t +:+ b) as [|c' r] eqn:E.
  - destruct t; [|by rewrite append_cons in E].
    intros _. case_decide as Hc; [|done]. by rewrite Hc.
  - destruct (decide (c = LF)) as [|Hc]; [done|].
    intros Hr Ht. cbn in Hr. specialize (IH Hr Ht).
    destruct t; [done|]. done.
Qed.

Lemma rstrip_all_space w : all_space w = true -> rstrip w = EmptyString.
Proof.
  induction w as [|c w IH]; [done|].
  cbn [all_space rstrip]. intros [Hc Hw]%andb_true_iff.
  by rewrite IH, Hc.
Qed.

Lemma rstrip_app_space (l w : string) :
  all_space w = true -> rstrip (l +:+ w) = rstrip l.
Proof.
  intros Hw. induction l as [|c l IH].
  - rewrite append_nil. by apply rstrip_all_space.
  - rewrite append_cons. cbn [rstrip]. by rewrite IH.
Qed.

Lemma rstrip_id l : ends_with_space l = false -> rstrip l = l.
Proof.
  induction l as [|c l IH]; [done|].
  cbn [ends_with_space rstrip]. destruct l as [|c' l'].
  - intros ->. done.
  - intros Hl. rewrite IH by done. done.
Qed.

Lemma readlines_terminated (l rest : string) :
  occurs LF l = false ->
  readlines (l +:+ String LF rest)
    = (l +:+ String LF EmptyString) :: readlines rest.
Proof.
  induction l as [|c l IH].
  - intros _. rewrite !append_nil. cbn [readlines]. by rewrite decide_True.
  - cbn [occurs]. case_decide as Hc; [done|]. intros Hl.
    rewrite !append_cons. cbn [readlines].
    rewrite decide_False by done. by rewrite IH.
Qed.

Lemma strip_clean_line l :
  clean l = true -> strip (l +:+ String LF EmptyString) = l.
Proof.
  unfold clean.
  intros [[[_ _]%andb_true_iff Hs%negb_true_iff]%andb_true_iff
            He%negb_true_iff]%andb_true_iff.
  unfold strip. destruct l as [|c l].
  - reflexivity.
  - rewrite append_cons. cbn [starts_with_space] in Hs.
    cbn [lstrip]. rewrite Hs. rewrite <- append_cons.
    rewrite rstrip_app_space by done. by apply rstrip_id.
Qed.

Lemma unlines_no_CR ls :
  Forall (fun l => clean l = true) ls -> occurs CR (unlines ls) = false.
Proof.
  induction 1 as [|l ls Hl _ IH]; [done|].
  cbn [unlines]. rewrite occurs_app. cbn [occurs].
  rewrite decide_False by discriminate. rewrite IH.
  unfold clean in Hl.
  apply andb_true_iff in Hl as [[[_ Hcr%negb_true_iff]%andb_true_iff _]
                                  %andb_true_iff _].
  by rewrite Hcr.
Qed.

Lemma print_batches_from str_batch i dataloader :
  (i <= 4)%nat ->
  print_batches str_batch i dataloader =
    imap (fun j batch =>
            "Batch " +:+ pretty (i + j + 1)%nat +:+ ": " +:+ str_batch batch)
         (take (5 - i) dataloader).
Proof.
  revert i. induction dataloader as [|batch rest IH]; intros i Hi.
  - by rewrite take_nil.
  - replace (5 - i)%nat with (S (4 - i)) by lia.
    cbn [print_batches take imap]. rewrite Nat.add_0_r. f_equal.
    case_decide as H4.
    + subst i. by destruct rest.
    + rewrite IH by lia. replace (5 - S i)%nat with (4 - i)%nat by lia.
      apply imap_ext. intros j b _. cbn. do 3 f_equal. lia.
Qed.

End DatasetMore.

(** X11.  No sample of a dataset holds a line break: neither LF nor CR
    occurs in an element, whatever the file. *)
Theorem dataset_samples_no_line_break (file s : string) :
  s ∈ data (CustomDataset__init__ file) ->
  Lines.occurs Text.LF s = false /\ Lines.occurs Text.CR s = false.
Proof.
  unfold CustomDataset__init__. cbn [data].
  intros (l & -> & Hl)%list_elem_of_fmap.
  destruct (strip_spec l) as (a & b & Heq & _ & _ & _ & He).
  split.
  - destruct (Lines.occurs Text.LF (Text.strip l)) eqn:E; [|done].
    exfalso.
    assert (Hline : Text.is_line l = true).
    { pose proof (readlines_is_line (Text.universal_newlines file)) as Hall.
      rewrite Forall_forall in Hall. by apply Hall. }
    rewrite Heq in Hline.
    apply is_line_suffix in Hline.
    + apply is_line_prefix_LF in Hline; [congruence | done].
    + destruct (Text.strip l); [discriminate | by rewrite append_cons].
  - pose proof (readlines_occurs Text.CR _
                  (universal_newlines_no_CR file)) as Hall.
    rewrite Forall_forall in Hall. specialize (Hall l Hl).
    rewrite Heq, !occurs_app in Hall.
    apply orb_false_iff in Hall as [_ Hall].
    by apply orb_false_iff in Hall as [Hall _].
Qed.

Lemma dataset_samples_no_line_break_witness :
  Lines.occurs Text.LF "a" = false /\ Lines.occurs Text.CR "a" = false.
Proof.
  apply (dataset_samples_no_line_break file_two_lines).
  vm_compute. apply list_elem_of_here.
Defined.

(** X12.  Round trip: the file that holds one sample per line, each line
    ended by LF, loads back to exactly those samples, provided no sample
    holds a line break or has whitespace at either end (empty samples
    included). *)
Theorem dataset_round_trip (samples : list string) :
  Forall (fun l => Lines.clean l = true) samples ->
  data (CustomDataset__init__ (Lines.unlines samples)) = samples.
Proof.
  intros Hclean. unfold CustomDataset__init__. cbn [data].
  rewrite universal_newlines_id by by apply unlines_no_CR.
  induction Hclean as [|l ls Hl _ IH]; [done|].
  cbn [Lines.unlines]. rewrite readlines_terminated.
  - cbn [fmap list_fmap]. rewrite strip_clean_line by done.
    f_equal. apply IH.
  - unfold Lines.clean in Hl.
    apply andb_true_iff in Hl as [[[Hlf%negb_true_iff _]%andb_true_iff _]
                                    %andb_true_iff _].
    done.
Qed.

Lemma dataset_round_trip_witness :
  data (CustomDataset__init__ (Lines.unlines three_samples)) = three_samples.
Proof.
  apply dataset_round_trip. unfold three_samples.
  repeat constructor.
Defined.

(** X13.  The loop of the script prints the batches in the order the loader
    yields them, numbered from 1, and stops after the fifth: it prints the
    first five batches, or all of them when there are fewer. *)
Theorem print_first_batches_five (str_batch : list string -> string)
    (dataloader : list (list string)) :
  print_first_batches str_batch dataloader =
    imap (fun j batch =>
            "Batch " +:+ pretty (j + 1)%nat +:+ ": " +:+ str_batch batch)
         (take 5 dataloader) /\
  length (print_first_batches str_batch dataloader)
    = Nat.min 5 (length dataloader).
Proof.
  unfold print_first_batches.
  rewrite print_batches_from by lia. cbn [Nat.sub Nat.add].
  split; [done|]. by rewrite length_imap, length_take.
Qed.

(** ** More on the modules *)

Section ForwardMore.

Context `{TorchShapes}.

Lemma forward_Sequential p ms x :
  forward p (Sequential ms) x = Sequential_from p 0 ms x.
Proof.
  cbn [forward]. generalize 0%nat. revert x.
  induction ms as [|m ms IH]; intros x i; [done|].
  cbn [Sequential_from]. destruct (forward (p ++ [Idx i]) m x); cbn; [|done].
  apply IH.
Qed.

Lemma Sequential_from_cons p i m ms x :
  Sequential_from p i (m :: ms) x =
    y ← forward (p ++ [Idx i]) m x; Sequential_from p (S i) ms y.
Proof. reflexivity. Qed.

(** The shape of a sum that returned. *)
Lemma add_shape (a b : Tensor4) out :
  torch.add (T4 a) (T4 b) = Ok out ->
  exists o, out = T4 o /\
    torch.bdim (batch a) (batch b) = Ok (batch o) /\
    torch.bdim (channels a) (channels b) = Ok (channels o).
Proof.
  unfold torch.add, torch.binop, torch.binop4. intros Hout.
  bind_inv Hout n Hn. bind_inv Hout c Hc. bind_inv Hout h Hh.
  bind_inv Hout w Hw. injection Hout as <-. by eexists.
Qed.

(** The dual-path module on two convolution stacks. *)
Lemma GhostModule_stacks_shape p oup i1 c1 k1 s1 pd1 g1 n1 (r1 : bool)
    i2 c2 k2 s2 pd2 g2 n2 (r2 : bool) x out :
  forward p
    (GhostModule oup
       (Sequential [Conv2d i1 c1 k1 s1 pd1 g1; BatchNorm2d n1;
                    if r1 then ReLU else Sequential []])
       (Sequential [Conv2d i2 c2 k2 s2 pd2 g2; BatchNorm2d n2;
                    if r2 then ReLU else Sequential []])) x = Ok out ->
  exists x4 o, x = T4 x4 /\ out = T4 o /\ batch o = batch x4 /\
    channels o = torch.slice_stop (Z.to_nat c1 + Z.to_nat c2) oup.
Proof.
  rewrite forward_GhostModule. intros Hout.
  bind_inv Hout y1 H1. bind_inv Hout y2 H2. bind_inv Hout cat Hcat.
  apply conv_bn_act_shape in H1 as (x4 & x1 & -> & -> & Hb1 & Hch1).
  apply conv_bn_act_shape in H2 as (x1' & x2 & [= <-] & -> & Hb2 & Hch2).
  cbn [torch.cat1] in Hcat.
  destruct (decide _) as [(Hb & Hh & Hw)|]; [|done].
  injection Hcat as <-. cbn [torch.slice1] in Hout. injection Hout as <-.
  eexists x4, _. split; [done|]. split; [done|].
  cbn [batch channels]. by rewrite Hch1, Hch2.
Qed.

(** The rounded-up quotient times the ratio covers the width. *)
Lemma ceil_ratio_covers oup ratio :
  1 <= oup -> 1 <= ratio ->
  1 <= Qceiling (inject_Z oup / inject_Z ratio) /\
  oup <= Qceiling (inject_Z oup / inject_Z ratio) * ratio.
Proof.
  intros Houp Hratio.
  pose proof (Qle_ceiling (inject_Z oup / inject_Z ratio)) as Hle.
  set (c := Qceiling _) in *.
  destruct ratio as [|r|r]; try lia.
  unfold Qle, Qdiv, Qmult, Qinv, inject_Z in Hle. cbn in Hle.
  nia.
Qed.

(** A built dual-path module keeps the batch size, and returns [oup]
    channels when [oup] and the ratio are positive. *)
Lemma GhostModule_built_shape inp oup kernel_size ratio dw_size stride relu
    gm p x out :
  GhostModule__init__ inp oup kernel_size ratio dw_size stride relu = Ok gm ->
  forward p gm x = Ok out ->
  exists x4 o, x = T4 x4 /\ out = T4 o /\ batch o = batch x4 /\
    (1 <= oup -> 1 <= ratio -> channels o = Z.to_nat oup).
Proof.
  intros Hinit Hout.
  apply GhostModule__init__inv in Hinit as [Hr ->]. cbv zeta in Hout.
  apply GhostModule_stacks_shape in Hout as (x4 & o & -> & -> & Hb & Hc).
  exists x4, o. split; [done|]. split; [done|]. split; [done|].
  intros Houp Hratio.
  destruct (ceil_ratio_covers oup ratio Houp Hratio) as [Hc1 Hc2].
  rewrite Hc. apply slice_stop_covered; [lia|]. nia.
Qed.

End ForwardMore.

Section BlocksMore.

Context `{TorchShapes}.

(** What a forward pass of the squeeze-and-excite layer that returned has
    done. *)
Lemma SELayer_forward_inv p channel r x out :
  forward p
    (SELayer AdaptiveAvgPool2d_1
       (Sequential [Linear channel r true; ReLU; Linear r channel true]))
    x = Ok out ->
  exists x4 y o,
    x = T4 x4 /\ out = T4 o /\ torch.same_shape o x4 /\
    height x4 <> 0%nat /\ width x4 <> 0%nat /\
    (batch x4 * Z.to_nat channel = batch x4 * channels x4)%nat /\
    forall i j k l, torch.in_range x4 i j k l ->
      at4 o i j k l = (at4 x4 i j k l * torch.clamp1 0 1 (at2 y i j))%Q.
Proof.
  intros Hout. rewrite forward_SELayer in Hout.
  destruct x as [x2|x4]; [discriminate|].
  cbn [torch.size4 mbind result_bind] in Hout.
  bind_inv Hout pooled Hpool. bind_inv Hout v Hv.
  bind_inv Hout y Hy. bind_inv Hout y4 Hy4.
  cbn [forward torch.adaptive_avg_pool2d_1] in Hpool.
  destruct (decide _) as [|Hhw]; [discriminate|].
  injection Hpool as <-.
  unfold torch.view2 in Hv. destruct (decide _) as [_|]; [|discriminate].
  injection Hv as <-.
  apply fc_shape in Hy as (y2 & -> & Hrows & Hcols).
  cbn [rows] in Hrows.
  unfold torch.view4 in Hy4.
  destruct (decide _) as [Hnum|]; [|discriminate].
  injection Hy4 as <-.
  unfold torch.mul, torch.clamp, torch.map, torch.binop, torch.binop4
    in Hout.
  cbn [batch channels height width at4] in Hout.
  rewrite !bdim_same, !bdim_one_r in Hout.
  cbn [mbind result_bind mret result_ret] in Hout.
  injection Hout as <-.
  cbn [torch.numel] in Hnum. rewrite Hrows, Hcols in Hnum.
  eexists x4, y2, _.
  split; [done|]. split; [done|]. split; [done|].
  split; [tauto|]. split; [tauto|]. split; [lia|].
  intros i j k l (Hi & Hj & Hk & Hl).
  cbn [at4]. rewrite !bidx_in_range by done.
  assert (Hc : cols y2 = channels x4) by nia.
  assert (Hidx : ((((i * channels x4 + j) * 1 + torch.bidx 1 k) * 1
                   + torch.bidx 1 l) = i * channels x4 + j)%nat).
  { unfold torch.bidx. rewrite !decide_True by done. lia. }
  rewrite Hidx, Hc.
  rewrite Nat.div_add_l, Nat.div_small, Nat.add_0_r by lia.
  rewrite Nat.add_comm, Nat.Div0.mod_add, Nat.mod_small by lia.
  reflexivity.
Qed.

(** The squeeze-and-excite slot of a block: the layer, or nothing. *)
Lemma se_slot_keeps_shape p (use_se : bool) hidden_dim se x4 out :
  (if use_se then SELayer__init__ hidden_dim 4 else mret (Sequential []))
    = Ok se ->
  forward p se (T4 x4) = Ok out ->
  exists o, out = T4 o /\ batch o = batch x4.
Proof.
  destruct use_se.
  - intros Hinit. apply SELayer__init__inv in Hinit as (r & Hr & ->).
    intros Hout.
    apply SELayer_forward_inv in Hout
      as (x4' & y & o & [= <-] & -> & (Hb & _) & _).
    by exists o.
  - intros [= <-]. rewrite forward_Sequential_nil. intros [= <-].
    by exists x4.
Qed.

(** The depthwise slot of a block: the convolution stack, or nothing. *)
Lemma dw_slot_keeps_batch p stride hidden_dim kernel_size dw x4 out :
  (if decide (stride = 2)
   then depthwise_conv hidden_dim hidden_dim kernel_size stride false
   else mret (Sequential [])) = Ok dw ->
  forward p dw (T4 x4) = Ok out ->
  exists o, out = T4 o /\ batch o = batch x4.
Proof.
  case_decide.
  - intros Hdw. apply depthwise_conv_inv in Hdw as ->. intros Hout.
    apply (conv_bn_act_shape _ _ _ _ _ _ _ _ false) in Hout
      as (x4' & o & [= <-] & -> & Hb & _).
    by exists o.
  - intros [= <-]. rewrite forward_Sequential_nil. intros [= <-].
    by exists x4.
Qed.

(** The shortcut that is not the identity. *)
Lemma projection_shortcut_shape p inp oup stride x out :
  forward p
    (Sequential [Sequential [Conv2d inp inp 3 stride 1 inp; BatchNorm2d inp;
                             Sequential []];
                 Conv2d inp oup 1 1 0 1; BatchNorm2d oup]) x = Ok out ->
  exists x4 o, x = T4 x4 /\ out = T4 o /\ batch o = batch x4 /\
    channels o = Z.to_nat oup.
Proof.
  rewrite forward_Sequential, !Sequential_from_cons. intros Hout.
  bind_inv Hout y1 H1. bind_inv Hout y2 H2. bind_inv Hout y3 H3.
  injection Hout as <-.
  apply (conv_bn_act_shape _ _ _ _ _ _ _ _ false) in H1
    as (x4 & o1 & -> & -> & Hb1 & _).
  apply Conv2d_shape in H2 as (o1' & o2 & [= <-] & -> & Hb2 & Hc2).
  apply BatchNorm2d_shape in H3
    as (o2' & o3 & [= <-] & -> & Hb3 & Hc3 & _ & _).
  exists x4, o3. split; [done|]. split; [done|]. split; congruence.
Qed.

(** The main path of a built block. *)
Lemma main_path_shape p inp hidden_dim oup kernel_size stride
    (use_se : bool) expand dw se project x out :
  GhostModule__init__ inp hidden_dim 1 2 3 1 true = Ok expand ->
  (if decide (stride = 2)
   then depthwise_conv hidden_dim hidden_dim kernel_size stride false
   else mret (Sequential [])) = Ok dw ->
  (if use_se then SELayer__init__ hidden_dim 4 else mret (Sequential []))
    = Ok se ->
  GhostModule__init__ hidden_dim oup 1 2 3 1 false = Ok project ->
  forward p (Sequential [expand; dw; se; project]) x = Ok out ->
  exists x4 o, x = T4 x4 /\ out = T4 o /\ batch o = batch x4 /\
    (1 <= oup -> channels o = Z.to_nat oup).
Proof.
  intros Hexpand Hdw Hse Hproject.
  rewrite forward_Sequential, !Sequential_from_cons. intros Hout.
  bind_inv Hout y1 H1. bind_inv Hout y2 H2. bind_inv Hout y3 H3.
  bind_inv Hout y4 H4. injection Hout as <-.
  eapply GhostModule_built_shape in H1 as (x4 & o1 & -> & -> & Hb1 & _);
    [|exact Hexpand].
  eapply dw_slot_keeps_batch in H2 as (o2 & -> & Hb2); [|exact Hdw].
  eapply se_slot_keeps_shape in H3 as (o3 & -> & Hb3); [|exact Hse].
  eapply GhostModule_built_shape in H4
    as (o3' & o4 & [= <-] & -> & Hb4 & Hc4); [|exact Hproject].
  exists x4, o4. split; [done|]. split; [done|].
  split; [congruence|]. intros Houp. apply Hc4; lia.
Qed.

(** A built block keeps the batch size. *)
Lemma built_block_keeps_batch block : built_block block -> keeps_batch block.
Proof.
  intros (inp & hidden_dim & oup & kernel_size & stride & use_se & Hinit).
  apply built_block_inv in Hinit
    as (expand & dw & se & project & Hs & Hexpand & Hdw & Hse & Hproject
        & ->).
  intros p x out. rewrite forward_GhostBottleneck. intros Hout.
  bind_inv Hout main Hmain. bind_inv Hout short Hshort.
  eapply main_path_shape in Hmain as (x4 & m & -> & -> & Hbm & _);
    [|exact Hexpand|exact Hdw|exact Hse|exact Hproject].
  assert (Hs4 : exists s, short = T4 s /\ batch s = batch x4).
  { case_decide.
    - rewrite forward_Sequential_nil in Hshort. injection Hshort as <-.
      by exists x4.
    - apply projection_shortcut_shape in Hshort
        as (x4' & s & [= <-] & -> & Hbs & _).
      by exists s. }
  destruct Hs4 as (s & -> & Hbs).
  apply add_shape in Hout as (o & -> & Hb & _).
  rewrite Hbm, Hbs, bdim_same in Hb. injection Hb as Hb.
  exists x4, o. split; [done|]. split; [done|]. congruence.
Qed.

End BlocksMore.

Section NetInv.

Context `{Torch}.

(** The loop over the table, when it returns: one built block per row,
    appended in order, every stride valid, and the width and the loop
    variable [exp_size] it hands on are those of the last row. *)
Lemma GhostNet_blocks_inv cfgs width_mult layers input_channel exp_size
    layers' input_channel' exp_size' :
  GhostNet_blocks cfgs width_mult layers input_channel exp_size
    = Ok (layers', input_channel', exp_size') ->
  exists blocks,
    layers' = layers ++ blocks /\ length blocks = length cfgs /\
    Forall built_block blocks /\ Forall valid_stride cfgs /\
    match last cfgs with
    | Some row =>
        scaled_width (cfg_c row) width_mult = Ok input_channel' /\
        exp_size' = Some (cfg_exp_size row)
    | None => input_channel' = input_channel /\ exp_size' = exp_size
    end.
Proof.
  revert layers input_channel exp_size.
  induction cfgs as [|row cfgs IH]; intros layers input_channel exp_size.
  - cbn. intros [= <- <- <-]. exists []. by rewrite app_nil_r.
  - cbn [GhostNet_blocks]. intros Hloop.
    bind_inv Hloop oc Hoc. bind_inv Hloop hc Hhc.
    bind_inv Hloop blk Hblk.
    apply IH in Hloop as (blocks & -> & Hlen & Hbuilt & Hvalid & Hlast).
    exists (blk :: blocks).
    split; [by rewrite <- app_assoc|]. split; [cbn; by rewrite Hlen|].
    split; [constructor; [by repeat eexists|done]|].
    split.
    { constructor; [|done]. unfold valid_stride.
      unfold GhostBottleneck__init__ in Hblk. by case_decide. }
    rewrite last_cons. destruct (last cfgs); [done|].
    by destruct Hlast as [-> ->].
Qed.

(** [GhostNet.__init__], when it returns, taken apart. *)
Lemma GhostNet__init__inv cfgs num_classes width_mult net :
  GhostNet__init__ cfgs num_classes width_mult = Ok net ->
  exists stem_width blocks row input_channel output_channel,
    length blocks = length cfgs /\ Forall built_block blocks /\
    Forall valid_stride cfgs /\ last cfgs = Some row /\
    scaled_width 16 width_mult = Ok stem_width /\
    scaled_width (cfg_c row) width_mult = Ok input_channel /\
    scaled_width (cfg_exp_size row) width_mult = Ok output_channel /\
    net = mkGhostNet
      (Sequential
         (Sequential [Conv2d 3 stem_width 3 2 1 1; BatchNorm2d stem_width;
                      ReLU] :: blocks))
      (Sequential [Conv2d input_channel output_channel 1 1 0 1;
                   BatchNorm2d output_channel; ReLU; AdaptiveAvgPool2d_1])
      (Sequential [Linear output_channel 1280 false; BatchNorm1d 1280;
                   ReLU; Dropout 0.2; Linear 1280 num_classes true]).
Proof.
  unfold GhostNet__init__. intros Hinit.
  bind_inv Hinit sw Hsw. bind_inv Hinit c0 Hc0. bind_inv Hinit b0 Hb0.
  bind_inv Hinit r Hloop.
  destruct r as [[layers ic] e]. cbn beta iota in Hinit.
  bind_inv Hinit e1 Hex. bind_inv Hinit oc Hoc.
  bind_inv Hinit c1 Hc1. bind_inv Hinit b1 Hb1.
  bind_inv Hinit l1 Hl1. bind_inv Hinit b2 Hb2. bind_inv Hinit l2 Hl2.
  cbv zeta in Hinit. bind_inv Hinit u Hu. injection Hinit as <-.
  apply GhostNet_blocks_inv in Hloop
    as (blocks & -> & Hlen & Hbuilt & Hvalid & Hlast).
  destruct e as [e|]; [|discriminate]. injection Hex as ->.
  rewrite (nn_Conv2d_inv _ _ _ _ _ _ _ Hc0), (nn_BatchNorm2d_inv _ _ Hb0),
    (nn_Conv2d_inv _ _ _ _ _ _ _ Hc1), (nn_BatchNorm2d_inv _ _ Hb1),
    (nn_Linear_inv _ _ _ _ Hl1), (nn_BatchNorm1d_inv _ _ Hb2),
    (nn_Linear_inv _ _ _ _ Hl2).
  destruct (last cfgs) as [row|] eqn:Hrow.
  - destruct Hlast as [Hic [= ->]].
    by exists sw, blocks, row, ic, oc.
  - by destruct Hlast as [_ [=]].
Qed.

End NetInv.

Section NetReturns.

Context `{TorchAccepts}.

(** The constructor returns for a non-empty table whose rows can be
    built. *)
Lemma GhostNet__init__returns cfgs num_classes width_mult :
  moderate width_mult -> 0 < num_classes ->
  cfgs <> [] -> Forall buildable cfgs ->
  exists net, GhostNet__init__ cfgs num_classes width_mult = Ok net.
Proof.
  intros Hw Hnc Hne Hcfgs. unfold GhostNet__init__.
  destruct (stem_returns width_mult Hw) as (w & -> & H4 & Hc & Hb & Hi).
  cbn [mbind result_bind]. rewrite Hc. cbn [mbind result_bind].
  rewrite Hb. cbn [mbind result_bind].
  destruct (GhostNet_blocks_returns cfgs width_mult
              [Sequential [Conv2d 3 w 3 2 1 1; BatchNorm2d w; ReLU]] w None
              Hw Hcfgs ltac:(lia) ltac:(by constructor))
    as (layers & ic & e & Hloop & Hic & Hlayers).
  rewrite Hloop. cbn [mbind result_bind].
  apply GhostNet_blocks_inv in Hloop as (blocks & _ & _ & _ & _ & Hlast).
  destruct (last cfgs) as [row|] eqn:Hrow; [|by apply last_None in Hrow].
  destruct Hlast as [_ ->]. cbn [mbind result_bind].
  assert (Hrow' : buildable row).
  { apply last_Some in Hrow as [l' ->].
    apply Forall_app in Hcfgs as [_ Hl]. by inversion Hl. }
  destruct Hrow' as (_ & _ & _ & He).
  destruct (scaled_width_returns (cfg_exp_size row) width_mult He Hw)
    as (oc & -> & _ & Hoc).
  cbn [mbind result_bind].
  rewrite (nn_Conv2d_returns ic oc 1 1 0 1)
    by (done || lia || apply Z.divide_1_l).
  cbn [mbind result_bind].
  rewrite (nn_BatchNorm2d_returns oc) by lia. cbn [mbind result_bind].
  rewrite (nn_Linear_returns oc 1280) by lia. cbn [mbind result_bind].
  rewrite (nn_BatchNorm1d_returns 1280) by lia. cbn [mbind result_bind].
  rewrite (nn_Linear_returns 1280 num_classes) by lia.
  cbn [mbind result_bind]. cbv zeta.
  unfold _initialize_weights. cbn [features squeeze classifier].
  rewrite (initialize_Sequential layers Hlayers). cbn [mbind result_bind].
  rewrite (initialize_Sequential
             [Conv2d ic oc 1 1 0 1; BatchNorm2d oc; ReLU; AdaptiveAvgPool2d_1]).
  2: { repeat constructor. cbn [initialize_module].
       apply kaiming_normal__accepts; done || lia || apply Z.divide_1_l. }
  cbn. eauto.
Qed.

End NetReturns.

Section NetMore.

Context `{TorchShapes}.

(** A run of modules that keep the batch size keeps it. *)
Lemma Sequential_from_keeps_batch p i ms x4 out :
  Forall keeps_batch ms ->
  Sequential_from p i ms (T4 x4) = Ok out ->
  exists o, out = T4 o /\ batch o = batch x4.
Proof.
  intros Hms. revert i x4.
  induction Hms as [|m ms Hm _ IH]; intros i x4.
  - intros [= <-]. by exists x4.
  - rewrite Sequential_from_cons. intros Hout. bind_inv Hout y Hy.
    apply Hm in Hy as (x4' & o1 & [= <-] & -> & Hb1).
    apply IH in Hout as (o & -> & Hb). exists o. split; [done|]. congruence.
Qed.

End NetMore.



(** The shape a built block returns. *)
Lemma built_block_shape `{TorchShapes}
    (inp hidden_dim oup kernel_size stride : Z) (use_se : bool)
    (block : Module) (p : path) (x4 : Tensor4) (out : tensor) :
  1 <= oup ->
  GhostBottleneck__init__ inp hidden_dim oup kernel_size stride use_se
    = Ok block ->
  channels x4 = Z.to_nat inp ->
  forward p block (T4 x4) = Ok out ->
  exists o, out = T4 o /\ batch o = batch x4 /\ channels o = Z.to_nat oup.
Proof.
  intros Houp Hinit Hch.
  apply built_block_inv in Hinit
    as (expand & dw & se & project & Hs & Hexpand & Hdw & Hse & Hproject
        & ->).
  rewrite forward_GhostBottleneck. intros Hout.
  bind_inv Hout main Hmain. bind_inv Hout short Hshort.
  eapply main_path_shape in Hmain as (x4' & m & [= <-] & -> & Hbm & Hcm);
    [|exact Hexpand|exact Hdw|exact Hse|exact Hproject].
  specialize (Hcm Houp).
  assert (Hs4 : exists s, short = T4 s /\ batch s = batch x4 /\
                          channels s = Z.to_nat oup).
  { case_decide as Hid.
    - rewrite forward_Sequential_nil in Hshort. injection Hshort as <-.
      exists x4. destruct Hid as [_ <-]. done.
    - apply projection_shortcut_shape in Hshort
        as (x4' & s & [= <-] & -> & Hbs & Hcs).
      by exists s. }
  destruct Hs4 as (s & -> & Hbs & Hcs).
  apply add_shape in Hout as (o & -> & Hb & Hc).
  rewrite Hbm, Hbs, bdim_same in Hb. injection Hb as Hb.
  rewrite Hcm, Hcs, bdim_same in Hc. injection Hc as Hc.
  exists o. split; [done|]. split; congruence.
Qed.

(** X15.  A built [GhostBottleneck] for a positive width [oup] maps a batch
    of maps with [inp] channels to a batch of the same size with [oup]
    channels, whenever its forward pass returns, for either stride and
    with or without the squeeze-and-excite layer. *)
Theorem GhostBottleneck_output_shape `{TorchShapes}
    (inp hidden_dim oup kernel_size stride : Z) (use_se : bool)
    (block : Module) (p : path) (x4 : Tensor4) (out : tensor) :
  1 <= oup ->
  GhostBottleneck__init__ inp hidden_dim oup kernel_size stride use_se
    = Ok block ->
  channels x4 = Z.to_nat inp ->
  forward p block (T4 x4) = Ok out ->
  exists o, out = T4 o /\ batch o = batch x4 /\ channels o = Z.to_nat oup.
Proof.
  intros Houp Hinit Hch Hout.
  by eapply built_block_shape.
Qed.

Lemma GhostBottleneck_output_shape_witness :
  exists o, toy_block_output = T4 o /\ batch o = 2%nat /\ channels o = 8%nat.
Proof.
  apply (@GhostBottleneck_output_shape toy_torch toy_torch_shapes
           3 12 8 3 2 true toy_block [] toy_input4 toy_block_output);
    [lia | reflexivity | reflexivity | reflexivity].
Defined.

(** X16.  [GhostNet.__init__] on a table.  When the constructor returns,
    the table is not empty, every stride is 1 or 2, and [features] is the
    stem followed by one built block per row.  With a library that accepts
    positive sizes and a width multiplier for which the widths do not
    overflow: an empty table raises [UnboundLocalError] (the code after
    the loop reads the loop variable [exp_size]), and the constructor
    returns for a positive number of classes and a non-empty table whose
    rows have stride 1 or 2, a positive kernel size and entries of
    magnitude up to [2^64]. *)
Theorem GhostNet__init__table `{Torch} (cfgs : list cfg_row)
    (num_classes : Z) (width_mult : spec_float) :
  (forall net,
     GhostNet__init__ cfgs num_classes width_mult = Ok net ->
     cfgs <> [] /\ Forall valid_stride cfgs /\
     exists stem blocks,
       features net = Sequential (stem :: blocks) /\
       length blocks = length cfgs /\ Forall built_block blocks) /\
  (TorchAccepts -> moderate width_mult -> cfgs = [] ->
   GhostNet__init__ cfgs num_classes width_mult = Raise UnboundLocalError) /\
  (TorchAccepts -> moderate width_mult -> 0 < num_classes ->
   cfgs <> [] -> Forall buildable cfgs ->
   exists net, GhostNet__init__ cfgs num_classes width_mult = Ok net).
Proof.
  split; [|split].
  - intros net Hinit.
    apply GhostNet__init__inv in Hinit
      as (sw & blocks & row & ic & oc & Hlen & Hbuilt & Hvalid & Hrow
          & _ & _ & _ & ->).
    split; [by intros ->|]. split; [done|]. by eexists _, blocks.
  - intros Hacc Hw ->. unfold GhostNet__init__.
    destruct (stem_returns width_mult Hw) as (w & -> & H4 & Hc & Hb & _).
    cbn [mbind result_bind]. rewrite Hc. cbn [mbind result_bind].
    by rewrite Hb.
  - intros Hacc. apply GhostNet__init__returns.
Qed.

Lemma GhostNet__init__table_witness :
  exists net, @GhostNet__init__ toy_torch toy_cfgs 10 width_mult_1 = Ok net.
Proof.
  apply (proj2 (proj2 (@GhostNet__init__table toy_torch toy_cfgs 10
                         width_mult_1)) toy_torch_accepts).
  - exact width_mult_1_moderate.
  - lia.
  - discriminate.
  - unfold toy_cfgs. table_rows.
Defined.

(** X17.  The head of a network that was built is sized by the last row of
    the table: the squeeze convolution takes the rounded output width of
    the last row and returns the rounded expansion width of the last row,
    both positive multiples of 4, and the classifier maps that width to
    1280 features and these to [num_classes]. *)
Theorem GhostNet__init__head `{Torch} (cfgs : list cfg_row)
    (num_classes : Z) (width_mult : spec_float) (net : GhostNet) :
  GhostNet__init__ cfgs num_classes width_mult = Ok net ->
  exists row input_channel output_channel,
    last cfgs = Some row /\
    scaled_width (cfg_c row) width_mult = Ok input_channel /\
    scaled_width (cfg_exp_size row) width_mult = Ok output_channel /\
    (4 | input_channel) /\ 4 <= input_channel /\
    (4 | output_channel) /\ 4 <= output_channel /\
    squeeze net =
      Sequential [Conv2d input_channel output_channel 1 1 0 1;
                  BatchNorm2d output_channel; ReLU; AdaptiveAvgPool2d_1] /\
    classifier net =
      Sequential [Linear output_channel 1280 false; BatchNorm1d 1280;
                  ReLU; Dropout 0.2; Linear 1280 num_classes true].
Proof.
  intros Hinit.
  apply GhostNet__init__inv in Hinit
    as (sw & blocks & row & ic & oc & _ & _ & _ & Hrow & _ & Hic & Hoc & ->).
  exists row, ic, oc. split; [done|]. split; [done|]. split; [done|].
  destruct (scaled_width_inv _ _ _ Hic) as [Hd1 Hl1].
  destruct (scaled_width_inv _ _ _ Hoc) as [Hd2 Hl2].
  done.
Qed.

Lemma GhostNet__init__head_witness :
  exists row input_channel output_channel,
    last toy_cfgs = Some row /\
    scaled_width (cfg_c row) width_mult_1 = Ok input_channel /\
    scaled_width (cfg_exp_size row) width_mult_1 = Ok output_channel /\
    (4 | input_channel) /\ 4 <= input_channel /\
    (4 | output_channel) /\ 4 <= output_channel /\
    squeeze toy_net =
      Sequential [Conv2d input_channel output_channel 1 1 0 1;
                  BatchNorm2d output_channel; ReLU; AdaptiveAvgPool2d_1] /\
    classifier toy_net =
      Sequential [Linear output_channel 1280 false; BatchNorm1d 1280;
                  ReLU; Dropout 0.2; Linear 1280 10 true].
Proof.
  apply (@GhostNet__init__head toy_torch toy_cfgs 10 width_mult_1 toy_net).
  reflexivity.
Defined.

(** The small library instance keeps the shape law of [BatchNorm1d]. *)
Lemma toy_torch_shapes1d : @TorchShapes1d toy_torch.
Proof.
  split. intros p n [x2|x4] y; cbn; [|discriminate].
  intros [= <-]. by eexists _, _.
Qed.

(** X18.  The forward pass of a network that was built, whenever it
    returns, maps a non-empty batch of [N] feature maps to an [N] by
    [num_classes] matrix. *)
Theorem GhostNet_forward_shape `{TorchShapes} `{!TorchShapes1d}
    (cfgs : list cfg_row) (num_classes : Z) (width_mult : spec_float)
    (net : GhostNet) (x out : tensor) :
  GhostNet__init__ cfgs num_classes width_mult = Ok net ->
  GhostNet_forward net x = Ok out ->
  exists x4 o, x = T4 x4 /\ out = T2 o /\ batch x4 <> 0%nat /\
    rows o = batch x4 /\ cols o = Z.to_nat num_classes.
Proof.
  intros Hinit.
  apply GhostNet__init__inv in Hinit
    as (sw & blocks & row & ic & oc & _ & Hbuilt & _ & _ & _ & _ & _ & ->).
  unfold GhostNet_forward. cbn [features squeeze classifier]. intros Hout.
  bind_inv Hout y1 Hfeat. bind_inv Hout y2 Hsq. bind_inv Hout y3 Hview.
  bind_inv Hout y4 Hcls. injection Hout as <-.
  (* features *)
  rewrite forward_Sequential, Sequential_from_cons in Hfeat.
  bind_inv Hfeat s Hstem.
  apply (conv_bn_act_shape _ _ _ _ _ _ _ _ true) in Hstem
    as (x4 & s4 & -> & -> & Hbs & _).
  apply Sequential_from_keeps_batch in Hfeat as (f4 & -> & Hbf);
    [|by eapply Forall_impl; [exact Hbuilt|apply built_block_keeps_batch]].
  (* squeeze *)
  rewrite forward_Sequential, !Sequential_from_cons in Hsq.
  bind_inv Hsq q1 Hq1. bind_inv Hsq q2 Hq2. bind_inv Hsq q3 Hq3.
  bind_inv Hsq q4 Hq4. injection Hsq as <-.
  apply Conv2d_shape in Hq1 as (f4' & c4 & [= <-] & -> & Hbc & _).
  apply BatchNorm2d_shape in Hq2 as (c4' & n4 & [= <-] & -> & Hbn & _).
  cbn in Hq3. injection Hq3 as <-.
  cbn [forward torch.adaptive_avg_pool2d_1 batch channels height width]
    in Hq4.
  destruct (decide _) as [|_]; [discriminate|]. injection Hq4 as <-.
  (* view *)
  unfold view_rows in Hview. cbn [size0 batch] in Hview.
  destruct (decide (batch n4 = 0%nat)) as [|Hne]; [discriminate|].
  destruct (decide _) as [_|]; [|discriminate]. injection Hview as <-.
  (* classifier *)
  rewrite forward_Sequential, !Sequential_from_cons in Hcls.
  bind_inv Hcls l1 Hl1. bind_inv Hcls l2 Hl2. bind_inv Hcls l3 Hl3.
  bind_inv Hcls l4 Hl4. bind_inv Hcls l5 Hl5. injection Hcls as <-.
  apply Linear_shape in Hl1 as (t1 & -> & Hr1 & _). cbn [rows] in Hr1.
  apply BatchNorm1d_shape in Hl2 as (t1' & t2 & [= <-] & -> & Hr2 & _).
  cbn in Hl3. injection Hl3 as <-. cbn in Hl4. injection Hl4 as <-.
  apply Linear_shape in Hl5 as (t5 & -> & Hr5 & Hc5). cbn [rows] in Hr5.
  exists x4, t5. split; [done|]. split; [done|].
  split; [congruence|]. split; congruence.
Qed.

Lemma GhostNet_forward_shape_witness :
  exists x4 o, toy_input = T4 x4 /\ toy_net_output = T2 o /\
    batch x4 <> 0%nat /\ rows o = batch x4 /\ cols o = 10%nat.
Proof.
  apply (@GhostNet_forward_shape toy_torch toy_torch_shapes
           toy_torch_shapes1d toy_cfgs 10 width_mult_1 toy_net toy_input
           toy_net_output); reflexivity.
Defined.

(** X19.  The squeeze-and-excite layer never enlarges an entry and never
    changes its sign: an entry that is not negative stays between 0 and
    its value, one that is not positive stays between its value and 0. *)
Theorem SELayer_shrinks `{TorchShapes} (channel reduction : Z)
    (se : Module) (p : path) (x4 o : Tensor4) :
  SELayer__init__ channel reduction = Ok se ->
  forward p se (T4 x4) = Ok (T4 o) ->
  forall i j k l, torch.in_range x4 i j k l ->
    ((0 <= at4 x4 i j k l)%Q ->
     (0 <= at4 o i j k l)%Q /\ (at4 o i j k l <= at4 x4 i j k l)%Q) /\
    ((at4 x4 i j k l <= 0)%Q ->
     (at4 x4 i j k l <= at4 o i j k l)%Q /\ (at4 o i j k l <= 0)%Q).
Proof.
  intros Hinit. apply SELayer__init__inv in Hinit as (r & Hr & ->).
  intros Hout.
  apply SELayer_forward_inv in Hout
    as (x4' & y & o' & [= <-] & [= <-] & _ & _ & _ & _ & Hent).
  intros i j k l Hin. rewrite (Hent i j k l Hin).
  destruct (clamp1_unit (at2 y i j)) as [Hg0 Hg1].
  set (g := torch.clamp1 0 1 (at2 y i j)) in *.
  set (a := at4 x4 i j k l).
  clearbody g a. split; intros Ha; split; nra.
Qed.

Lemma SELayer_shrinks_witness :
  (0 <= at4 toy_se_output4 1%nat 2%nat 0%nat 1%nat)%Q /\
  (at4 toy_se_output4 1%nat 2%nat 0%nat 1%nat
   <= at4 toy_input4 1%nat 2%nat 0%nat 1%nat)%Q.
Proof.
  refine (proj1 (@SELayer_shrinks toy_torch toy_torch_shapes 3 4 toy_se_layer
              [] toy_input4 toy_se_output4 eq_refl eq_refl
              1%nat 2%nat 0%nat 1%nat _) _).
  - unfold torch.in_range. cbn. lia.
  - discriminate.
Defined.

(** X20.  The squeeze-and-excite layer checks the channels of its input:
    when its forward pass returns for a non-empty batch, the input has
    exactly the number of channels the layer was built for. *)
Theorem SELayer_checks_channels `{TorchShapes} (channel reduction : Z)
    (se : Module) (p : path) (x4 : Tensor4) (out : tensor) :
  SELayer__init__ channel reduction = Ok se ->
  forward p se (T4 x4) = Ok out ->
  batch x4 <> 0%nat ->
  channels x4 = Z.to_nat channel.
Proof.
  intros Hinit. apply SELayer__init__inv in Hinit as (r & Hr & ->).
  intros Hout Hb.
  apply SELayer_forward_inv in Hout
    as (x4' & y & o' & [= <-] & _ & _ & _ & _ & Hnum & _).
  nia.
Qed.

Lemma SELayer_checks_channels_witness :
  channels toy_input4 = Z.to_nat 3.
Proof.
  apply (@SELayer_checks_channels toy_torch toy_torch_shapes 3 4
           toy_se_layer [] toy_input4 toy_se_output);
    [reflexivity | reflexivity | discriminate].
Defined.

(** X21.  With a library that accepts positive sizes, [ghost_net] returns
    a network for every positive number of classes and every width
    multiplier of magnitude up to [2^900], zero and negative ones
    included: every width is rounded to at least 4.  Its [features] are
    the stem and sixteen built blocks. *)
Theorem ghost_net_returns `{TorchAccepts} (num_classes : Z)
    (width_mult : spec_float) :
  0 < num_classes -> moderate width_mult ->
  exists net stem blocks,
    ghost_net num_classes width_mult = Ok net /\
    features net = Sequential (stem :: blocks) /\
    length blocks = 16%nat /\ Forall built_block blocks.
Proof.
  intros Hnc Hw. unfold ghost_net.
  destruct (GhostNet__init__returns ghost_net_cfgs num_classes width_mult)
    as [net Hnet]; [done|done|discriminate| |].
  - unfold ghost_net_cfgs. table_rows.
  - pose proof Hnet as Hinv.
    apply GhostNet__init__inv in Hinv
      as (sw & blocks & row & ic & oc & Hlen & Hbuilt & _ & _ & _ & _ & _
          & ->).
    by eexists _, _, blocks.
Qed.

Lemma ghost_net_returns_witness :
  exists net stem blocks,
    @ghost_net toy_torch 1000 width_mult_1 = Ok net /\
    features net = Sequential (stem :: blocks) /\
    length blocks = 16%nat /\ Forall (@built_block toy_torch) blocks.
Proof.
  apply (@ghost_net_returns toy_torch toy_torch_accepts 1000 width_mult_1);
    [lia | exact width_mult_1_moderate].
Defined.

Section Chain.

Context `{TorchShapes}.

(** The loop over the table chains the blocks it builds. *)
Lemma GhostNet_blocks_chained cfgs width_mult layers input_channel exp_size
    layers' input_channel' exp_size' :
  GhostNet_blocks cfgs width_mult layers input_channel exp_size
    = Ok (layers', input_channel', exp_size') ->
  exists blocks,
    layers' = layers ++ blocks /\ chained input_channel blocks input_channel'.
Proof.
  revert layers input_channel exp_size.
  induction cfgs as [|row cfgs IH]; intros layers input_channel exp_size.
  - cbn. intros [= <- <- <-]. exists []. rewrite app_nil_r.
    split; [done | constructor].
  - cbn [GhostNet_blocks]. intros Hloop.
    bind_inv Hloop oc Hoc. bind_inv Hloop hc Hhc. bind_inv Hloop blk Hblk.
    apply IH in Hloop as (blocks & -> & Hchain).
    exists (blk :: blocks). split; [by rewrite <- app_assoc|].
    destruct (scaled_width_inv _ _ _ Hoc) as [_ H4].
    eapply chained_cons; [|exact Hblk|exact Hchain]. lia.
Qed.

(** A chain of blocks maps the width it starts from to the width it ends
    with. *)
Lemma chained_forward w blocks w' :
  chained w blocks w' ->
  forall p i x4 out,
    channels x4 = Z.to_nat w ->
    Sequential_from p i blocks (T4 x4) = Ok out ->
    exists o, out = T4 o /\ batch o = batch x4 /\ channels o = Z.to_nat w'.
Proof.
  induction 1 as [w|inp hidden_dim oup kernel_size stride use_se blk blks w
                    Houp Hblk _ IH]; intros p i x4 out Hch.
  - intros [= <-]. by exists x4.
  - rewrite Sequential_from_cons. intros Hout. bind_inv Hout y Hy.
    eapply built_block_shape in Hy as (o1 & -> & Hb1 & Hc1);
      [|exact Houp|exact Hblk|exact Hch].
    apply (IH _ _ _ _ Hc1) in Hout as (o & -> & Hb & Hc).
    exists o. split; [done|]. split; congruence.
Qed.

End Chain.

(** X22.  The loop of [GhostNet.__init__] threads the channel width through
    the blocks: whenever the feature extractor of a constructed network
    returns, it returns a batch of the size of its input whose maps have
    the rounded output width of the last row of the table, which is the
    width the squeeze convolution was built to take. *)
Theorem GhostNet_features_shape `{TorchShapes}
    (cfgs : list cfg_row) (num_classes : Z) (width_mult : spec_float)
    (net : GhostNet) (p : path) (x out : tensor) :
  GhostNet__init__ cfgs num_classes width_mult = Ok net ->
  forward p (features net) x = Ok out ->
  exists x4 o row w output_channel,
    x = T4 x4 /\ out = T4 o /\ batch o = batch x4 /\
    last cfgs = Some row /\
    scaled_width (cfg_c row) width_mult = Ok w /\
    channels o = Z.to_nat w /\
    squeeze net =
      Sequential [Conv2d w output_channel 1 1 0 1;
                  BatchNorm2d output_channel; ReLU; AdaptiveAvgPool2d_1].
Proof.
  unfold GhostNet__init__. intros Hinit.
  bind_inv Hinit sw Hsw. bind_inv Hinit c0 Hc0. bind_inv Hinit b0 Hb0.
  bind_inv Hinit r Hloop.
  destruct r as [[layers ic] e]. cbn beta iota in Hinit.
  bind_inv Hinit e1 Hex. bind_inv Hinit oc Hoc.
  bind_inv Hinit c1 Hc1. bind_inv Hinit b1 Hb1.
  bind_inv Hinit l1 Hl1. bind_inv Hinit b2 Hb2. bind_inv Hinit l2 Hl2.
  cbv zeta in Hinit. bind_inv Hinit u Hu. injection Hinit as <-.
  rewrite (nn_Conv2d_inv _ _ _ _ _ _ _ Hc0), (nn_BatchNorm2d_inv _ _ Hb0),
    (nn_Conv2d_inv _ _ _ _ _ _ _ Hc1), (nn_BatchNorm2d_inv _ _ Hb1)
    in *.
  pose proof Hloop as Hloop'.
  apply GhostNet_blocks_chained in Hloop as (blocks & -> & Hchain).
  apply GhostNet_blocks_inv in Hloop' as (blocks' & _ & _ & _ & _ & Hlast).
  destruct e as [e|]; [|discriminate].
  destruct (last cfgs) as [row|] eqn:Hrow; [|by destruct Hlast as [_ [=]]].
  destruct Hlast as [Hic _].
  cbn [features squeeze app]. intros Hout.
  rewrite forward_Sequential, Sequential_from_cons in Hout.
  bind_inv Hout s Hstem.
  apply (conv_bn_act_shape _ _ _ _ _ _ _ _ true) in Hstem
    as (x4 & s4 & -> & -> & Hbs & Hcs).
  eapply chained_forward in Hout as (o & -> & Hb & Hc);
    [|exact Hchain|exact Hcs].
  exists x4, o, row, ic, oc.
  split; [done|]. split; [done|]. split; [congruence|]. done.
Qed.

Lemma GhostNet_features_shape_witness :
  exists x4 o row w output_channel,
    toy_input = T4 x4 /\ toy_features_output = T4 o /\
    batch o = batch x4 /\ last toy_cfgs = Some row /\
    scaled_width (cfg_c row) width_mult_1 = Ok w /\
    channels o = Z.to_nat w /\
    squeeze toy_net =
      Sequential [Conv2d w output_channel 1 1 0 1;
                  BatchNorm2d output_channel; ReLU; AdaptiveAvgPool2d_1].
Proof.
  apply (@GhostNet_features_shape toy_torch toy_torch_shapes
           toy_cfgs 10 width_mult_1 toy_net [] toy_input
           toy_features_output);
    reflexivity.
Defined.
